(** * Consuma: the callback-delivery core of the sync/async backend

    A shallow embedding of [app/config.py], [app/models.py], [app/work.py],
    [app/callback_worker.py] and the [/sync], [/async] and
    [/requests/{id}] endpoints of [app/main.py], with the properties of the
    specification stated over it.

    Conventions of the embedding.
    - Python [int] is [Z]; a Python [float] is a rational ([Q]). In the
      backoff delay, the one place where a claim depends on it, every float
      operation is followed by the rounding of binary64, a function of the
      environment; the processing time of the work is computed over exact
      rationals.
    - Python [str] is [string]; [Set[str]] is [gset string]; the request
      table of [app/database.py] is a [gmap string RequestRecord] keyed by
      the primary key [id].
    - What the code obtains from outside the repository (the URL parser, the
      resolver, the [ipaddress] classification, SHA-256, the HTTP client, the
      clock, the random generator, the thread pool) is a field of an
      environment record: every theorem holds for all environments.
    - Coroutines are functions in a state-and-exception monad over a [World]
      (the table plus the trace of effects performed so far); one coroutine
      is followed from start to end, interleavings with other workers are
      not modelled. *)

From Stdlib Require Import ZArith QArith Qminmax Qround String Ascii List Lia
  Psatz.
From stdpp Require Import base gmap strings pretty list.

Local Open Scope string_scope.
Local Open Scope Z_scope.

(** ** Results of fallible calls *)

Inductive outcome (E A : Type) : Type :=
| Ok (a : A)
| Raise (e : E).
Arguments Ok {E A} a.
Arguments Raise {E A} e.

(** ** [app/config.py] *)

Module Config.

Record Settings : Type := {
  async_worker_count : Z;
  async_queue_max_size : Z;
  callback_timeout_seconds : Q;
  callback_max_retries : Z;
  callback_retry_base_delay : Q;
  callback_retry_max_delay : Q;
  callback_block_private_ips : bool;
  callback_allowed_schemes : gset string;
  max_stored_requests : Z;
  request_retention_hours : Z
}.

(** The defaults of [class Settings]; every field can be overridden from the
    process environment ([env_prefix = "APP_"]), so the functions below take
    the settings as an argument. *)
Definition settings : Settings := {|
  async_worker_count := 10;
  async_queue_max_size := 10000;
  callback_timeout_seconds := 10;
  callback_max_retries := 3;
  callback_retry_base_delay := 1;
  callback_retry_max_delay := 30;
  callback_block_private_ips := true;
  callback_allowed_schemes := {[ "http"; "https" ]};
  max_stored_requests := 100000;
  request_retention_hours := 24
|}.

(** What [is_private_ip] reads of an [ipaddress] address object. *)
Record IPAddress : Type := {
  is_private : bool;
  is_loopback : bool;
  is_link_local : bool;
  is_reserved : bool;
  is_multicast : bool
}.

(** Exceptions that can leave [socket.gethostbyname]: [socket.gaierror],
    [ValueError] (with its subclass [UnicodeError], raised for a label the
    IDNA codec refuses) and anything else. *)
Inductive sock_error : Type :=
| gaierror
| ValueError
| OtherError.

(** The resolver and the address parser, as the process sees them. *)
Record Resolver : Type := {
  gethostbyname : string → outcome sock_error string;
  ip_address : string → option IPAddress   (* [None]: [ValueError] *)
}.

(** [def is_private_ip(hostname: str) -> bool]; an exception that is neither
    [socket.gaierror] nor [ValueError] leaves the function. *)
Definition is_private_ip (rs : Resolver) (hostname : string)
  : outcome sock_error bool :=
  match gethostbyname rs hostname with
  | Ok ip_str =>
      match ip_address rs ip_str with
      | Some ip =>
          Ok (is_private ip || is_loopback ip || is_link_local ip
              || is_reserved ip || is_multicast ip)
      | None => Ok true
      end
  | Raise gaierror => Ok true
  | Raise ValueError => Ok true
  | Raise OtherError => Raise OtherError
  end.

End Config.
Export Config.

(** ** The SSRF validator, [CallbackWorkerPool._is_safe_callback_url] *)

Module Ssrf.

(** What the validator reads of [urllib.parse.urlparse(url)]. *)
Record ParseResult : Type := {
  scheme : string;
  hostname : option string
}.

Record Net : Type := {
  urlparse : string → option ParseResult;   (* [None]: [urlparse] raised *)
  resolver : Resolver
}.

(** [str.lower] on the ASCII range. *)
Definition ascii_lower (c : ascii) : ascii :=
  let n := N_of_ascii c in
  if ((65 <=? n) && (n <=? 90))%N then ascii_of_N (n + 32) else c.

Fixpoint lower (s : string) : string :=
  match s with
  | EmptyString => EmptyString
  | String c s' => String (ascii_lower c) (lower s')
  end.

Definition LOCALHOST_VARIANTS : list string :=
  [ "localhost"; "127.0.0.1"; "::1"; "0.0.0.0" ].

Definition _is_safe_callback_url (st : Settings) (net : Net) (url : string)
  : bool :=
  match urlparse net url with
  | None => false                                   (* except Exception *)
  | Some parsed =>
      if negb (bool_decide (scheme parsed ∈ callback_allowed_schemes st))
      then false
      else if callback_block_private_ips st then
        let hostname := default "" (hostname parsed) in
        if bool_decide (lower hostname ∈ LOCALHOST_VARIANTS) then false
        else
          match is_private_ip (resolver net) hostname with
          | Ok true => false
          | Ok false => true
          | Raise _ => false                        (* except Exception *)
          end
      else true
  end.

(** The spec's words for the validator's inputs. *)
Definition case_insensitive_eq (a b : string) : Prop := lower a = lower b.

Definition names_localhost (h : string) : Prop :=
  ∃ c, c ∈ LOCALHOST_VARIANTS ∧ case_insensitive_eq h c.

(** The host name handed to the resolver resolves to [ip]. *)
Definition resolves_to (net : Net) (h : string) (ip : IPAddress) : Prop :=
  ∃ ip_str, gethostbyname (resolver net) h = Ok ip_str
            ∧ ip_address (resolver net) ip_str = Some ip.

(** Resolution fails: the resolver raises, or its answer is not an address. *)
Definition resolution_fails (net : Net) (h : string) : Prop :=
  (∃ e, gethostbyname (resolver net) h = Raise e)
  ∨ (∃ ip_str, gethostbyname (resolver net) h = Ok ip_str
               ∧ ip_address (resolver net) ip_str = None).

Definition internal_address (ip : IPAddress) : Prop :=
  is_private ip = true ∨ is_loopback ip = true ∨ is_link_local ip = true
  ∨ is_reserved ip = true ∨ is_multicast ip = true.

Definition public_address (ip : IPAddress) : Prop :=
  is_private ip = false ∧ is_loopback ip = false ∧ is_link_local ip = false
  ∧ is_reserved ip = false ∧ is_multicast ip = false.

End Ssrf.
Export Ssrf.

(** ** [app/models.py] *)

Module Models.

Inductive RequestMode : Type := SYNC | ASYNC.

Inductive RequestStatus : Type :=
| PENDING
| PROCESSING
| COMPLETED
| CALLBACK_PENDING
| CALLBACK_SUCCESS
| CALLBACK_FAILED.

#[export] Instance RequestStatus_eq_dec : EqDecision RequestStatus.
Proof. solve_decision. Defined.

(** Field names carry the initials of their class where two classes of
    [models.py] share a name. *)
Record WorkPayload : Type := {
  data : string;
  iterations : Z
}.

(** [class AsyncWorkPayload(WorkPayload)]. *)
Record AsyncWorkPayload : Type := {
  awp_work : WorkPayload;
  awp_callback_url : string
}.

Record WorkResult : Type := {
  wr_request_id : string;
  input_hash : string;
  output_hash : string;
  wr_iterations : Z;
  processing_time_ms : Q
}.

Record CallbackPayload : Type := {
  cp_request_id : string;
  cp_status : string;
  cp_result : option WorkResult;
  cp_error : option string;
  cp_timestamp : Z
}.

Record RequestRecord : Type := {
  id : string;
  mode : RequestMode;
  status : RequestStatus;
  payload_hash : string;
  created_at : Z;
  completed_at : option Z;
  callback_url : option string;
  callback_attempts : Z;
  callback_last_error : option string;
  result : option WorkResult
}.

(** In-place attribute assignments on a record object. *)
Definition set_status (s : RequestStatus) (r : RequestRecord) : RequestRecord :=
  {| id := id r; mode := mode r; status := s; payload_hash := payload_hash r;
     created_at := created_at r; completed_at := completed_at r;
     callback_url := callback_url r; callback_attempts := callback_attempts r;
     callback_last_error := callback_last_error r; result := result r |}.

Definition set_callback_last_error (e : option string) (r : RequestRecord)
  : RequestRecord :=
  {| id := id r; mode := mode r; status := status r;
     payload_hash := payload_hash r; created_at := created_at r;
     completed_at := completed_at r; callback_url := callback_url r;
     callback_attempts := callback_attempts r;
     callback_last_error := e; result := result r |}.

Definition set_callback_attempts (n : Z) (r : RequestRecord) : RequestRecord :=
  {| id := id r; mode := mode r; status := status r;
     payload_hash := payload_hash r; created_at := created_at r;
     completed_at := completed_at r; callback_url := callback_url r;
     callback_attempts := n;
     callback_last_error := callback_last_error r; result := result r |}.

Definition set_result (res : option WorkResult) (r : RequestRecord)
  : RequestRecord :=
  {| id := id r; mode := mode r; status := status r;
     payload_hash := payload_hash r; created_at := created_at r;
     completed_at := completed_at r; callback_url := callback_url r;
     callback_attempts := callback_attempts r;
     callback_last_error := callback_last_error r; result := res |}.

Definition set_completed_at (t : option Z) (r : RequestRecord) : RequestRecord :=
  {| id := id r; mode := mode r; status := status r;
     payload_hash := payload_hash r; created_at := created_at r;
     completed_at := t; callback_url := callback_url r;
     callback_attempts := callback_attempts r;
     callback_last_error := callback_last_error r; result := result r |}.

End Models.
Export Models.

(** ** [app/work.py] *)

Module Work.

(** [round(x, 3)], to the nearest thousandth, ties to the even one. *)
Definition round3 (x : Q) : Q :=
  let n := (Qnum x * 1000)%Z in
  let d := Z.pos (Qden x) in
  let q := (n / d)%Z in
  let r := (n mod d)%Z in
  let up := if (d <? 2 * r)%Z then true
            else if (2 * r =? d)%Z then Z.odd q else false in
  Qmake (if up then q + 1 else q) 1000.

(** The body of [for i in range(payload.iterations)], [n] iterations left. *)
Fixpoint iterate_hash (sha256 : string → string) (n : nat) (i : Z)
    (current_hash : string) : string :=
  match n with
  | O => current_hash
  | S n' =>
      iterate_hash sha256 n' (i + 1)
        (sha256 (current_hash ++ ":" ++ pretty i))
  end.

(** [compute_work_sync]; [sha256 s] is [hashlib.sha256(s.encode()).hexdigest()]
    and [t0], [t1] are the two readings of [time.perf_counter()]. *)
Definition compute_work_sync (sha256 : string → string) (t0 t1 : Q)
    (request_id : string) (payload : WorkPayload) : WorkResult :=
  let input_hash := sha256 (data payload) in
  let output_hash :=
    iterate_hash sha256 (Z.to_nat (iterations payload)) 0 input_hash in
  let processing_time_ms := ((t1 - t0) * 1000)%Q in
  {| wr_request_id := request_id;
     input_hash := input_hash;
     output_hash := output_hash;
     wr_iterations := iterations payload;
     processing_time_ms := round3 processing_time_ms |}.

End Work.
Export Work.

(** ** [asyncio.Queue], as far as the pool uses it *)

Module AsyncioQueue.

Section Queue.
Context {A : Type}.

(** [_queue] is the deque, oldest item first. *)
Record Queue : Type := {
  maxsize : Z;
  _queue : list A;
  _unfinished_tasks : Z
}.

Definition new (maxsize : Z) : Queue :=
  {| maxsize := maxsize; _queue := []; _unfinished_tasks := 0 |}.

Definition qsize (q : Queue) : Z := Z.of_nat (length (_queue q)).

(** [full()]: a queue built with [maxsize <= 0] is never full. *)
Definition full (q : Queue) : bool :=
  if maxsize q <=? 0 then false else maxsize q <=? qsize q.

Definition empty (q : Queue) : bool :=
  match _queue q with [] => true | _ => false end.

(** [put_nowait(item)]; [None] stands for [raise QueueFull]. *)
Definition put_nowait (q : Queue) (item : A) : option Queue :=
  if full q then None
  else Some {| maxsize := maxsize q;
               _queue := _queue q ++ [item];
               _unfinished_tasks := _unfinished_tasks q + 1 |}.

(** [get_nowait()]; [None] stands for [raise QueueEmpty]. *)
Definition get_nowait (q : Queue) : option (A * Queue) :=
  match _queue q with
  | [] => None
  | item :: rest =>
      Some (item, {| maxsize := maxsize q; _queue := rest;
                     _unfinished_tasks := _unfinished_tasks q |})
  end.

Definition task_done (q : Queue) : Queue :=
  {| maxsize := maxsize q; _queue := _queue q;
     _unfinished_tasks := _unfinished_tasks q - 1 |}.
End Queue.
Arguments Queue A : clear implicits.

End AsyncioQueue.
Export AsyncioQueue.

(** ** The world a coroutine runs in *)

Module Runtime.

(** Exceptions of the asynchronous layer. [CancelledError] derives from
    [BaseException] only; every other constructor is an [Exception]. *)
Inductive exn : Type :=
| CancelledError
| TimeoutException (msg : string)          (* httpx.TimeoutException *)
| RequestError (msg : string)              (* httpx.RequestError, no timeout *)
| HTTPException (status_code : Z) (detail : string)
| PyException (msg : string).              (* any other Exception *)

Definition is_Exception (e : exn) : bool :=
  match e with CancelledError => false | _ => true end.

(** [str(e)]. *)
Definition str (e : exn) : string :=
  match e with
  | CancelledError => ""
  | TimeoutException msg => msg
  | RequestError msg => msg
  | HTTPException code detail => pretty code ++ ": " ++ detail
  | PyException msg => msg
  end.

(** The state of the [CallbackWorkerPool] object. *)
Record Pool : Type := {
  queue : Queue (string * AsyncWorkPayload);
  running : bool;
  _active_workers : Z
}.

(** Effects a coroutine performs, in the order it performs them. *)
Inductive Event : Type :=
| EvSave (record : RequestRecord)                      (* database.save_request *)
| EvCompute (request_id : string) (payload : WorkPayload)
| EvPost (url : string) (json : CallbackPayload)
         (headers : list (string * string))            (* http_client.post *)
| EvSleep (delay : Q).                                 (* asyncio.sleep *)

Record World : Type := {
  db : gmap string RequestRecord;     (* table [requests], by primary key *)
  pool : Pool;                        (* [worker_pool] *)
  trace : list Event;
  clock_reads : nat                   (* calls of [datetime.utcnow] so far *)
}.

(** What the process obtains from outside the repository. *)
Record Env : Type := {
  net : Net;
  (** [hashlib.sha256(s.encode()).hexdigest()] *)
  sha256 : string → string;
  (** the two readings of [time.perf_counter()] in the computation for a
      request id *)
  perf_counter : string → Q * Q;
  (** [loop.run_in_executor]: [Some e] when the call raises [e] instead of
      returning the function's value *)
  run_in_executor : string → WorkPayload → option exn;
  (** the outcome of the POST to a URL for a request id at an attempt index:
      the response's status code, or the exception raised *)
  http_post : string → string → nat → outcome exn Z;
  (** [random.random()] at an attempt index of a request id *)
  random : string → nat → Q;
  (** the rounding of float arithmetic: the binary64 value nearest to the
      exact result of an operation *)
  round64 : Q → Q;
  (** the [n]-th reading of [datetime.utcnow()] *)
  utcnow : nat → Z
}.

Definition M (A : Type) : Type := World → outcome exn A * World.

Definition ret {A} (a : A) : M A := λ w, (Ok a, w).

Definition bind {A B} (c : M A) (k : A → M B) : M B :=
  λ w, match c w with
       | (Ok a, w') => k a w'
       | (Raise e, w') => (Raise e, w')
       end.

Definition raise {A} (e : exn) : M A := λ w, (Raise e, w).

(** [try: c / except ...: h e]; [h e = None] when no clause matches [e]. *)
Definition try_except {A} (c : M A) (h : exn → option (M A)) : M A :=
  λ w, match c w with
       | (Ok a, w') => (Ok a, w')
       | (Raise e, w') =>
           match h e with
           | Some handler => handler w'
           | None => (Raise e, w')
           end
       end.

(** [try: c / finally: f]. *)
Definition try_finally {A} (c : M A) (f : M unit) : M A :=
  λ w, match c w with
       | (r, w') =>
           match f w' with
           | (Ok _, w'') => (r, w'')
           | (Raise e, w'') => (Raise e, w'')
           end
       end.

(** [except Exception as e: h e]. *)
Definition except_Exception {A} (h : exn → M A) (e : exn) : option (M A) :=
  if is_Exception e then Some (h e) else None.

Declare Scope py_scope.
Delimit Scope py_scope with py.
Notation "x <- c ;; k" := (bind c (λ x, k))
  (at level 100, c at next level, right associativity) : py_scope.
Notation "c ;; k" := (bind c (λ _, k))
  (at level 100, right associativity) : py_scope.
Local Open Scope py_scope.

Definition emit (ev : Event) : M unit :=
  λ w, (Ok (), {| db := db w; pool := pool w; trace := trace w ++ [ev];
                  clock_reads := clock_reads w |}).

Definition datetime_utcnow (env : Env) : M Z :=
  λ w, (Ok (utcnow env (clock_reads w)),
        {| db := db w; pool := pool w; trace := trace w;
           clock_reads := S (clock_reads w) |}).

Definition get_pool : M Pool := λ w, (Ok (pool w), w).

Definition set_pool (p : Pool) : M unit :=
  λ w, (Ok (), {| db := db w; pool := p; trace := trace w;
                  clock_reads := clock_reads w |}).

(** *** [app/database.py]: the two operations the core uses *)

(** [INSERT OR REPLACE INTO requests ...], keyed by [id]. *)
Definition save_request (record : RequestRecord) : M unit :=
  λ w, (Ok (), {| db := <[id record := record]> (db w); pool := pool w;
                  trace := trace w ++ [EvSave record];
                  clock_reads := clock_reads w |}).

(** [SELECT * FROM requests WHERE id = ?]: a fresh object per call. *)
Definition get_request (request_id : string) : M (option RequestRecord) :=
  λ w, (Ok (db w !! request_id), w).

(** *** [compute_work_async] *)

Definition compute_work_async (env : Env) (request_id : string)
    (payload : WorkPayload) : M WorkResult :=
  emit (EvCompute request_id payload) ;;
  match run_in_executor env request_id payload with
  | Some e => raise e
  | None =>
      let '(t0, t1) := perf_counter env request_id in
      ret (compute_work_sync (sha256 env) t0 t1 request_id payload)
  end.

End Runtime.
Export Runtime.

(** ** [app/callback_worker.py]: [class CallbackWorkerPool] *)

Module CallbackWorkerPool.
Local Open Scope py_scope.

(** [__init__]. *)
Definition __init__ (st : Settings) : Pool :=
  {| queue := AsyncioQueue.new (async_queue_max_size st);
     running := false;
     _active_workers := 0 |}.

(** [enqueue] on the pool object: [put_nowait], with [QueueFull] turned into
    [False]. *)
Definition enqueue_pool (p : Pool) (request_id : string)
    (payload : AsyncWorkPayload) : bool * Pool :=
  match put_nowait (queue p) (request_id, payload) with
  | Some q' =>
      (true, {| queue := q'; running := running p;
                _active_workers := _active_workers p |})
  | None => (false, p)
  end.

Definition enqueue (request_id : string) (payload : AsyncWorkPayload)
  : M bool :=
  p <- get_pool ;;
  let '(ok, p') := enqueue_pool p request_id payload in
  set_pool p' ;;
  ret ok.

(** [if error:] on an [Optional[str]]. *)
Definition truthy (error : option string) : bool :=
  match error with
  | None => false
  | Some "" => false
  | Some _ => true
  end.

Definition _update_callback_status (request_id : string) (success : bool)
    (error : option string) : M unit :=
  record <- get_request request_id ;;
  match record with
  | Some record =>
      let record :=
        set_status (if success then CALLBACK_SUCCESS else CALLBACK_FAILED)
                   record in
      let record :=
        if truthy error then set_callback_last_error error record
        else record in
      save_request record
  | None => ret ()
  end.

Definition _increment_callback_attempt (request_id : string)
    (error : string) : M unit :=
  record <- get_request request_id ;;
  match record with
  | Some record =>
      let record :=
        set_callback_attempts (callback_attempts record + 1) record in
      let record := set_callback_last_error (Some error) record in
      save_request record
  | None => ret ()
  end.

(** The headers of the POST at loop index [attempt]. *)
Definition post_headers (request_id : string) (attempt : nat)
  : list (string * string) :=
  [ ("Content-Type", "application/json");
    ("X-Request-ID", request_id);
    ("X-Attempt", pretty (Z.of_nat attempt + 1)) ].

(** [await self.http_client.post(callback_url, json=..., headers=...)]:
    the status code of the response, or the exception raised. *)
Definition http_client_post (env : Env) (callback_url request_id : string)
    (attempt : nat) (callback_payload : CallbackPayload) : M Z :=
  emit (EvPost callback_url callback_payload
               (post_headers request_id attempt)) ;;
  match http_post env callback_url request_id attempt with
  | Ok status_code => ret status_code
  | Raise e => raise e
  end.

(** [min(base * (2 ** attempt), max_delay)], before the jitter. The product
    of a float and a power of two is exact, or infinite when it leaves the
    floats, and then the minimum is [max_delay] as it is here for a base
    delay that is not negative: no rounding occurs. The conversion of
    [2 ** attempt] to a float is defined up to [attempt = 1023]; from
    [attempt = 1024] on the source raises [OverflowError] here, which is
    why the statements about delays are made for retry counts up to 1024
    (a delay is computed only at indices below the retry count). *)
Definition backoff_ceiling (st : Settings) (attempt : nat) : Q :=
  Qmin (callback_retry_base_delay st * inject_Z (2 ^ Z.of_nat attempt))
       (callback_retry_max_delay st).

(** The [delay] handed to [asyncio.sleep] in iteration [attempt], with [r]
    the value of [random.random()] and [fl] the rounding of float
    arithmetic: [delay *= (0.5 + random.random())] rounds the sum, then the
    product. *)
Definition backoff_delay (fl : Q → Q) (st : Settings) (attempt : nat) (r : Q)
  : Q :=
  fl (backoff_ceiling st attempt * fl ((1 # 2) + r))%Q.

(** An f-string field holding an [Optional[str]]. *)
Definition format_optional (s : option string) : string :=
  default "None" s.

(** The [try] statement of one loop iteration: [None] when the callback was
    delivered (the function returns), [Some last_error] when the attempt
    failed. Exceptions other than the two [httpx] ones are not caught. *)
Definition attempt_delivery (env : Env) (request_id callback_url : string)
    (callback_payload : CallbackPayload) (attempt : nat)
  : M (option string) :=
  try_except
    (status_code <-
       http_client_post env callback_url request_id attempt callback_payload ;;
     if (200 <=? status_code) && (status_code <? 300) then
       _update_callback_status request_id true None ;;
       ret None
     else
       ret (Some ("HTTP " ++ pretty status_code)))
    (λ e, match e with
          | TimeoutException _ => Some (ret (Some "Timeout"))
          | RequestError msg => Some (ret (Some msg))
          | _ => None
          end).

(** [for attempt in range(settings.callback_max_retries + 1)], with
    [remaining] iterations to go from index [attempt], followed by the code
    after the loop. The loop follows the source for retry counts up to
    1024; the [OverflowError] of the delay at index 1024, met with a larger
    retry count, is not followed (see [backoff_ceiling]). *)
Fixpoint retry_loop (env : Env) (st : Settings)
    (request_id callback_url : string) (callback_payload : CallbackPayload)
    (remaining attempt : nat) (last_error : option string) : M unit :=
  match remaining with
  | O =>
      _update_callback_status request_id false
        (Some ("Max retries exceeded: " ++ format_optional last_error))
  | S remaining' =>
      r <- attempt_delivery env request_id callback_url callback_payload
             attempt ;;
      match r with
      | None => ret ()
      | Some last_error =>
          _increment_callback_attempt request_id last_error ;;
          (if Z.of_nat attempt <? callback_max_retries st then
             emit (EvSleep (backoff_delay (round64 env) st attempt
                              (random env request_id attempt)))
           else ret ()) ;;
          retry_loop env st request_id callback_url callback_payload
            remaining' (S attempt) (Some last_error)
      end
  end.

Definition _deliver_callback (env : Env) (st : Settings)
    (request_id callback_url : string) (result : WorkResult) : M unit :=
  if negb (_is_safe_callback_url st (net env) callback_url) then
    _update_callback_status request_id false
      (Some "Callback URL blocked by security policy")
  else
    timestamp <- datetime_utcnow env ;;
    let callback_payload :=
      {| cp_request_id := request_id;
         cp_status := "success";
         cp_result := Some result;
         cp_error := None;
         cp_timestamp := timestamp |} in
    retry_loop env st request_id callback_url callback_payload
      (Z.to_nat (callback_max_retries st + 1)) 0%nat None.

(** The [except Exception as e] clause of [_process_request], reading the
    local [record] object as the [try] block left it. *)
Definition record_failure (record : option RequestRecord) (e : exn) : M unit :=
  match record with
  | Some record =>
      save_request
        (set_callback_last_error (Some (str e))
           (set_status CALLBACK_FAILED record))
  | None => ret ()
  end.

(** [_process_request]. The [try] block assigns to the local [record] once,
    after the computation, in statements that do not raise; it is written in
    two parts, the computation and the delivery, so that the handler is
    given the object as it is when the exception is raised. After the
    handler of the first part the function returns. *)
Definition _process_request (env : Env) (st : Settings)
    (request_id : string) (payload : AsyncWorkPayload) : M unit :=
  record <- get_request request_id ;;
  record <- match record with
            | Some record =>
                let record := set_status PROCESSING record in
                save_request record ;;
                ret (Some record)
            | None => ret None
            end ;;
  let work_payload :=
    {| data := data (awp_work payload);
       iterations := iterations (awp_work payload) |} in
  computed <-
    try_except
      (result <- compute_work_async env request_id work_payload ;;
       ret (Some result))
      (except_Exception (λ e, record_failure record e ;; ret None)) ;;
  match computed with
  | None => ret ()
  | Some result =>
      record <- match record with
                | Some record =>
                    let record := set_status CALLBACK_PENDING record in
                    let record := set_result (Some result) record in
                    now <- datetime_utcnow env ;;
                    let record := set_completed_at (Some now) record in
                    save_request record ;;
                    ret (Some record)
                | None => ret None
                end ;;
      try_except
        (_deliver_callback env st request_id (awp_callback_url payload) result)
        (except_Exception (record_failure record))
  end.

(** What one pass through the body of [while self.running] decides. *)
Inductive loop_ctl : Type := Continue | Break.

(** [await asyncio.wait_for(self.queue.get(), timeout=1.0)]: the oldest job,
    or [None] for the [TimeoutError] of an empty queue. *)
Definition queue_get : M (option (string * AsyncWorkPayload)) :=
  p <- get_pool ;;
  match get_nowait (queue p) with
  | Some (job, q') =>
      set_pool {| queue := q'; running := running p;
                  _active_workers := _active_workers p |} ;;
      ret (Some job)
  | None => ret None
  end.

Definition add_active_workers (d : Z) : M unit :=
  p <- get_pool ;;
  set_pool {| queue := queue p; running := running p;
              _active_workers := _active_workers p + d |}.

Definition queue_task_done : M unit :=
  p <- get_pool ;;
  set_pool {| queue := task_done (queue p); running := running p;
              _active_workers := _active_workers p |}.

(** The body of [while self.running] in [_worker]. *)
Definition _worker_iteration (env : Env) (st : Settings) : M loop_ctl :=
  try_except
    (job <- queue_get ;;
     match job with
     | None => ret Continue                              (* continue *)
     | Some (request_id, payload) =>
         add_active_workers 1 ;;
         try_finally
           (_process_request env st request_id payload)
           (add_active_workers (-1) ;; queue_task_done) ;;
         ret Continue
     end)
    (λ e, match e with
          | CancelledError => Some (ret Break)           (* break *)
          | _ => Some (ret Continue)                     (* logger.exception *)
          end).

(** [_worker], at most [fuel] passes through the loop: [Some tt] when the
    loop was left, [None] when the passes were used up. *)
Fixpoint _worker (fuel : nat) (env : Env) (st : Settings)
  : M (option unit) :=
  match fuel with
  | O => ret None
  | S fuel' =>
      p <- get_pool ;;
      if running p then
        ctl <- _worker_iteration env st ;;
        match ctl with
        | Break => ret (Some tt)
        | Continue => _worker fuel' env st
        end
      else ret (Some tt)
  end.

End CallbackWorkerPool.
Export CallbackWorkerPool.

(** ** [app/main.py]: [POST /async] *)

Module Main.
Local Open Scope py_scope.

(** [async_endpoint]; [request_id] is the value of [str(uuid.uuid4())].
    The acknowledgement carries the request id. *)
Definition async_endpoint (env : Env) (request_id : string)
    (payload : AsyncWorkPayload) : M string :=
  now <- datetime_utcnow env ;;
  let record :=
    {| id := request_id;
       mode := ASYNC;
       status := PENDING;
       payload_hash :=
         String.substring 0 16 (sha256 env (data (awp_work payload)));
       created_at := now;
       completed_at := None;
       callback_url := Some (awp_callback_url payload);
       callback_attempts := 0;
       callback_last_error := None;
       result := None |} in
  save_request record ;;
  success <- enqueue request_id payload ;;
  if negb success then
    let record := set_status CALLBACK_FAILED record in
    let record :=
      set_callback_last_error (Some "Server overloaded - queue full") record in
    save_request record ;;
    raise (HTTPException 503 "Server overloaded, please retry later")
  else
    ret request_id.

(** [sync_endpoint]; [request_id] is the value of [str(uuid.uuid4())].
    The response carries the result. *)
Definition sync_endpoint (env : Env) (request_id : string)
    (payload : WorkPayload) : M WorkResult :=
  now <- datetime_utcnow env ;;
  let record :=
    {| id := request_id;
       mode := SYNC;
       status := PROCESSING;
       payload_hash := String.substring 0 16 (sha256 env (data payload));
       created_at := now;
       completed_at := None;
       callback_url := None;
       callback_attempts := 0;
       callback_last_error := None;
       result := None |} in
  save_request record ;;
  try_except
    (result <- compute_work_async env request_id payload ;;
     let record := set_status COMPLETED record in
     now <- datetime_utcnow env ;;
     let record := set_completed_at (Some now) record in
     let record := set_result (Some result) record in
     save_request record ;;
     ret result)
    (except_Exception
       (λ e,
          let record := set_status CALLBACK_FAILED record in
          let record := set_callback_last_error (Some (str e)) record in
          save_request record ;;
          raise (HTTPException 500 (str e)))).

(** [get_request] of [main.py], the handler of [GET /requests/{id}]. *)
Definition get_request_by_id (request_id : string) : M RequestRecord :=
  record <- get_request request_id ;;
  match record with
  | None => raise (HTTPException 404 "Request not found")
  | Some record => ret record
  end.

End Main.
Export Main.

(** ** Reading a trace *)

Module Observe.

(** The events a run added to the trace. *)
Definition events_since (w w' : World) : list Event :=
  drop (length (trace w)) (trace w').

Definition is_post (ev : Event) : bool :=
  match ev with EvPost _ _ _ => true | _ => false end.

(** The number of HTTP requests issued. *)
Definition http_attempts (t : list Event) : nat :=
  length (filter (λ ev, is_post ev = true) t).

Fixpoint sleeps (t : list Event) : list Q :=
  match t with
  | [] => []
  | EvSleep d :: t' => d :: sleeps t'
  | _ :: t' => sleeps t'
  end.

(** The records written, oldest first. *)
Fixpoint saves (t : list Event) : list RequestRecord :=
  match t with
  | [] => []
  | EvSave r :: t' => r :: saves t'
  | _ :: t' => saves t'
  end.

(** The statuses written for one request id, oldest first. *)
Definition status_writes (request_id : string) (t : list Event)
  : list RequestStatus :=
  status <$> filter (λ r, id r = request_id) (saves t).

(** The delays slept before each POST: the [k]-th list of the first
    component holds the sleeps between POST [k - 1] (or the start) and POST
    [k]; the second component holds the sleeps after the last POST. *)
Fixpoint waits_from (pending : list Q) (t : list Event)
  : list (list Q) * list Q :=
  match t with
  | [] => ([], pending)
  | EvSleep d :: t' => waits_from (pending ++ [d]) t'
  | EvPost _ _ _ :: t' =>
      let '(ws, last) := waits_from [] t' in (pending :: ws, last)
  | _ :: t' => waits_from pending t'
  end.

Definition waits_before (t : list Event) : list (list Q) :=
  fst (waits_from [] t).

Definition waits_after_last (t : list Event) : list Q :=
  snd (waits_from [] t).

(** What a run does to the outside, the table apart: the executor calls,
    the POSTs (the time stamp of the body left out) and the sleeps. *)
Inductive Effect : Type :=
| FxCompute (request_id : string) (payload : WorkPayload)
| FxPost (url : string) (request_id status : string)
         (result : option WorkResult) (error : option string)
         (headers : list (string * string))
| FxSleep (delay : Q).

Fixpoint effects (t : list Event) : list Effect :=
  match t with
  | [] => []
  | EvSave _ :: t' => effects t'
  | EvCompute rid p :: t' => FxCompute rid p :: effects t'
  | EvPost url json headers :: t' =>
      FxPost url (cp_request_id json) (cp_status json) (cp_result json)
             (cp_error json) headers :: effects t'
  | EvSleep d :: t' => FxSleep d :: effects t'
  end.

(** The outcome of one POST counts as a failed attempt: a response outside
    [200, 300), a timeout or a transport error. *)
Definition attempt_fails (o : outcome exn Z) : Prop :=
  match o with
  | Ok status_code => ¬ (200 ≤ status_code < 300)
  | Raise (TimeoutException _) => True
  | Raise (RequestError _) => True
  | Raise _ => False
  end.

(** The [last_error] text of a failed attempt. *)
Definition failure_text (o : outcome exn Z) : string :=
  match o with
  | Ok status_code => "HTTP " ++ pretty status_code
  | Raise (TimeoutException _) => "Timeout"
  | Raise e => str e
  end.

(** The outcome of one POST is an exception that the loop does not catch. *)
Definition attempt_raises (o : outcome exn Z) (e : exn) : Prop :=
  o = Raise e ∧
  match e with TimeoutException _ | RequestError _ => False | _ => True end.

(** A status is reached only after [CALLBACK_PENDING] was written. *)
Definition only_after_pending (s : RequestStatus) (l : list RequestStatus)
  : Prop :=
  ∀ i, l !! i = Some s → ∃ j, (j < i)%nat ∧ l !! j = Some CALLBACK_PENDING.

Definition passes_through_pending (l : list RequestStatus) : Prop :=
  only_after_pending CALLBACK_SUCCESS l ∧ only_after_pending CALLBACK_FAILED l.

(** A delay lies in [[0.5, 1.5) * min(base * 2^k, max_delay)]: the band in
    the spec's words, over the real numbers. *)
Definition in_jitter_band (st : Settings) (k : nat) (d : Q) : Prop :=
  ((1 # 2) * backoff_ceiling st k <= d)%Q
  ∧ (d < (3 # 2) * backoff_ceiling st k)%Q.

(** What the statements about delays use of round-to-nearest: it keeps the
    order, and 0, 0.5 and 1.5 are floats. *)
Definition rounds_to_nearest (fl : Q → Q) : Prop :=
  (∀ x y, (x <= y)%Q → (fl x <= fl y)%Q)
  ∧ (fl 0 == 0)%Q ∧ (fl (1 # 2) == 1 # 2)%Q ∧ (fl (3 # 2) == 3 # 2)%Q.

(** The band as float arithmetic has it: a delay lies between the floats
    nearest to [0.5 * min(base * 2^k, max_delay)] and to
    [1.5 * min(base * 2^k, max_delay)], both ends included. *)
Definition in_rounded_band (fl : Q → Q) (st : Settings) (k : nat) (d : Q)
  : Prop :=
  (fl ((1 # 2) * backoff_ceiling st k) <= d)%Q
  ∧ (d <= fl ((3 # 2) * backoff_ceiling st k))%Q.

(** The spec's words for the backoff: before every POST, counted from 0, a
    single delay is slept, and the delay before POST [k] lies in the band
    of [k]. *)
Definition backoff_before_each_attempt (st : Settings) (evs : list Event)
  : Prop :=
  ∀ k ds, waits_before evs !! k = Some ds →
    ∃ d, ds = [d] ∧ in_jitter_band st k d.

(** The jobs a queue hands out, in the order it hands them out. *)
Fixpoint drain_n {A} (n : nat) (q : Queue A) : list A :=
  match n with
  | O => []
  | S n' =>
      match get_nowait q with
      | Some (item, q') => item :: drain_n n' q'
      | None => []
      end
  end.

Definition drain {A} (q : Queue A) : list A :=
  drain_n (length (_queue q)) q.

(** The work payload a worker builds from a job. *)
Definition work_payload_of (payload : AsyncWorkPayload) : WorkPayload :=
  {| data := data (awp_work payload);
     iterations := iterations (awp_work payload) |}.

(** The processing of a job raises [e]: in the executor, or in the delivery
    at a POST that follows failed attempts only. *)
Definition executor_raises (env : Env) (request_id : string)
    (payload : AsyncWorkPayload) (e : exn) : Prop :=
  run_in_executor env request_id (work_payload_of payload) = Some e.

Definition delivery_raises (env : Env) (st : Settings) (request_id : string)
    (payload : AsyncWorkPayload) (e : exn) : Prop :=
  run_in_executor env request_id (work_payload_of payload) = None
  ∧ _is_safe_callback_url st (net env) (awp_callback_url payload) = true
  ∧ ∃ k : nat,
      Z.of_nat k ≤ callback_max_retries st
      ∧ (∀ j, (j < k)%nat →
           attempt_fails
             (http_post env (awp_callback_url payload) request_id j))
      ∧ attempt_raises
          (http_post env (awp_callback_url payload) request_id k) e.

(** The endpoint followed, for an accepted job, by a worker's processing of
    it: the writes of one request from acceptance to its terminal state. *)
Definition job_lifecycle (env : Env) (st : Settings) (request_id : string)
    (payload : AsyncWorkPayload) (w : World) : World :=
  match async_endpoint env request_id payload w with
  | (Ok _, w1) => snd (_process_request env st request_id payload w1)
  | (Raise _, w1) => w1
  end.

(** The record [_update_callback_status] writes over [record]. *)
Definition updated_record (success : bool) (error : option string)
    (record : RequestRecord) : RequestRecord :=
  let record :=
    set_status (if success then CALLBACK_SUCCESS else CALLBACK_FAILED) record in
  if truthy error then set_callback_last_error error record else record.

(** The record [_increment_callback_attempt] writes over [record]. *)
Definition incremented_record (error : string) (record : RequestRecord)
  : RequestRecord :=
  set_callback_last_error (Some error)
    (set_callback_attempts (callback_attempts record + 1) record).

(** The world with a record written to the table and to the trace. *)
Definition saved (record : RequestRecord) (w : World) : World :=
  {| db := <[id record := record]> (db w); pool := pool w;
     trace := trace w ++ [EvSave record]; clock_reads := clock_reads w |}.

(** The world with an event added to the trace. *)
Definition logged (ev : Event) (w : World) : World :=
  {| db := db w; pool := pool w; trace := trace w ++ [ev];
     clock_reads := clock_reads w |}.

(** The world after one failed attempt of the loop at index [attempt]: the
    POST, the increment and, except after the last index, the sleep. *)
Definition after_failed_attempt (env : Env) (st : Settings)
    (request_id callback_url : string) (callback_payload : CallbackPayload)
    (attempt : nat) (w : World) : World :=
  let w1 :=
    logged (EvPost callback_url callback_payload
                   (post_headers request_id attempt)) w in
  let error := failure_text (http_post env callback_url request_id attempt) in
  let w2 :=
    match db w1 !! request_id with
    | Some record => saved (incremented_record error record) w1
    | None => w1
    end in
  if Z.of_nat attempt <? callback_max_retries st then
    logged (EvSleep (backoff_delay (round64 env) st attempt
                       (random env request_id attempt))) w2
  else w2.

(** The world after [k] failed attempts in a row from index [attempt]. *)
Fixpoint after_failures (env : Env) (st : Settings)
    (request_id callback_url : string) (callback_payload : CallbackPayload)
    (k attempt : nat) (w : World) : World :=
  match k with
  | O => w
  | S k' =>
      after_failures env st request_id callback_url callback_payload k'
        (S attempt)
        (after_failed_attempt env st request_id callback_url callback_payload
           attempt w)
  end.

(** The [last_error] variable after [k] failed attempts from [attempt]. *)
Definition last_error_after (env : Env) (request_id callback_url : string)
    (k attempt : nat) (last_error : option string) : option string :=
  match k with
  | O => last_error
  | S k' =>
      Some (failure_text (http_post env callback_url request_id (attempt + k')))
  end.

(** [attempt_fails], decided. *)
Definition attempt_failsb (o : outcome exn Z) : bool :=
  match o with
  | Ok status_code => negb ((200 <=? status_code) && (status_code <? 300))
  | Raise (TimeoutException _) => true
  | Raise (RequestError _) => true
  | Raise _ => false
  end.

(** The number of attempts that fail in a row from index [attempt], among
    the [remaining] ones. *)
Fixpoint failing_prefix (env : Env) (request_id callback_url : string)
    (remaining attempt : nat) : nat :=
  match remaining with
  | O => O
  | S remaining' =>
      if attempt_failsb (http_post env callback_url request_id attempt)
      then S (failing_prefix env request_id callback_url remaining'
                (S attempt))
      else O
  end.

(** How the loop ends once no failed attempt is ahead: the indices are used
    up, or the POST at [attempt] is answered with success or raises. *)
Definition loop_end (env : Env) (request_id callback_url : string)
    (callback_payload : CallbackPayload) (remaining attempt : nat)
    (last_error : option string) (w : World) : outcome exn unit * World :=
  match remaining with
  | O =>
      _update_callback_status request_id false
        (Some ("Max retries exceeded: " ++ format_optional last_error)) w
  | S _ =>
      let w1 :=
        logged (EvPost callback_url callback_payload
                       (post_headers request_id attempt)) w in
      match http_post env callback_url request_id attempt with
      | Ok _ => (Ok (), snd (_update_callback_status request_id true None w1))
      | Raise e => (Raise e, w1)
      end
  end.

(** The sleep that follows a failed attempt at index [attempt]. *)
Definition sleep_slot (env : Env) (st : Settings) (request_id : string)
    (attempt : nat) : list Q :=
  if Z.of_nat attempt <? callback_max_retries st then
    [backoff_delay (round64 env) st attempt (random env request_id attempt)]
  else [].

(** The effect of the POST at index [attempt]. *)
Definition post_effect (request_id callback_url : string)
    (result : option WorkResult) (attempt : nat) : Effect :=
  FxPost callback_url request_id "success" result None
         (post_headers request_id attempt).

(** The effects of [k] failed attempts in a row from index [attempt]. *)
Fixpoint failure_effects (env : Env) (st : Settings)
    (request_id callback_url : string) (result : option WorkResult)
    (k attempt : nat) : list Effect :=
  match k with
  | O => []
  | S k' =>
      (post_effect request_id callback_url result attempt
       :: (FxSleep <$> sleep_slot env st request_id attempt))
      ++ failure_effects env st request_id callback_url result k' (S attempt)
  end.

(** How a delivery ends, read off the receiver's answers alone. *)
Definition deliver_outcome (env : Env) (st : Settings)
    (request_id callback_url : string) : outcome exn unit :=
  if negb (_is_safe_callback_url st (net env) callback_url) then Ok ()
  else
    let remaining := Z.to_nat (callback_max_retries st + 1) in
    let k := failing_prefix env request_id callback_url remaining 0 in
    match (remaining - k)%nat with
    | O => Ok ()
    | S _ =>
        match http_post env callback_url request_id k with
        | Ok _ => Ok ()
        | Raise e => Raise e
        end
    end.

(** The POSTs and sleeps of a delivery, read off the receiver's answers. *)
Definition deliver_effects (env : Env) (st : Settings)
    (request_id callback_url : string) (result : WorkResult) : list Effect :=
  if negb (_is_safe_callback_url st (net env) callback_url) then []
  else
    let remaining := Z.to_nat (callback_max_retries st + 1) in
    let k := failing_prefix env request_id callback_url remaining 0 in
    failure_effects env st request_id callback_url (Some result) k 0
    ++ match (remaining - k)%nat with
       | O => []
       | S _ => [post_effect request_id callback_url (Some result) k]
       end.

(** The result the executor returns for a job, when it returns. *)
Definition computed_result (env : Env) (request_id : string)
    (payload : AsyncWorkPayload) : WorkResult :=
  compute_work_sync (sha256 env) (fst (perf_counter env request_id))
    (snd (perf_counter env request_id)) request_id (work_payload_of payload).

(** How the processing of a job ends: an [Exception] is handled there. *)
Definition process_outcome (env : Env) (st : Settings) (request_id : string)
    (payload : AsyncWorkPayload) : outcome exn unit :=
  match run_in_executor env request_id (work_payload_of payload) with
  | Some e => if is_Exception e then Ok () else Raise e
  | None =>
      match deliver_outcome env st request_id (awp_callback_url payload) with
      | Ok _ => Ok ()
      | Raise e => if is_Exception e then Ok () else Raise e
      end
  end.

(** The executor call, the POSTs and the sleeps of the processing of a job. *)
Definition process_effects (env : Env) (st : Settings) (request_id : string)
    (payload : AsyncWorkPayload) : list Effect :=
  FxCompute request_id (work_payload_of payload)
  :: match run_in_executor env request_id (work_payload_of payload) with
     | Some _ => []
     | None =>
         deliver_effects env st request_id (awp_callback_url payload)
           (computed_result env request_id payload)
     end.

(** The records [_process_request] writes over the local [record]. *)
Definition pending_record (result : WorkResult) (now : Z)
    (record : RequestRecord) : RequestRecord :=
  set_completed_at (Some now)
    (set_result (Some result) (set_status CALLBACK_PENDING record)).

Definition failed_record (e : exn) (record : RequestRecord) : RequestRecord :=
  set_callback_last_error (Some (str e)) (set_status CALLBACK_FAILED record).

(** The record [async_endpoint] creates, and the one it writes when the
    queue refuses the job. *)
Definition new_record (env : Env) (request_id : string)
    (payload : AsyncWorkPayload) (now : Z) : RequestRecord :=
  {| id := request_id; mode := ASYNC; status := PENDING;
     payload_hash :=
       String.substring 0 16 (sha256 env (data (awp_work payload)));
     created_at := now; completed_at := None;
     callback_url := Some (awp_callback_url payload);
     callback_attempts := 0; callback_last_error := None; result := None |}.

Definition rejected_record (record : RequestRecord) : RequestRecord :=
  set_callback_last_error (Some "Server overloaded - queue full")
    (set_status CALLBACK_FAILED record).

(** The table holds each record under its own [id]. *)
Definition well_keyed (table : gmap string RequestRecord) : Prop :=
  ∀ k r, table !! k = Some r → id r = k.

End Observe.
Export Observe.

(** ** What a delivery and a job leave in the record *)

Module Summary.

(** The record after [k] failed attempts in a row from index [attempt]. *)
Definition failures_record (env : Env) (request_id callback_url : string)
    (k attempt : nat) (record : RequestRecord) : RequestRecord :=
  match k with
  | O => record
  | S k' =>
      set_callback_last_error
        (Some (failure_text
                 (http_post env callback_url request_id (attempt + k'))))
        (set_callback_attempts (callback_attempts record + Z.of_nat k) record)
  end.

(** The record a delivery leaves, given the record it finds. *)
Definition delivered_record (env : Env) (st : Settings)
    (request_id callback_url : string) (record : RequestRecord)
  : RequestRecord :=
  if negb (_is_safe_callback_url st (net env) callback_url) then
    updated_record false (Some "Callback URL blocked by security policy")
      record
  else
    let remaining := Z.to_nat (callback_max_retries st + 1) in
    let k := failing_prefix env request_id callback_url remaining 0 in
    let record_k := failures_record env request_id callback_url k 0 record in
    match (remaining - k)%nat with
    | O =>
        updated_record false
          (Some ("Max retries exceeded: "
                 ++ format_optional
                      (last_error_after env request_id callback_url k 0 None)))
          record_k
    | S _ =>
        match http_post env callback_url request_id k with
        | Ok _ => updated_record true None record_k
        | Raise _ => record_k
        end
    end.

(** The record the processing of a job leaves, given the record it finds
    and the clock reading taken when the computation returns. *)
Definition processed_record (env : Env) (st : Settings) (request_id : string)
    (payload : AsyncWorkPayload) (now : Z) (record : RequestRecord)
  : RequestRecord :=
  let r1 := set_status PROCESSING record in
  match run_in_executor env request_id (work_payload_of payload) with
  | Some e => if is_Exception e then failed_record e r1 else r1
  | None =>
      let r2 := pending_record (computed_result env request_id payload)
                  now r1 in
      match deliver_outcome env st request_id (awp_callback_url payload) with
      | Ok _ =>
          delivered_record env st request_id (awp_callback_url payload) r2
      | Raise e =>
          if is_Exception e then failed_record e r2
          else delivered_record env st request_id (awp_callback_url payload)
                 r2
      end
  end.

(** A status from which no further transition is made. *)
Definition terminal (s : RequestStatus) : Prop :=
  s = CALLBACK_SUCCESS ∨ s = CALLBACK_FAILED.

(** No cancellation reaches the coroutine from the executor or the client. *)
Definition never_cancelled (env : Env) : Prop :=
  (∀ request_id payload,
     run_in_executor env request_id payload ≠ Some CancelledError)
  ∧ (∀ url request_id attempt,
       http_post env url request_id attempt ≠ Raise CancelledError).

(** The POSTs among the effects, oldest first. *)
Fixpoint post_effects (fx : list Effect) : list Effect :=
  match fx with
  | [] => []
  | FxPost url request_id status result error headers :: fx' =>
      FxPost url request_id status result error headers :: post_effects fx'
  | _ :: fx' => post_effects fx'
  end.

(** The record [sync_endpoint] creates at time [now]. *)
Definition sync_record (env : Env) (request_id : string)
    (payload : WorkPayload) (now : Z) : RequestRecord :=
  {| id := request_id; mode := SYNC; status := PROCESSING;
     payload_hash := String.substring 0 16 (sha256 env (data payload));
     created_at := now; completed_at := None; callback_url := None;
     callback_attempts := 0; callback_last_error := None; result := None |}.

(** The delays among the effects, oldest first. *)
Fixpoint sleep_effects (fx : list Effect) : list Q :=
  match fx with
  | [] => []
  | FxSleep d :: fx' => d :: sleep_effects fx'
  | _ :: fx' => sleep_effects fx'
  end.

(** The sum of a list of delays. *)
Definition total_delay (ds : list Q) : Q := foldr Qplus 0%Q ds.

(** Jobs offered to the pool one after the other, nothing being taken out:
    the answers of [enqueue], in order, and the pool left. *)
Fixpoint enqueue_all (p : Pool) (jobs : list (string * AsyncWorkPayload))
  : list bool * Pool :=
  match jobs with
  | [] => ([], p)
  | (request_id, payload) :: jobs' =>
      let '(ok, p') := enqueue_pool p request_id payload in
      let '(oks, p'') := enqueue_all p' jobs' in
      (ok :: oks, p'')
  end.

End Summary.
Export Summary.

(** ** A concrete environment, for running the model *)

Module Sample.

Definition public_ip : IPAddress :=
  {| is_private := false; is_loopback := false; is_link_local := false;
     is_reserved := false; is_multicast := false |}.

Definition private_ip : IPAddress :=
  {| is_private := true; is_loopback := false; is_link_local := false;
     is_reserved := false; is_multicast := false |}.

Definition good_url : string := "http://example.com/callback".
Definition loopback_url : string := "http://127.0.0.1:9000/callback".
Definition named_url : string := "https://LocalHost/callback".
Definition intranet_url : string := "http://intranet.corp/hook".
Definition unknown_url : string := "http://no-such-host.invalid/".
Definition ftp_url : string := "ftp://example.com/callback".
Definition broken_url : string := "http://[::1/callback".

(** A table standing for [urlparse]: scheme and host of the URLs above; the
    last one has an unclosed bracket, for which [urlparse] raises. *)
Definition sample_urlparse (url : string) : option ParseResult :=
  if String.eqb url good_url then
    Some {| scheme := "http"; hostname := Some "example.com" |}
  else if String.eqb url loopback_url then
    Some {| scheme := "http"; hostname := Some "127.0.0.1" |}
  else if String.eqb url named_url then
    Some {| scheme := "https"; hostname := Some "localhost" |}
  else if String.eqb url intranet_url then
    Some {| scheme := "http"; hostname := Some "intranet.corp" |}
  else if String.eqb url unknown_url then
    Some {| scheme := "http"; hostname := Some "no-such-host.invalid" |}
  else if String.eqb url ftp_url then
    Some {| scheme := "ftp"; hostname := Some "example.com" |}
  else None.

Definition sample_resolver : Resolver :=
  {| gethostbyname := λ h,
       if String.eqb h "example.com" then Ok "93.184.216.34"
       else if String.eqb h "intranet.corp" then Ok "10.1.2.3"
       else if String.eqb h "127.0.0.1" then Ok "127.0.0.1"
       else Raise gaierror;
     ip_address := λ s,
       if String.eqb s "93.184.216.34" then Some public_ip
       else if String.eqb s "10.1.2.3" then Some private_ip
       else if String.eqb s "127.0.0.1" then
         Some {| is_private := true; is_loopback := true;
                 is_link_local := false; is_reserved := false;
                 is_multicast := false |}
       else None |}.

Definition sample_net : Net :=
  {| urlparse := sample_urlparse; resolver := sample_resolver |}.

(** An environment with a given receiver and a given executor fault; the
    hash is a stand-in that wraps its argument, and the rounding is the
    identity: the delays the samples compute (0.5, 0.75, 1, 1.5, 2, 3) are
    floats. *)
Definition sample_env (post : nat → outcome exn Z) (fault : option exn)
    (draw : Q) : Env :=
  {| net := sample_net;
     sha256 := λ s, "sha256(" ++ s ++ ")";
     perf_counter := λ _, (0%Q, (1 # 1000)%Q);
     run_in_executor := λ _ _, fault;
     http_post := λ _ _ k, post k;
     random := λ _ _, draw;
     round64 := λ q, q;
     utcnow := λ n, 1700000000 + Z.of_nat n |}.

Definition always (code : Z) (k : nat) : outcome exn Z := Ok code.

(** Rounding to the nearest integer, a tie going to the even one. *)
Definition round_half_even (q : Q) : Z :=
  let f := Qfloor q in
  match (q - inject_Z f ?= 1 # 2)%Q with
  | Lt => f
  | Gt => f + 1
  | Eq => if Z.even f then f else f + 1
  end.

(** The rounding of binary64 between 1 and 2, where the floats are the
    multiples of [2^-52]. *)
Definition round_to_ulp (q : Q) : Q :=
  (inject_Z (round_half_even (q * inject_Z (2 ^ 52))) / inject_Z (2 ^ 52))%Q.

(** An environment whose receiver always answers 500, whose floats round as
    binary64 does between 1 and 2, and whose every draw is the largest
    value of [random.random()], [1 - 2^-53]. *)
Definition rounding_env : Env :=
  {| net := sample_net;
     sha256 := λ s, "sha256(" ++ s ++ ")";
     perf_counter := λ _, (0%Q, (1 # 1000)%Q);
     run_in_executor := λ _ _, None;
     http_post := λ _ _ k, always 500 k;
     random := λ _ _, (1 - (1 # 2 ^ 53))%Q;
     round64 := round_to_ulp;
     utcnow := λ n, 1700000000 + Z.of_nat n |}.

(** A receiver that answers 500 three times, then 200. *)
Definition flaky (k : nat) : outcome exn Z :=
  if (k <? 3)%nat then Ok 500 else Ok 200.

(** A receiver whose second POST fails inside the client with an exception
    that is not an [httpx] one. *)
Definition crashing (k : nat) : outcome exn Z :=
  if (k <? 1)%nat then Ok 503 else Raise (PyException "client closed").

Definition sample_job (url : string) : AsyncWorkPayload :=
  {| awp_work := {| data := "x"; iterations := 3 |};
     awp_callback_url := url |}.

Definition sample_record (request_id url : string) : RequestRecord :=
  {| id := request_id; mode := ASYNC; status := PENDING;
     payload_hash := "2d711642b726b044"; created_at := 1700000000;
     completed_at := None; callback_url := Some url;
     callback_attempts := 0; callback_last_error := None;
     result := None |}.

Definition sample_result : WorkResult :=
  {| wr_request_id := "req-1"; input_hash := "a"; output_hash := "b";
     wr_iterations := 3; processing_time_ms := 1 |}.

(** A started pool with an empty queue of the given capacity. *)
Definition pool_of (capacity : Z) : Pool :=
  {| queue := AsyncioQueue.new capacity; running := true;
     _active_workers := 0 |}.

(** A world whose table holds the record of ["req-1"]. *)
Definition world_with (url : string) : World :=
  {| db := {[ "req-1" := sample_record "req-1" url ]};
     pool := pool_of 10000; trace := []; clock_reads := 0 |}.

(** A world whose table is empty. *)
Definition empty_world : World :=
  {| db := ∅; pool := pool_of 10000; trace := []; clock_reads := 0 |}.

(** A world whose queue, of capacity one, holds one job. *)
Definition full_world : World :=
  {| db := {[ "req-1" := sample_record "req-1" good_url ]};
     pool := snd (enqueue_pool (pool_of 1) "req-1" (sample_job good_url));
     trace := []; clock_reads := 0 |}.

(** A world whose queue holds the job of ["req-1"]. *)
Definition queued_world (url : string) : World :=
  {| db := {[ "req-1" := sample_record "req-1" url ]};
     pool := snd (enqueue_pool (pool_of 10000) "req-1" (sample_job url));
     trace := []; clock_reads := 0 |}.

End Sample.

(** * Properties *)

Local Open Scope list_scope.

(** ** The SSRF validator *)

Lemma lower_localhost_variant (c : string) :
  c ∈ LOCALHOST_VARIANTS → lower c = c.
Proof.
  unfold LOCALHOST_VARIANTS. intros Hc.
  repeat (apply elem_of_cons in Hc as [-> | Hc]; [reflexivity |]).
  by apply elem_of_nil in Hc.
Qed.

Lemma names_localhost_lower (h : string) :
  names_localhost h ↔ lower h ∈ LOCALHOST_VARIANTS.
Proof.
  split.
  - intros (c & Hc & Heq). unfold case_insensitive_eq in Heq.
    rewrite Heq, (lower_localhost_variant c Hc). exact Hc.
  - intros Hin. exists (lower h). split; [exact Hin |].
    unfold case_insensitive_eq.
    by rewrite (lower_localhost_variant (lower h) Hin).
Qed.

Lemma is_private_ip_internal (rs : Resolver) (h ip_str : string)
    (ip : IPAddress) :
  gethostbyname rs h = Ok ip_str → ip_address rs ip_str = Some ip →
  internal_address ip → is_private_ip rs h = Ok true.
Proof.
  intros Hres Hip Hint. unfold is_private_ip. rewrite Hres, Hip.
  f_equal. destruct Hint as [H | [H | [H | [H | H]]]]; rewrite H;
    rewrite ?orb_true_r; reflexivity.
Qed.

Lemma is_private_ip_public (rs : Resolver) (h ip_str : string)
    (ip : IPAddress) :
  gethostbyname rs h = Ok ip_str → ip_address rs ip_str = Some ip →
  public_address ip → is_private_ip rs h = Ok false.
Proof.
  intros Hres Hip (H1 & H2 & H3 & H4 & H5). unfold is_private_ip.
  by rewrite Hres, Hip, H1, H2, H3, H4, H5.
Qed.

Lemma is_private_ip_unresolved (rs : Resolver) (h : string) :
  (∃ e, gethostbyname rs h = Raise e)
  ∨ (∃ ip_str, gethostbyname rs h = Ok ip_str ∧ ip_address rs ip_str = None) →
  is_private_ip rs h ≠ Ok false.
Proof.
  unfold is_private_ip. intros [[e He] | (s & Hs & Hnone)].
  - rewrite He. by destruct e.
  - by rewrite Hs, Hnone.
Qed.

(** C1. The validator returns false when the URL does not parse, when its
    scheme is not in the allow-list, and, with private-IP blocking enabled,
    when the host name is one of the localhost names in any letter case,
    when it resolves to a private, loopback, link-local, reserved or
    multicast address, and when it does not resolve. It returns true for an
    allowed scheme and a host, not one of the localhost names, that
    resolves to a public address. *)
Theorem is_safe_callback_url_spec (st : Settings) (net : Net) (url : string) :
  (urlparse net url = None → _is_safe_callback_url st net url = false)
  ∧ (∀ parsed, urlparse net url = Some parsed →
       let host := default "" (hostname parsed) in
       (scheme parsed ∉ callback_allowed_schemes st →
          _is_safe_callback_url st net url = false)
       ∧ (callback_block_private_ips st = true →
            (names_localhost host → _is_safe_callback_url st net url = false)
            ∧ (∀ ip, resolves_to net host ip → internal_address ip →
                 _is_safe_callback_url st net url = false)
            ∧ (resolution_fails net host →
                 _is_safe_callback_url st net url = false))
       ∧ (scheme parsed ∈ callback_allowed_schemes st →
          (callback_block_private_ips st = true → ¬ names_localhost host) →
          ∀ ip, resolves_to net host ip → public_address ip →
            _is_safe_callback_url st net url = true)).
Proof.
  split.
  { intros Hparse. unfold _is_safe_callback_url. by rewrite Hparse. }
  intros parsed Hparse host. unfold _is_safe_callback_url. rewrite Hparse.
  fold host. split; [| split].
  - intros Hscheme. by rewrite bool_decide_eq_false_2.
  - intros Hblock. rewrite Hblock.
    destruct (bool_decide (scheme parsed ∈ callback_allowed_schemes st));
      simpl; [| done].
    split; [| split].
    + intros Hname. apply names_localhost_lower in Hname.
      by rewrite bool_decide_eq_true_2.
    + intros ip (ip_str & Hres & Hip) Hint.
      destruct (bool_decide (lower host ∈ LOCALHOST_VARIANTS)); [done |].
      by rewrite (is_private_ip_internal _ _ _ _ Hres Hip Hint).
    + intros Hfail.
      destruct (bool_decide (lower host ∈ LOCALHOST_VARIANTS)); [done |].
      pose proof (is_private_ip_unresolved _ _ Hfail) as Hne.
      destruct (is_private_ip (resolver net) host) as [[] |]; congruence.
  - intros Hscheme Hname ip (ip_str & Hres & Hip) Hpub.
    rewrite bool_decide_eq_true_2 by exact Hscheme. simpl.
    destruct (callback_block_private_ips st) eqn:Hblock; [| done].
    rewrite bool_decide_eq_false_2.
    + by rewrite (is_private_ip_public _ _ _ _ Hres Hip Hpub).
    + intros Hin. apply (Hname eq_refl). by apply names_localhost_lower.
Qed.

Import Sample.

Lemma is_safe_callback_url_spec_witness :
  _is_safe_callback_url settings sample_net broken_url = false
  ∧ _is_safe_callback_url settings sample_net ftp_url = false
  ∧ _is_safe_callback_url settings sample_net named_url = false
  ∧ _is_safe_callback_url settings sample_net intranet_url = false
  ∧ _is_safe_callback_url settings sample_net unknown_url = false
  ∧ _is_safe_callback_url settings sample_net good_url = true.
Proof.
  refine (conj _ (conj _ (conj _ (conj _ (conj _ _))))).
  - apply (is_safe_callback_url_spec settings sample_net broken_url).
    reflexivity.
  - destruct (is_safe_callback_url_spec settings sample_net ftp_url)
      as [_ H].
    destruct (H {| scheme := "ftp"; hostname := Some "example.com" |}
                eq_refl) as (Hscheme & _ & _).
    apply Hscheme. apply (bool_decide_eq_false_1 _). vm_compute. reflexivity.
  - destruct (is_safe_callback_url_spec settings sample_net named_url)
      as [_ H].
    destruct (H {| scheme := "https"; hostname := Some "localhost" |}
                eq_refl) as (_ & Hblock & _).
    destruct (Hblock eq_refl) as (Hname & _ & _).
    apply Hname. exists "localhost". split.
    + apply (bool_decide_eq_true_1 _). vm_compute. reflexivity.
    + reflexivity.
  - destruct (is_safe_callback_url_spec settings sample_net intranet_url)
      as [_ H].
    destruct (H {| scheme := "http"; hostname := Some "intranet.corp" |}
                eq_refl) as (_ & Hblock & _).
    destruct (Hblock eq_refl) as (_ & Hint & _).
    apply (Hint private_ip).
    + exists "10.1.2.3". split; reflexivity.
    + left. reflexivity.
  - destruct (is_safe_callback_url_spec settings sample_net unknown_url)
      as [_ H].
    destruct (H {| scheme := "http";
                   hostname := Some "no-such-host.invalid" |}
                eq_refl) as (_ & Hblock & _).
    destruct (Hblock eq_refl) as (_ & _ & Hfail).
    apply Hfail. left. exists gaierror. reflexivity.
  - destruct (is_safe_callback_url_spec settings sample_net good_url)
      as [_ H].
    destruct (H {| scheme := "http"; hostname := Some "example.com" |}
                eq_refl) as (_ & _ & Hpub).
    apply (Hpub ltac:(apply (bool_decide_eq_true_1 _); vm_compute; reflexivity))
      with (ip := public_ip).
    + intros _ Hname. apply names_localhost_lower in Hname.
      revert Hname. apply (bool_decide_eq_false_1 _). vm_compute. reflexivity.
    + exists "93.184.216.34". split; reflexivity.
    + unfold public_address. simpl. auto.
Defined.

(** ** The job queue *)

Lemma drain_n_queue {A} (items : list A) (maxsize unfinished : Z) :
  drain_n (length items)
    {| maxsize := maxsize; _queue := items; _unfinished_tasks := unfinished |}
  = items.
Proof.
  induction items as [| item items IH]; simpl; [reflexivity |].
  by rewrite IH.
Qed.

Lemma drain_queue {A} (q : Queue A) : drain q = _queue q.
Proof. destruct q as [m items u]. apply drain_n_queue. Qed.

Lemma full_iff {A} (q : Queue A) :
  0 < maxsize q → full q = true ↔ maxsize q ≤ qsize q.
Proof.
  intros Hpos. unfold full.
  destruct (Z.leb_spec (maxsize q) 0) as [? | _]; [lia |].
  apply Z.leb_le.
Qed.

(** C7. On a queue of capacity at least one that holds capacity items,
    [enqueue] returns false and leaves the world, the queue in it, as it
    was; below capacity it returns true and appends the job, so that the
    queue hands out its former jobs first and the new job last. *)
Theorem enqueue_backpressure (w : World) (request_id : string)
    (payload : AsyncWorkPayload) :
  let q := queue (pool w) in
  0 < maxsize q →
  (maxsize q ≤ qsize q → enqueue request_id payload w = (Ok false, w))
  ∧ (qsize q < maxsize q →
       ∃ w', enqueue request_id payload w = (Ok true, w')
             ∧ _queue (queue (pool w')) = _queue q ++ [(request_id, payload)]
             ∧ drain (queue (pool w')) = drain q ++ [(request_id, payload)]
             ∧ maxsize (queue (pool w')) = maxsize q
             ∧ db w' = db w ∧ trace w' = trace w).
Proof.
  intros q Hpos. split.
  - intros Hfull. apply (full_iff q Hpos) in Hfull.
    unfold enqueue, bind, get_pool, enqueue_pool, put_nowait. fold q.
    rewrite Hfull. simpl. by destruct w.
  - intros Hroom.
    assert (full q = false) as Hnot.
    { destruct (full q) eqn:E; [| done]. apply (full_iff q Hpos) in E. lia. }
    unfold enqueue, bind, get_pool, enqueue_pool, put_nowait. fold q.
    rewrite Hnot. simpl. eexists. split; [reflexivity |]. simpl.
    rewrite !drain_queue. simpl. done.
Qed.

Lemma enqueue_backpressure_witness :
  enqueue "req-2" (sample_job good_url) full_world = (Ok false, full_world)
  ∧ ∃ w', enqueue "req-2" (sample_job good_url) (world_with good_url)
          = (Ok true, w')
          ∧ drain (queue (pool w')) = [("req-2", sample_job good_url)].
Proof.
  split.
  - apply (enqueue_backpressure full_world "req-2" (sample_job good_url));
      vm_compute; done.
  - destruct (enqueue_backpressure (world_with good_url) "req-2"
                (sample_job good_url) ltac:(vm_compute; done)) as [_ Hroom].
    destruct (Hroom ltac:(vm_compute; done))
      as (w' & Hrun & _ & Hdrain & _).
    exists w'. split; [exact Hrun | exact Hdrain].
Defined.

(** ** The work computation *)

(** C9. The hashes of a work result depend on the payload only: two
    computations on the same payload, for any two request ids and any clock
    readings, give the same [input_hash] and the same [output_hash]; so do
    two runs of the asynchronous wrapper that return. *)
Theorem compute_work_deterministic (env : Env) (payload : WorkPayload)
    (rid1 rid2 : string) :
  (∀ t0 t1 t0' t1',
     let r1 := compute_work_sync (sha256 env) t0 t1 rid1 payload in
     let r2 := compute_work_sync (sha256 env) t0' t1' rid2 payload in
     input_hash r1 = input_hash r2 ∧ output_hash r1 = output_hash r2)
  ∧ (∀ w1 w2 r1 r2 w1' w2',
       compute_work_async env rid1 payload w1 = (Ok r1, w1') →
       compute_work_async env rid2 payload w2 = (Ok r2, w2') →
       input_hash r1 = input_hash r2 ∧ output_hash r1 = output_hash r2).
Proof.
  split; [by intros |].
  intros w1 w2 r1 r2 w1' w2'.
  unfold compute_work_async, bind, emit, raise, ret.
  destruct (run_in_executor env rid1 payload); [discriminate |].
  destruct (run_in_executor env rid2 payload); [discriminate |].
  destruct (perf_counter env rid1) as [a1 b1].
  destruct (perf_counter env rid2) as [a2 b2].
  intros [= <- _] [= <- _]. by split.
Qed.

Lemma compute_work_deterministic_witness :
  let env := sample_env (always 200) None 0 in
  let p := {| data := "x"; iterations := 3 |} in
  let r1 := compute_work_sync (sha256 env) 0 (1 # 1000) "req-1" p in
  let r2 := compute_work_sync (sha256 env) 0 (1 # 1000) "req-2" p in
  wr_request_id r1 ≠ wr_request_id r2
  ∧ input_hash r1 = input_hash r2 ∧ output_hash r1 = output_hash r2.
Proof.
  intros env p r1 r2. split; [discriminate |].
  exact (proj2 (compute_work_deterministic env p "req-1" "req-2")
           empty_world empty_world r1 r2
           (snd (compute_work_async env "req-1" p empty_world))
           (snd (compute_work_async env "req-2" p empty_world))
           eq_refl eq_refl).
Defined.

(** ** The status updates of the dispatcher *)

Ltac run :=
  unfold bind, ret, raise, emit, get_request, save_request, get_pool,
    set_pool, datetime_utcnow, try_except, try_finally; simpl.

Lemma update_callback_status_some (request_id : string) (success : bool)
    (error : option string) (w : World) (record : RequestRecord) :
  db w !! request_id = Some record →
  _update_callback_status request_id success error w
  = (Ok (), saved (updated_record success error record) w).
Proof.
  intros Hget. unfold _update_callback_status. run. rewrite Hget.
  unfold updated_record, saved. by destruct (truthy error).
Qed.

Lemma update_callback_status_none (request_id : string) (success : bool)
    (error : option string) (w : World) :
  db w !! request_id = None →
  _update_callback_status request_id success error w = (Ok (), w).
Proof.
  intros Hget. unfold _update_callback_status. run. by rewrite Hget.
Qed.

Lemma increment_callback_attempt_some (request_id error : string) (w : World)
    (record : RequestRecord) :
  db w !! request_id = Some record →
  _increment_callback_attempt request_id error w
  = (Ok (), saved (incremented_record error record) w).
Proof.
  intros Hget. unfold _increment_callback_attempt. run. by rewrite Hget.
Qed.

Lemma increment_callback_attempt_none (request_id error : string) (w : World) :
  db w !! request_id = None →
  _increment_callback_attempt request_id error w = (Ok (), w).
Proof.
  intros Hget. unfold _increment_callback_attempt. run. by rewrite Hget.
Qed.

Lemma http_attempts_app (t1 t2 : list Event) :
  http_attempts (t1 ++ t2) = (http_attempts t1 + http_attempts t2)%nat.
Proof. unfold http_attempts. by rewrite filter_app, length_app. Qed.

Lemma sleeps_app (t1 t2 : list Event) : sleeps (t1 ++ t2) = sleeps t1 ++ sleeps t2.
Proof.
  induction t1 as [| ev t1 IH]; simpl; [reflexivity |].
  destruct ev; simpl; by rewrite IH.
Qed.

Lemma saves_app (t1 t2 : list Event) : saves (t1 ++ t2) = saves t1 ++ saves t2.
Proof.
  induction t1 as [| ev t1 IH]; simpl; [reflexivity |].
  destruct ev; simpl; by rewrite IH.
Qed.

Lemma effects_app (t1 t2 : list Event) :
  effects (t1 ++ t2) = effects t1 ++ effects t2.
Proof.
  induction t1 as [| ev t1 IH]; simpl; [reflexivity |].
  destruct ev; simpl; by rewrite IH.
Qed.

Lemma events_since_app (w w' : World) (evs : list Event) :
  trace w' = trace w ++ evs → events_since w w' = evs.
Proof. intros H. unfold events_since. rewrite H. apply drop_app_length. Qed.

(** C2. A delivery to a URL the validator rejects returns at once: it issues
    no HTTP request and sleeps for no retry; when the request has a record,
    the only effect is one write of that record with status
    [CALLBACK_FAILED], the fixed error "Callback URL blocked by security
    policy" and [callback_attempts] as it was. *)
Theorem deliver_callback_blocked (env : Env) (st : Settings)
    (request_id callback_url : string) (result : WorkResult) (w : World) :
  _is_safe_callback_url st (net env) callback_url = false →
  ∃ w', _deliver_callback env st request_id callback_url result w = (Ok (), w')
        ∧ http_attempts (events_since w w') = 0%nat
        ∧ sleeps (events_since w w') = []
        ∧ ∀ record, db w !! request_id = Some record →
            id record = request_id →
            ∃ record',
              db w' !! request_id = Some record'
              ∧ events_since w w' = [EvSave record']
              ∧ status record' = CALLBACK_FAILED
              ∧ callback_last_error record'
                = Some "Callback URL blocked by security policy"
              ∧ callback_attempts record' = callback_attempts record.
Proof.
  intros Hunsafe. unfold _deliver_callback. rewrite Hunsafe. simpl.
  destruct (db w !! request_id) as [record |] eqn:Hget.
  - rewrite (update_callback_status_some _ _ _ _ _ Hget).
    set (record' := updated_record false _ record).
    exists (saved record' w). split; [reflexivity |].
    rewrite (events_since_app w (saved record' w) [EvSave record'] eq_refl).
    split; [reflexivity |]. split; [reflexivity |].
    intros record0 [= <-] Hid. exists record'.
    split; [| split; [reflexivity |]].
    + simpl. change (id record') with (id record). rewrite Hid.
      apply lookup_insert_eq.
    + done.
  - rewrite (update_callback_status_none _ _ _ _ Hget).
    exists w. split; [reflexivity |].
    rewrite (events_since_app w w [] (eq_sym (app_nil_r _))).
    split; [reflexivity |]. split; [reflexivity |]. intros ? [=].
Qed.

Lemma deliver_callback_blocked_witness :
  ∃ w' record',
    _deliver_callback (sample_env (always 200) None 0) settings "req-1"
      loopback_url sample_result (world_with loopback_url) = (Ok (), w')
    ∧ http_attempts (events_since (world_with loopback_url) w') = 0%nat
    ∧ db w' !! "req-1" = Some record'
    ∧ status record' = CALLBACK_FAILED
    ∧ callback_attempts record' = 0.
Proof.
  destruct (deliver_callback_blocked (sample_env (always 200) None 0) settings
              "req-1" loopback_url sample_result (world_with loopback_url)
              ltac:(vm_compute; reflexivity))
    as (w' & Hrun & Hposts & _ & Hrecord).
  destruct (Hrecord (sample_record "req-1" loopback_url)
              ltac:(vm_compute; reflexivity) ltac:(reflexivity))
    as (record' & Hget & _ & Hstatus & _ & Hattempts).
  exists w', record'.
  exact (conj Hrun (conj Hposts (conj Hget (conj Hstatus Hattempts)))).
Defined.

(** ** The retry loop *)

Section RetryLoop.
Context (env : Env) (st : Settings) (request_id callback_url : string)
        (callback_payload : CallbackPayload).

Abbreviation post_event attempt :=
  (EvPost callback_url callback_payload (post_headers request_id attempt)).
Abbreviation outcome_at attempt :=
  (http_post env callback_url request_id attempt).

Lemma attempt_delivery_fails (attempt : nat) (w : World) :
  attempt_fails (outcome_at attempt) →
  attempt_delivery env request_id callback_url callback_payload attempt w
  = (Ok (Some (failure_text (outcome_at attempt))),
     logged (post_event attempt) w).
Proof.
  unfold attempt_delivery, http_client_post. run.
  destruct (http_post env callback_url request_id attempt)
    as [status_code | e]; simpl.
  - intros Hfail.
    destruct ((200 <=? status_code) && (status_code <? 300)) eqn:Hok;
      [| reflexivity].
    apply andb_true_iff in Hok as [H1 H2]. lia.
  - by destruct e.
Qed.

Lemma attempt_delivery_succeeds (attempt : nat) (w : World)
    (status_code : Z) :
  outcome_at attempt = Ok status_code → 200 ≤ status_code < 300 →
  attempt_delivery env request_id callback_url callback_payload attempt w
  = (Ok None,
     snd (_update_callback_status request_id true None
            (logged (post_event attempt) w))).
Proof.
  unfold attempt_delivery, http_client_post. run.
  intros -> Hcode. simpl.
  replace ((200 <=? status_code) && (status_code <? 300)) with true
    by (symmetry; apply andb_true_iff;
        split; [apply Z.leb_le | apply Z.ltb_lt]; lia).
  fold (logged (post_event attempt) w).
  destruct (db (logged (post_event attempt) w) !! request_id) eqn:Hget.
  - by rewrite (update_callback_status_some _ _ _ _ _ Hget).
  - by rewrite (update_callback_status_none _ _ _ _ Hget).
Qed.

Lemma attempt_delivery_raises (attempt : nat) (w : World) (e : exn) :
  attempt_raises (outcome_at attempt) e →
  attempt_delivery env request_id callback_url callback_payload attempt w
  = (Raise e, logged (post_event attempt) w).
Proof.
  unfold attempt_delivery, http_client_post. run.
  intros [-> Hkind]. simpl. by destruct e.
Qed.

(** One failed attempt takes the loop to its next index. *)
Lemma retry_loop_step (remaining attempt : nat) (last_error : option string)
    (w : World) :
  attempt_fails (outcome_at attempt) →
  retry_loop env st request_id callback_url callback_payload
    (S remaining) attempt last_error w
  = retry_loop env st request_id callback_url callback_payload
      remaining (S attempt) (Some (failure_text (outcome_at attempt)))
      (after_failed_attempt env st request_id callback_url callback_payload
         attempt w).
Proof.
  intros Hfail. simpl. unfold bind at 1.
  rewrite (attempt_delivery_fails _ _ Hfail).
  unfold after_failed_attempt.
  set (w1 := logged (post_event attempt) w).
  unfold bind at 1.
  destruct (db w1 !! request_id) as [record |] eqn:Hget.
  - rewrite (increment_callback_attempt_some _ _ _ _ Hget).
    unfold bind at 1.
    by destruct (Z.of_nat attempt <? callback_max_retries st).
  - rewrite (increment_callback_attempt_none _ _ _ Hget).
    unfold bind at 1.
    by destruct (Z.of_nat attempt <? callback_max_retries st).
Qed.

Abbreviation last_error_after k attempt last_error :=
  (last_error_after env request_id callback_url k attempt last_error).

Lemma retry_loop_failures (k : nat) :
  ∀ (remaining attempt : nat) (last_error : option string) (w : World),
    (∀ j, (j < k)%nat → attempt_fails (outcome_at (attempt + j))) →
    retry_loop env st request_id callback_url callback_payload
      (k + remaining) attempt last_error w
    = retry_loop env st request_id callback_url callback_payload
        remaining (attempt + k) (last_error_after k attempt last_error)
        (after_failures env st request_id callback_url callback_payload
           k attempt w).
Proof.
  induction k as [| k IH]; intros remaining attempt last_error w Hfail.
  - simpl. by rewrite Nat.add_0_r.
  - change (S k + remaining)%nat with (S (k + remaining)).
    rewrite retry_loop_step
      by (specialize (Hfail 0%nat ltac:(lia));
          by rewrite Nat.add_0_r in Hfail).
    rewrite IH.
    + simpl after_failures.
      replace (S attempt + k)%nat with (attempt + S k)%nat by lia.
      f_equal. destruct k as [| k']; simpl.
      * by rewrite Nat.add_0_r.
      * by replace (S (attempt + k'))%nat with (attempt + S k')%nat by lia.
    + intros j Hj. specialize (Hfail (S j) ltac:(lia)).
      by replace (S attempt + j)%nat with (attempt + S j)%nat by lia.
Qed.

(** What [k] failed attempts from index [attempt] leave behind: [k] POSTs
    and, for a request with a record, [k] increments. *)
Lemma after_failures_trace (k : nat) :
  ∀ (attempt : nat) (w : World),
    let w' := after_failures env st request_id callback_url
                callback_payload k attempt w in
    pool w' = pool w ∧ clock_reads w' = clock_reads w
    ∧ ∃ evs, trace w' = trace w ++ evs ∧ http_attempts evs = k.
Proof.
  induction k as [| k IH]; intros attempt w; simpl.
  - repeat split. exists []. by rewrite app_nil_r.
  - destruct (IH (S attempt)
                (after_failed_attempt env st request_id callback_url
                   callback_payload attempt w))
      as (Hpool & Hclock & evs & Htrace & Hcount).
    rewrite Hpool, Hclock, Htrace. clear Hpool Hclock Htrace IH.
    unfold after_failed_attempt.
    set (w1 := logged (post_event attempt) w).
    destruct (db w1 !! request_id) as [record |];
      destruct (Z.of_nat attempt <? callback_max_retries st); simpl;
      (repeat split; eexists; split;
       [rewrite <- !app_assoc; reflexivity
       | rewrite ?http_attempts_app, Hcount; reflexivity]).
Qed.

Lemma after_failures_db_some (k : nat) :
  ∀ (attempt : nat) (w : World) (record : RequestRecord),
    db w !! request_id = Some record → id record = request_id →
    ∃ record',
      db (after_failures env st request_id callback_url callback_payload
            k attempt w) !! request_id = Some record'
      ∧ id record' = request_id
      ∧ status record' = status record
      ∧ callback_attempts record' = callback_attempts record + Z.of_nat k.
Proof.
  induction k as [| k IH]; intros attempt w record Hget Hid; simpl.
  - exists record. repeat split; [done.. | lia].
  - set (w1 := after_failed_attempt env st request_id callback_url
                 callback_payload attempt w).
    set (record1 := incremented_record
                      (failure_text (outcome_at attempt)) record).
    assert (db w1 !! request_id = Some record1) as Hget1.
    { unfold w1, after_failed_attempt. simpl. rewrite Hget.
      destruct (Z.of_nat attempt <? callback_max_retries st); simpl;
        change (id (incremented_record _ record)) with (id record);
        rewrite Hid; apply lookup_insert_eq. }
    destruct (IH (S attempt) w1 record1 Hget1 Hid)
      as (record' & Hget' & Hid' & Hstatus & Hattempts).
    exists record'. repeat split; [done.. |].
    rewrite Hattempts. unfold record1. simpl. lia.
Qed.

Lemma after_failures_db_none (k : nat) :
  ∀ (attempt : nat) (w : World),
    db w !! request_id = None →
    db (after_failures env st request_id callback_url callback_payload
          k attempt w) = db w.
Proof.
  induction k as [| k IH]; intros attempt w Hget; simpl; [reflexivity |].
  assert (db (after_failed_attempt env st request_id callback_url
                callback_payload attempt w) = db w) as Hsame.
  { unfold after_failed_attempt. simpl. rewrite Hget.
    by destruct (Z.of_nat attempt <? callback_max_retries st). }
  rewrite IH; [exact Hsame | by rewrite Hsame].
Qed.

End RetryLoop.

(** [_deliver_callback] on a URL the validator accepts: the payload is
    stamped with the next clock reading and the loop starts at index 0. *)
Lemma deliver_callback_safe (env : Env) (st : Settings)
    (request_id callback_url : string) (result : WorkResult) (w : World) :
  _is_safe_callback_url st (net env) callback_url = true →
  _deliver_callback env st request_id callback_url result w
  = retry_loop env st request_id callback_url
      {| cp_request_id := request_id; cp_status := "success";
         cp_result := Some result; cp_error := None;
         cp_timestamp := utcnow env (clock_reads w) |}
      (Z.to_nat (callback_max_retries st + 1)) 0%nat None
      {| db := db w; pool := pool w; trace := trace w;
         clock_reads := S (clock_reads w) |}.
Proof. intros Hsafe. unfold _deliver_callback. by rewrite Hsafe. Qed.

(** C3. When the URL is accepted, the retry count lies between 0 and 1024
    and every attempt fails, the delivery issues exactly
    [callback_max_retries + 1] HTTP requests, increments [callback_attempts]
    of the request's record by as many, and leaves the record with status
    [CALLBACK_FAILED] and the error "Max retries exceeded: " followed by the
    text of the last failure. The upper bound is the range in which the
    source computes every delay: with a larger retry count the conversion
    of [2 ** 1024] to a float raises [OverflowError] after the attempt of
    index 1024, and the delivery ends there. *)
Theorem deliver_callback_exhausted (env : Env) (st : Settings)
    (request_id callback_url : string) (result : WorkResult) (w : World)
    (record : RequestRecord) :
  _is_safe_callback_url st (net env) callback_url = true →
  0 ≤ callback_max_retries st ≤ 1024 →
  db w !! request_id = Some record → id record = request_id →
  (∀ k : nat, Z.of_nat k ≤ callback_max_retries st →
     attempt_fails (http_post env callback_url request_id k)) →
  ∃ w' record',
    _deliver_callback env st request_id callback_url result w = (Ok (), w')
    ∧ Z.of_nat (http_attempts (events_since w w'))
      = callback_max_retries st + 1
    ∧ db w' !! request_id = Some record'
    ∧ status record' = CALLBACK_FAILED
    ∧ callback_attempts record'
      = callback_attempts record + (callback_max_retries st + 1)
    ∧ callback_last_error record'
      = Some ("Max retries exceeded: "
              ++ failure_text
                   (http_post env callback_url request_id
                      (Z.to_nat (callback_max_retries st))))%string.
Proof.
  intros Hsafe [Hretries _] Hget Hid Hfail.
  rewrite (deliver_callback_safe _ _ _ _ _ _ Hsafe).
  set (cp := {| cp_request_id := request_id |}).
  set (w0 := {| db := db w |}).
  set (n := Z.to_nat (callback_max_retries st + 1)).
  assert (n = S (Z.to_nat (callback_max_retries st))) as Hn
    by (unfold n; lia).
  clearbody n.
  replace n with (n + 0)%nat by lia.
  rewrite retry_loop_failures by (intros j Hj; apply Hfail; lia).
  set (wn := after_failures env st request_id callback_url cp n 0 w0).
  destruct (after_failures_trace env st request_id callback_url cp n 0 w0)
    as (_ & _ & evs & Htrace & Hcount). fold wn in Htrace.
  destruct (after_failures_db_some env st request_id callback_url cp n 0 w0
              record Hget Hid) as (rn & Hgetn & Hidn & Hstatus & Hattempts).
  fold wn in Hgetn.
  simpl retry_loop. rewrite (update_callback_status_some _ _ _ _ _ Hgetn).
  set (error := Some _). set (record' := updated_record false error rn).
  exists (saved record' wn), record'. split; [reflexivity |].
  split; [| split; [| split; [| split]]].
  - rewrite (events_since_app w (saved record' wn) (evs ++ [EvSave record'])).
    + rewrite http_attempts_app, Hcount.
      change (http_attempts [EvSave record']) with 0%nat. lia.
    + simpl. rewrite Htrace. by rewrite app_assoc.
  - simpl. change (id record') with (id rn). rewrite Hidn.
    apply lookup_insert_eq.
  - reflexivity.
  - change (callback_attempts record') with (callback_attempts rn).
    rewrite Hattempts. lia.
  - unfold record', error. rewrite Hn. reflexivity.
Qed.

Lemma deliver_callback_exhausted_witness :
  ∃ w' record',
    _deliver_callback (sample_env (always 500) None 0) settings "req-1"
      good_url sample_result (world_with good_url) = (Ok (), w')
    ∧ http_attempts (events_since (world_with good_url) w') = 4%nat
    ∧ db w' !! "req-1" = Some record'
    ∧ status record' = CALLBACK_FAILED
    ∧ callback_attempts record' = 4
    ∧ callback_last_error record' = Some "Max retries exceeded: HTTP 500".
Proof.
  destruct (deliver_callback_exhausted (sample_env (always 500) None 0)
              settings "req-1" good_url sample_result (world_with good_url)
              (sample_record "req-1" good_url)
              ltac:(vm_compute; reflexivity)
              ltac:(change (0 ≤ 3 ≤ 1024); lia)
              ltac:(vm_compute; reflexivity) ltac:(reflexivity)
              ltac:(intros k _; simpl; lia))
    as (w' & record' & Hrun & Hposts & Hget & Hstatus & Hattempts & Herror).
  exists w', record'.
  change (callback_max_retries settings + 1) with (Z.of_nat 4) in Hposts.
  apply Nat2Z.inj in Hposts.
  exact (conj Hrun (conj Hposts (conj Hget (conj Hstatus
           (conj Hattempts Herror))))).
Defined.

Lemma last_snoc_event (evs : list Event) (ev : Event) :
  last (evs ++ [ev]) = Some ev.
Proof. apply last_snoc. Qed.

(** C4. When the URL is accepted, the attempts before index [k] fail and
    the response of attempt [k] has a status code in [200, 300), the
    delivery stops there: it has issued [k + 1] HTTP requests, the record
    has status [CALLBACK_SUCCESS] and [callback_attempts] grown by [k] (the
    successful attempt is not counted), and the write of that record is the
    last effect of the delivery. *)
Theorem deliver_callback_success (env : Env) (st : Settings)
    (request_id callback_url : string) (result : WorkResult) (w : World)
    (record : RequestRecord) (k : nat) (status_code : Z) :
  _is_safe_callback_url st (net env) callback_url = true →
  db w !! request_id = Some record → id record = request_id →
  Z.of_nat k ≤ callback_max_retries st →
  (∀ j : nat, (j < k)%nat →
     attempt_fails (http_post env callback_url request_id j)) →
  http_post env callback_url request_id k = Ok status_code →
  200 ≤ status_code < 300 →
  ∃ w' record',
    _deliver_callback env st request_id callback_url result w = (Ok (), w')
    ∧ http_attempts (events_since w w') = S k
    ∧ last (events_since w w') = Some (EvSave record')
    ∧ db w' !! request_id = Some record'
    ∧ status record' = CALLBACK_SUCCESS
    ∧ callback_attempts record' = callback_attempts record + Z.of_nat k.
Proof.
  intros Hsafe Hget Hid Hk Hfail Hpost Hcode.
  rewrite (deliver_callback_safe _ _ _ _ _ _ Hsafe).
  set (cp := {| cp_request_id := request_id |}).
  set (w0 := {| db := db w |}).
  replace (Z.to_nat (callback_max_retries st + 1))
    with (k + S (Z.to_nat (callback_max_retries st) - k))%nat by lia.
  rewrite retry_loop_failures by (intros j Hj; by apply Hfail).
  set (wk := after_failures env st request_id callback_url cp k 0 w0).
  destruct (after_failures_trace env st request_id callback_url cp k 0 w0)
    as (_ & _ & evs & Htrace & Hcount). fold wk in Htrace.
  destruct (after_failures_db_some env st request_id callback_url cp k 0 w0
              record Hget Hid) as (rk & Hgetk & Hidk & Hstatus & Hattempts).
  fold wk in Hgetk.
  simpl retry_loop. unfold bind at 1.
  rewrite (attempt_delivery_succeeds _ _ _ _ _ _ status_code Hpost Hcode).
  set (post := EvPost _ _ _).
  rewrite (update_callback_status_some request_id true None (logged post wk)
             rk Hgetk).
  set (record' := updated_record true None rk).
  exists (saved record' (logged post wk)), record'.
  split; [reflexivity |].
  assert (events_since w (saved record' (logged post wk))
          = (evs ++ [post]) ++ [EvSave record']) as Hevs.
  { apply events_since_app. simpl. rewrite Htrace.
    by rewrite <- !app_assoc. }
  rewrite Hevs. split; [| split; [| split; [| split]]].
  - rewrite !http_attempts_app, Hcount.
    change (http_attempts [post]) with 1%nat.
    change (http_attempts [EvSave record']) with 0%nat. lia.
  - apply last_snoc_event.
  - simpl. change (id record') with (id rk). rewrite Hidk.
    apply lookup_insert_eq.
  - reflexivity.
  - exact Hattempts.
Qed.

(** The scenario of a receiver that answers 500 three times and then 200,
    under the default settings. *)
Lemma deliver_callback_success_witness :
  ∃ w' record',
    _deliver_callback (sample_env flaky None 0) settings "req-1"
      good_url sample_result (world_with good_url) = (Ok (), w')
    ∧ http_attempts (events_since (world_with good_url) w') = 4%nat
    ∧ db w' !! "req-1" = Some record'
    ∧ status record' = CALLBACK_SUCCESS
    ∧ callback_attempts record' = 3.
Proof.
  destruct (deliver_callback_success (sample_env flaky None 0)
              settings "req-1" good_url sample_result (world_with good_url)
              (sample_record "req-1" good_url) 3 200
              ltac:(vm_compute; reflexivity) ltac:(vm_compute; reflexivity)
              ltac:(reflexivity) ltac:(vm_compute; discriminate)
              ltac:(intros j Hj; unfold flaky; simpl;
                    destruct (Nat.ltb_spec j 3); [simpl; lia | lia])
              ltac:(reflexivity) ltac:(lia))
    as (w' & record' & Hrun & Hposts & _ & Hget & Hstatus & Hattempts).
  exists w', record'.
  exact (conj Hrun (conj Hposts (conj Hget (conj Hstatus Hattempts)))).
Defined.

(** ** The shape of every run of the loop *)

Lemma attempt_failsb_spec (o : outcome exn Z) :
  attempt_failsb o = true ↔ attempt_fails o.
Proof.
  destruct o as [status_code | e]; simpl.
  - rewrite negb_true_iff, andb_false_iff, Z.leb_gt, Z.ltb_ge. lia.
  - destruct e; simpl; intuition discriminate.
Qed.

Section LoopShape.
Context (env : Env) (st : Settings) (request_id callback_url : string)
        (callback_payload : CallbackPayload).

Abbreviation prefix remaining attempt :=
  (failing_prefix env request_id callback_url remaining attempt).

Lemma failing_prefix_le (remaining : nat) :
  ∀ attempt, (prefix remaining attempt ≤ remaining)%nat.
Proof.
  induction remaining as [| r IH]; intros attempt; simpl; [lia |].
  destruct (attempt_failsb _); [specialize (IH (S attempt)) |]; lia.
Qed.

Lemma failing_prefix_fails (remaining : nat) :
  ∀ attempt j, (j < prefix remaining attempt)%nat →
    attempt_fails (http_post env callback_url request_id (attempt + j)).
Proof.
  induction remaining as [| r IH]; intros attempt j; simpl; [lia |].
  destruct (attempt_failsb _) eqn:Hfail; [| lia].
  destruct j as [| j]; intros Hj.
  - rewrite Nat.add_0_r. by apply attempt_failsb_spec.
  - replace (attempt + S j)%nat with (S attempt + j)%nat by lia.
    apply IH. lia.
Qed.

Lemma failing_prefix_stops (remaining : nat) :
  ∀ attempt, (prefix remaining attempt < remaining)%nat →
    attempt_failsb
      (http_post env callback_url request_id
         (attempt + prefix remaining attempt)) = false.
Proof.
  induction remaining as [| r IH]; intros attempt; simpl; [lia |].
  destruct (attempt_failsb _) eqn:Hfail.
  - intros Hlt.
    replace (attempt + S (prefix r (S attempt)))%nat
      with (S attempt + prefix r (S attempt))%nat by lia.
    apply IH. lia.
  - intros _. by rewrite Nat.add_0_r.
Qed.

(** Without a failed attempt ahead the loop ends as [loop_end] says. *)
Lemma retry_loop_end (remaining attempt : nat) (last_error : option string)
    (w : World) :
  (remaining ≠ 0%nat →
   attempt_failsb (http_post env callback_url request_id attempt) = false) →
  retry_loop env st request_id callback_url callback_payload
    remaining attempt last_error w
  = loop_end env request_id callback_url callback_payload
      remaining attempt last_error w.
Proof.
  destruct remaining as [| r]; [reflexivity |].
  intros Hstop. specialize (Hstop ltac:(done)). simpl.
  destruct (http_post env callback_url request_id attempt)
    as [status_code | e] eqn:Hpost.
  - simpl in Hstop. apply negb_false_iff, andb_true_iff in Hstop as [H1 H2].
    apply Z.leb_le in H1. apply Z.ltb_lt in H2.
    unfold bind at 1.
    by rewrite (attempt_delivery_succeeds _ _ _ _ _ _ status_code Hpost
                  (conj H1 H2)).
  - unfold bind at 1.
    rewrite (attempt_delivery_raises _ _ _ _ _ _ e); [reflexivity |].
    split; [exact Hpost |]. by destruct e.
Qed.

(** Every run of the loop is a row of failed attempts and an end. *)
Lemma retry_loop_shape (remaining attempt : nat)
    (last_error : option string) (w : World) :
  let k := prefix remaining attempt in
  retry_loop env st request_id callback_url callback_payload
    remaining attempt last_error w
  = loop_end env request_id callback_url callback_payload
      (remaining - k) (attempt + k)
      (last_error_after env request_id callback_url k attempt last_error)
      (after_failures env st request_id callback_url callback_payload
         k attempt w).
Proof.
  intros k. pose proof (failing_prefix_le remaining attempt) as Hle.
  fold k in Hle.
  replace remaining with (k + (remaining - k))%nat at 1 by lia.
  rewrite retry_loop_failures
    by (intros j Hj; by apply (failing_prefix_fails remaining)).
  apply retry_loop_end. intros Hne.
  apply failing_prefix_stops. fold k. lia.
Qed.

End LoopShape.

(** ** What the runs of the loop add to the trace *)

Lemma waits_from_app (t1 t2 : list Event) :
  ∀ pending,
    waits_from pending (t1 ++ t2)
    = (fst (waits_from pending t1)
         ++ fst (waits_from (snd (waits_from pending t1)) t2),
       snd (waits_from (snd (waits_from pending t1)) t2)).
Proof.
  induction t1 as [| ev t1 IH]; intros pending; simpl.
  - by destruct (waits_from pending t2).
  - destruct ev; simpl; try apply IH.
    rewrite (IH []). by destruct (waits_from [] t1).
Qed.

Section LoopEvents.
Context (env : Env) (st : Settings) (request_id callback_url : string)
        (callback_payload : CallbackPayload).
Hypothesis payload_id : cp_request_id callback_payload = request_id.
Hypothesis payload_status : cp_status callback_payload = "success".
Hypothesis payload_error : cp_error callback_payload = None.

Abbreviation slot attempt := (sleep_slot env st request_id attempt).

(** The events of one failed attempt: the POST, the write of the
    incremented record if there is one, the sleep if one is due. *)
Lemma after_failed_attempt_events (attempt : nat) (w : World) :
  let w' := after_failed_attempt env st request_id callback_url
              callback_payload attempt w in
  pool w' = pool w ∧ clock_reads w' = clock_reads w
  ∧ ∃ evs, trace w' = trace w ++ evs
      ∧ effects evs
        = post_effect request_id callback_url (cp_result callback_payload)
            attempt :: (FxSleep <$> slot attempt)
      ∧ (∀ pending, waits_from pending evs = ([pending], slot attempt))
      ∧ (db w !! request_id = None → saves evs = [] ∧ db w' = db w)
      ∧ Forall (λ r, ∃ r0, db w !! request_id = Some r0
                           ∧ id r = id r0 ∧ status r = status r0)
               (saves evs).
Proof.
  unfold after_failed_attempt, sleep_slot, post_effect. simpl.
  destruct (db w !! request_id) as [record |];
    destruct (Z.of_nat attempt <? callback_max_retries st); simpl;
    (split; [reflexivity |]); (split; [reflexivity |]);
    eexists; (split; [rewrite <- ?app_assoc; reflexivity |]);
    simpl; rewrite payload_id, payload_status, payload_error;
    repeat split; try done;
    repeat constructor; by eexists.
Qed.

Lemma after_failures_events (k : nat) :
  ∀ (attempt : nat) (w : World),
    let w' := after_failures env st request_id callback_url
                callback_payload k attempt w in
    ∃ evs, trace w' = trace w ++ evs
      ∧ effects evs
        = failure_effects env st request_id callback_url
            (cp_result callback_payload) k attempt
      ∧ (∀ pending,
           waits_from pending evs
           = match k with
             | O => ([], pending)
             | S k' => (pending
                        :: (sleep_slot env st request_id <$> seq attempt k'),
                        slot (attempt + k'))
             end)
      ∧ (db w !! request_id = None → saves evs = []).
Proof.
  induction k as [| k IH]; intros attempt w; simpl.
  - exists []. rewrite app_nil_r. done.
  - destruct (after_failed_attempt_events attempt w)
      as (_ & _ & evs1 & Htrace1 & Hfx1 & Hwaits1 & Hnone1 & _).
    destruct (IH (S attempt)
                (after_failed_attempt env st request_id callback_url
                   callback_payload attempt w))
      as (evs2 & Htrace2 & Hfx2 & Hwaits2 & Hnone2).
    exists (evs1 ++ evs2). split; [| split; [| split]].
    + rewrite Htrace2, Htrace1. by rewrite app_assoc.
    + by rewrite effects_app, Hfx1, Hfx2.
    + intros pending. rewrite waits_from_app, Hwaits1. simpl.
      rewrite Hwaits2. destruct k as [| k']; simpl.
      * by rewrite Nat.add_0_r.
      * by replace (attempt + S k')%nat with (S (attempt + k')) by lia.
    + intros Hget. destruct (Hnone1 Hget) as [Hs1 Hdb].
      rewrite saves_app, Hs1, Hnone2; [done | by rewrite Hdb].
Qed.

(** The events of the end of the loop. *)
Lemma loop_end_events (remaining attempt : nat)
    (last_error : option string) (w : World) :
  let w' := snd (loop_end env request_id callback_url callback_payload
                   remaining attempt last_error w) in
  pool w' = pool w
  ∧ ∃ evs, trace w' = trace w ++ evs
    ∧ effects evs
      = match remaining with
        | O => []
        | S _ => [post_effect request_id callback_url
                    (cp_result callback_payload) attempt]
        end
    ∧ (∀ pending,
         waits_from pending evs
         = match remaining with
           | O => ([], pending)
           | S _ => ([pending], [])
           end)
    ∧ (db w !! request_id = None → saves evs = [] ∧ db w' = db w).
Proof.
  unfold loop_end, post_effect.
  destruct remaining as [| r].
  - destruct (db w !! request_id) as [record |] eqn:Hget.
    + rewrite (update_callback_status_some _ _ _ _ _ Hget). simpl.
      split; [reflexivity |].
      eexists. split; [reflexivity |]. done.
    + rewrite (update_callback_status_none _ _ _ _ Hget). simpl.
      split; [reflexivity |].
      exists []. by rewrite app_nil_r.
  - set (post := EvPost _ _ _).
    destruct (http_post env callback_url request_id attempt) as [code | e].
    + destruct (db (logged post w) !! request_id) as [record |] eqn:Hget.
      * rewrite (update_callback_status_some _ _ _ _ _ Hget). simpl.
        split; [reflexivity |].
        eexists. split; [rewrite <- app_assoc; reflexivity |].
        simpl in Hget. simpl.
        rewrite payload_id, payload_status, payload_error.
        repeat split; try done; congruence.
      * rewrite (update_callback_status_none _ _ _ _ Hget). simpl.
        split; [reflexivity |].
        eexists. split; [reflexivity |]. simpl.
        rewrite payload_id, payload_status, payload_error. done.
    + simpl. split; [reflexivity |].
      eexists. split; [reflexivity |]. simpl.
      rewrite payload_id, payload_status, payload_error. done.
Qed.

Lemma loop_end_outcome (remaining attempt : nat)
    (last_error : option string) (w : World) :
  fst (loop_end env request_id callback_url callback_payload
         remaining attempt last_error w)
  = match remaining with
    | O => Ok ()
    | S _ =>
        match http_post env callback_url request_id attempt with
        | Ok _ => Ok ()
        | Raise e => Raise e
        end
    end.
Proof.
  unfold loop_end. destruct remaining as [| r].
  - destruct (db w !! request_id) as [record |] eqn:Hget.
    + by rewrite (update_callback_status_some _ _ _ _ _ Hget).
    + by rewrite (update_callback_status_none _ _ _ _ Hget).
  - by destruct (http_post env callback_url request_id attempt).
Qed.

End LoopEvents.

(** ** Every delivery *)

Lemma sleep_slot_due (env : Env) (st : Settings) (request_id : string)
    (n j : nat) (ds : list Q) :
  Z.of_nat n ≤ callback_max_retries st →
  (sleep_slot env st request_id <$> seq 0 n) !! j = Some ds →
  Z.of_nat j < callback_max_retries st
  ∧ ds = [backoff_delay (round64 env) st j (random env request_id j)].
Proof.
  intros Hn Hlookup. apply list_lookup_fmap_Some in Hlookup as (i & -> & Hseq).
  apply lookup_seq in Hseq as [-> Hlt]. simpl.
  split; [lia |]. unfold sleep_slot.
  destruct (Z.ltb_spec (Z.of_nat j) (callback_max_retries st)); [done | lia].
Qed.

(** The outcome of a delivery and its POSTs and sleeps are fixed by the
    receiver's answers; the delays slept lie between the POSTs, one before
    each POST but the first and none after the last. *)
Lemma deliver_callback_run (env : Env) (st : Settings)
    (request_id callback_url : string) (result : WorkResult) (w : World) :
  ∃ w' evs,
    _deliver_callback env st request_id callback_url result w
    = (deliver_outcome env st request_id callback_url, w')
    ∧ trace w' = trace w ++ evs
    ∧ pool w' = pool w
    ∧ effects evs = deliver_effects env st request_id callback_url result
    ∧ snd (waits_from [] evs) = []
    ∧ (∀ i ds, fst (waits_from [] evs) !! i = Some ds →
         match i with
         | O => ds = []
         | S j => Z.of_nat j < callback_max_retries st
                 ∧ ds = [backoff_delay (round64 env) st j (random env request_id j)]
         end)
    ∧ (db w !! request_id = None → saves evs = [] ∧ db w' = db w).
Proof.
  unfold deliver_outcome, deliver_effects.
  destruct (_is_safe_callback_url st (net env) callback_url) eqn:Hsafe; simpl.
  - rewrite (deliver_callback_safe _ _ _ _ _ _ Hsafe).
    set (cp := {| cp_request_id := request_id |}).
    set (w0 := {| db := db w |}).
    set (remaining := Z.to_nat (callback_max_retries st + 1)).
    rewrite retry_loop_shape.
    set (k := failing_prefix env request_id callback_url remaining 0).
    pose proof (failing_prefix_le env request_id callback_url remaining 0)
      as Hk. fold k in Hk.
    set (wk := after_failures env st request_id callback_url cp k 0 w0).
    destruct (after_failures_trace env st request_id callback_url cp k 0 w0)
      as (Hpool1 & _ & _).
    destruct (after_failures_events env st request_id callback_url cp
                eq_refl eq_refl eq_refl k 0 w0)
      as (evs1 & Htrace1 & Hfx1 & Hwaits1 & Hnone1).
    fold wk in Hpool1, Htrace1.
    set (le := last_error_after env request_id callback_url k 0 None).
    destruct (loop_end_events env request_id callback_url cp
                eq_refl eq_refl eq_refl (remaining - k) (0 + k) le wk)
      as (Hpool2 & evs2 & Htrace2 & Hfx2 & Hwaits2 & Hnone2).
    pose proof (loop_end_outcome env request_id callback_url cp
                  (remaining - k) (0 + k) le wk) as Hout.
    destruct (loop_end env request_id callback_url cp (remaining - k)
                (0 + k) le wk) as [r w'].
    simpl in Hpool2, Htrace2, Hnone2, Hout. subst r.
    exists w', (evs1 ++ evs2).
    split; [reflexivity |]. split; [| split; [| split; [| split; [| split]]]].
    + rewrite Htrace2, Htrace1. by rewrite app_assoc.
    + by rewrite Hpool2, Hpool1.
    + by rewrite effects_app, Hfx1, Hfx2.
    + rewrite waits_from_app, Hwaits1. simpl.
      destruct k as [| k']; rewrite Hwaits2.
      * by destruct (remaining - 0)%nat.
      * destruct (remaining - S k')%nat eqn:Hrem; [| done]. simpl.
        unfold sleep_slot.
        destruct (Z.ltb_spec (Z.of_nat k') (callback_max_retries st));
          [| done].
        unfold remaining in *. lia.
    + intros i ds. rewrite waits_from_app, Hwaits1. simpl.
      destruct k as [| k']; rewrite Hwaits2.
      * destruct (remaining - 0)%nat; simpl.
        -- by rewrite lookup_nil.
        -- destruct i as [| j]; simpl; [congruence |].
           by rewrite lookup_nil.
      * destruct (remaining - S k')%nat eqn:Hrem; simpl;
          (destruct i as [| j]; simpl; [congruence |]).
        -- rewrite app_nil_r. apply sleep_slot_due.
           unfold remaining in *. lia.
        -- replace ((sleep_slot env st request_id <$> seq 0 k')
                    ++ [sleep_slot env st request_id k'])
             with (sleep_slot env st request_id <$> seq 0 (S k'))
             by (by rewrite seq_S, fmap_app).
           apply sleep_slot_due. unfold remaining in *. lia.
    + intros Hget. rewrite saves_app, (Hnone1 Hget).
      assert (db wk !! request_id = None) as Hgetk.
      { unfold wk.
        by rewrite (after_failures_db_none env st request_id callback_url
                      cp k 0 w0 Hget). }
      destruct (Hnone2 Hgetk) as [Hs2 Hdb2]. rewrite Hs2, Hdb2.
      split; [done |]. unfold wk.
      by rewrite (after_failures_db_none env st request_id callback_url
                    cp k 0 w0 Hget).
  - unfold _deliver_callback. rewrite Hsafe. simpl.
    destruct (db w !! request_id) as [record |] eqn:Hget.
    + rewrite (update_callback_status_some _ _ _ _ _ Hget).
      eexists _, [_]. split; [reflexivity |]. simpl.
      repeat split; try done;
        intros [| j] ds; simpl; by rewrite ?lookup_nil.
    + rewrite (update_callback_status_none _ _ _ _ Hget).
      exists w, []. split; [reflexivity |]. rewrite app_nil_r. simpl.
      repeat split; try done;
        intros [| j] ds; simpl; by rewrite ?lookup_nil.
Qed.

(** ** The backoff *)

Lemma backoff_ceiling_pos (st : Settings) (attempt : nat) :
  (0 < callback_retry_base_delay st)%Q →
  (0 < callback_retry_max_delay st)%Q →
  (0 < backoff_ceiling st attempt)%Q.
Proof.
  intros Hbase Hmax. unfold backoff_ceiling.
  apply Q.min_glb_lt; [| exact Hmax].
  apply Qmult_lt_0_compat; [exact Hbase |].
  change 0%Q with (inject_Z 0). rewrite <- Zlt_Qlt.
  apply Z.pow_pos_nonneg; lia.
Qed.

Lemma jitter_factor_bounds (fl : Q → Q) (r : Q) :
  rounds_to_nearest fl → (0 <= r)%Q → (r < 1)%Q →
  ((1 # 2) <= fl ((1 # 2) + r))%Q ∧ (fl ((1 # 2) + r) <= (3 # 2))%Q.
Proof.
  intros (Hmono & _ & Hhalf & Hthree) Hr0 Hr1.
  pose proof (Hmono (1 # 2) ((1 # 2) + r) ltac:(lra))%Q as Hlow.
  pose proof (Hmono ((1 # 2) + r) (3 # 2) ltac:(lra))%Q as Hhigh.
  split; lra.
Qed.

Lemma backoff_delay_in_band (fl : Q → Q) (st : Settings) (attempt : nat)
    (r : Q) :
  rounds_to_nearest fl →
  (0 < callback_retry_base_delay st)%Q →
  (0 < callback_retry_max_delay st)%Q →
  (0 <= r)%Q → (r < 1)%Q →
  in_rounded_band fl st attempt (backoff_delay fl st attempt r).
Proof.
  intros Hfl Hbase Hmax Hr0 Hr1.
  pose proof (backoff_ceiling_pos st attempt Hbase Hmax) as Hpos.
  destruct (jitter_factor_bounds fl r Hfl Hr0 Hr1) as [Hlow Hhigh].
  destruct Hfl as (Hmono & _).
  unfold in_rounded_band, backoff_delay.
  set (c := backoff_ceiling st attempt) in *.
  set (f := fl ((1 # 2) + r)%Q) in *.
  split; apply Hmono; nra.
Qed.

(** C6, as the code has it. The delay of loop index [j] is slept after the
    failed attempt [j], that is before attempt [j + 1]: no delay is slept
    before attempt 0 and none after the last attempt. For a retry count up
    to 1024, a base delay and a maximum delay above zero, draws of
    [random.random()] in [0, 1) and float arithmetic that rounds to
    nearest, the one delay slept before attempt [j + 1], with [j] below the
    retry count, is [min(base * 2^j, max_delay) * (0.5 + r_j)] with the sum
    and the product rounded, and lies between the floats nearest to
    [0.5 * min(base * 2^j, max_delay)] and to
    [1.5 * min(base * 2^j, max_delay)], both ends included. *)
Theorem backoff_between_attempts (env : Env) (st : Settings)
    (request_id callback_url : string) (result : WorkResult) (w : World) :
  callback_max_retries st ≤ 1024 →
  rounds_to_nearest (round64 env) →
  (0 < callback_retry_base_delay st)%Q →
  (0 < callback_retry_max_delay st)%Q →
  (∀ k, (0 <= random env request_id k)%Q ∧ (random env request_id k < 1)%Q) →
  let evs :=
    events_since w
      (snd (_deliver_callback env st request_id callback_url result w)) in
  waits_after_last evs = []
  ∧ ∀ k ds, waits_before evs !! k = Some ds →
      match k with
      | O => ds = []
      | S j =>
          Z.of_nat j < callback_max_retries st
          ∧ (j < 1024)%nat
          ∧ ∃ d, ds = [d]
                 ∧ d = round64 env
                         (backoff_ceiling st j
                          * round64 env ((1 # 2) + random env request_id j))%Q
                 ∧ in_rounded_band (round64 env) st j d
      end.
Proof.
  intros Hretries Hfl Hbase Hmax Hdraw evs.
  destruct (deliver_callback_run env st request_id callback_url result w)
    as (w' & new & Hrun & Htrace & _ & _ & Hafter & Hbefore & _).
  unfold evs. rewrite Hrun. simpl.
  rewrite (events_since_app w w' new Htrace).
  split; [exact Hafter |].
  intros k ds Hlookup. specialize (Hbefore k ds Hlookup).
  destruct k as [| j]; [exact Hbefore |].
  destruct Hbefore as [Hj ->]. split; [exact Hj |]. split; [lia |].
  eexists. split; [reflexivity |]. split; [reflexivity |].
  apply backoff_delay_in_band; [done | done | done | apply Hdraw | apply Hdraw].
Qed.

Lemma rounds_to_nearest_sample (post : nat → outcome exn Z)
    (fault : option exn) (draw : Q) :
  rounds_to_nearest (round64 (sample_env post fault draw)).
Proof. split; [intros x y Hle; exact Hle | repeat split; reflexivity]. Qed.

Lemma backoff_between_attempts_witness :
  let evs :=
    events_since (world_with good_url)
      (snd (_deliver_callback (sample_env (always 500) None (1 # 4)) settings
              "req-1" good_url sample_result (world_with good_url))) in
  waits_after_last evs = []
  ∧ ∃ d, waits_before evs !! 2%nat = Some [d]
         ∧ in_rounded_band (λ q, q) settings 1 d.
Proof.
  intros evs.
  destruct (backoff_between_attempts (sample_env (always 500) None (1 # 4))
              settings "req-1" good_url sample_result (world_with good_url)
              ltac:(vm_compute; discriminate)
              (rounds_to_nearest_sample (always 500) None (1 # 4))
              ltac:(reflexivity) ltac:(reflexivity)
              ltac:(intros k; split; [discriminate | reflexivity]))
    as [Hafter Hbefore].
  split; [exact Hafter |].
  destruct (Hbefore 2%nat
              [backoff_delay (λ q, q) settings 1 (1 # 4)]
              ltac:(vm_compute; reflexivity))
    as (_ & _ & d & Heq & _ & Hband).
  exists d. split; [| exact Hband].
  injection Heq as <-. vm_compute. reflexivity.
Defined.

(** C6, as the spec words it, fails: under the default settings, with every
    attempt answered 500 and every draw 0, the delay slept before attempt 1
    is 0.5, outside [[0.5, 1.5) * min(1 * 2^1, 30) = [1, 3)]; before attempt
    0 nothing is slept. *)
Lemma backoff_before_each_attempt_counterexample :
  ¬ backoff_before_each_attempt settings
      (events_since (world_with good_url)
         (snd (_deliver_callback (sample_env (always 500) None 0) settings
                 "req-1" good_url sample_result (world_with good_url)))).
Proof.
  intros Hclaim.
  destruct (Hclaim 1%nat [backoff_delay (λ q, q) settings 0 0]
              ltac:(vm_compute; reflexivity)) as (d & Heq & Hlow & _).
  injection Heq as <-. vm_compute in Hlow. by apply Hlow.
Qed.

(** The upper end of the band is reached: under the default settings, with
    the draw [1 - 2^-53] the sum [0.5 + r] rounds to 1.5, and the delay
    slept after the failed attempt 0 is [1.5 * min(1 * 2^0, 30)], which the
    half-open band of index 0 leaves out. *)
Lemma jitter_band_upper_end_reached :
  let evs :=
    events_since (world_with good_url)
      (snd (_deliver_callback rounding_env settings "req-1" good_url
              sample_result (world_with good_url))) in
  ∃ d, waits_before evs !! 1%nat = Some [d]
       ∧ (d == (3 # 2) * backoff_ceiling settings 0)%Q
       ∧ ¬ in_jitter_band settings 0 d.
Proof.
  intros evs. eexists. split; [vm_compute; reflexivity |].
  split; [vm_compute; reflexivity |].
  intros [_ Hupper]. vm_compute in Hupper. discriminate.
Qed.

(** ** The processing of one job *)

Lemma compute_work_async_run (env : Env) (request_id : string)
    (payload : AsyncWorkPayload) (w : World) :
  compute_work_async env request_id (work_payload_of payload) w
  = (match run_in_executor env request_id (work_payload_of payload) with
     | Some e => Raise e
     | None => Ok (computed_result env request_id payload)
     end,
     logged (EvCompute request_id (work_payload_of payload)) w).
Proof.
  unfold compute_work_async, computed_result. run.
  destruct (run_in_executor env request_id (work_payload_of payload));
    [reflexivity |].
  by destruct (perf_counter env request_id).
Qed.

(** The processing of a job whose request has a record [record]: the record
    is written as [PROCESSING]; when the executor raises an [Exception] it
    is written as [CALLBACK_FAILED] with the text of the exception; when
    the executor returns it is written as [CALLBACK_PENDING] before the
    delivery starts, and an [Exception] that leaves the delivery has the
    local record written as [CALLBACK_FAILED] with its text. *)
Lemma process_request_with_record (env : Env) (st : Settings)
    (request_id : string) (payload : AsyncWorkPayload) (w : World)
    (record : RequestRecord) :
  db w !! request_id = Some record → id record = request_id →
  let r1 := set_status PROCESSING record in
  let r2 := pending_record (computed_result env request_id payload)
              (utcnow env (clock_reads w)) r1 in
  let compute := EvCompute request_id (work_payload_of payload) in
  ∃ w' evs,
    _process_request env st request_id payload w
    = (process_outcome env st request_id payload, w')
    ∧ trace w' = trace w ++ evs
    ∧ pool w' = pool w
    ∧ effects evs = process_effects env st request_id payload
    ∧ match run_in_executor env request_id (work_payload_of payload) with
      | Some e =>
          if is_Exception e then
            evs = [EvSave r1; compute; EvSave (failed_record e r1)]
            ∧ db w' !! request_id = Some (failed_record e r1)
          else evs = [EvSave r1; compute]
      | None =>
          ∃ rest, evs = [EvSave r1; compute; EvSave r2] ++ rest
            ∧ match deliver_outcome env st request_id
                      (awp_callback_url payload) with
              | Ok _ => True
              | Raise e =>
                  is_Exception e = true →
                  last evs = Some (EvSave (failed_record e r2))
                  ∧ db w' !! request_id = Some (failed_record e r2)
              end
      end.
Proof.
  intros Hget Hid r1 r2 compute.
  unfold _process_request, process_outcome, process_effects.
  unfold bind at 1. unfold get_request at 1. rewrite Hget.
  unfold bind at 1. unfold bind at 1. unfold save_request at 1.
  unfold ret at 1. fold r1. fold (saved r1 w).
  unfold bind at 1. unfold try_except at 1. unfold bind at 1.
  change {| data := data (awp_work payload);
            iterations := iterations (awp_work payload) |}
    with (work_payload_of payload).
  rewrite compute_work_async_run. fold compute.
  set (w1 := logged compute (saved r1 w)).
  destruct (run_in_executor env request_id (work_payload_of payload))
    as [e |] eqn:Hexec.
  - unfold except_Exception. destruct (is_Exception e) eqn:Hexc.
    + unfold bind at 1. unfold record_failure, save_request, ret. simpl.
      eexists _, _. split; [reflexivity |]. simpl.
      split; [by rewrite <- !app_assoc |]. split; [reflexivity |].
      split; [reflexivity |]. split; [reflexivity |].
      change (id (failed_record e r1)) with (id record). rewrite Hid.
      apply lookup_insert_eq.
    + eexists _, _. split; [reflexivity |]. simpl.
      split; [by rewrite <- !app_assoc |]. done.
  - unfold ret at 1. unfold bind at 1. unfold bind at 1.
    unfold datetime_utcnow at 1. unfold bind at 1.
    unfold save_request at 1. unfold ret at 1. simpl clock_reads.
    change (set_completed_at _ (set_result _ (set_status _ r1))) with r2.
    match goal with |- context [try_except _ _ ?x] => set (w2 := x) end.
    destruct (deliver_callback_run env st request_id
                (awp_callback_url payload)
                (computed_result env request_id payload) w2)
      as (w3 & devs & Hrun & Htrace & Hpool & Hfx & _).
    unfold try_except. rewrite Hrun.
    destruct (deliver_outcome env st request_id (awp_callback_url payload))
      as [[] | e].
    + exists w3, ([EvSave r1; compute; EvSave r2] ++ devs).
      split; [reflexivity |]. split; [| split; [done | split]].
      * rewrite Htrace. simpl. by rewrite <- !app_assoc.
      * simpl. by rewrite Hfx.
      * by exists devs.
    + unfold except_Exception. destruct (is_Exception e) eqn:Hexc.
      * unfold record_failure, save_request. simpl.
        eexists _, ([EvSave r1; compute; EvSave r2]
                    ++ devs ++ [EvSave (failed_record e r2)]).
        split; [reflexivity |]. simpl.
        split; [| split; [done | split]].
        -- rewrite Htrace. simpl. by rewrite <- !app_assoc.
        -- rewrite effects_app, Hfx. simpl. by rewrite app_nil_r.
        -- exists (devs ++ [EvSave (failed_record e r2)]).
           split; [reflexivity |]. intros _. split.
           ++ apply (last_snoc_event
                       ([EvSave r1; compute; EvSave r2] ++ devs)).
           ++ change (id (failed_record e r2)) with (id record).
              rewrite Hid. apply lookup_insert_eq.
      * exists w3, ([EvSave r1; compute; EvSave r2] ++ devs).
        split; [reflexivity |]. split; [| split; [done | split]].
        -- rewrite Htrace. simpl. by rewrite <- !app_assoc.
        -- simpl. by rewrite Hfx.
        -- exists devs. split; [reflexivity |]. intros [=].
Qed.

(** The processing of a job whose request has no record: nothing is
    written. *)
Lemma process_request_without_record (env : Env) (st : Settings)
    (request_id : string) (payload : AsyncWorkPayload) (w : World) :
  db w !! request_id = None →
  ∃ w' evs,
    _process_request env st request_id payload w
    = (process_outcome env st request_id payload, w')
    ∧ trace w' = trace w ++ evs
    ∧ pool w' = pool w
    ∧ effects evs = process_effects env st request_id payload
    ∧ saves evs = []
    ∧ db w' = db w.
Proof.
  intros Hget.
  unfold _process_request, process_outcome, process_effects.
  unfold bind at 1. unfold get_request at 1. rewrite Hget.
  unfold bind at 1. unfold ret at 1.
  unfold bind at 1. unfold try_except at 1. unfold bind at 1.
  change {| data := data (awp_work payload);
            iterations := iterations (awp_work payload) |}
    with (work_payload_of payload).
  rewrite compute_work_async_run.
  set (compute := EvCompute request_id (work_payload_of payload)).
  set (w1 := logged compute w).
  destruct (run_in_executor env request_id (work_payload_of payload))
    as [e |] eqn:Hexec.
  - unfold except_Exception. destruct (is_Exception e) eqn:Hexc.
    + unfold bind at 1. unfold record_failure, ret. simpl.
      by exists w1, [compute].
    + by exists w1, [compute].
  - unfold ret at 1. unfold bind at 1. unfold ret at 1.
    destruct (deliver_callback_run env st request_id
                (awp_callback_url payload)
                (computed_result env request_id payload) w1)
      as (w3 & devs & Hrun & Htrace & Hpool & Hfx & _ & _ & Hnone).
    destruct (Hnone Hget) as [Hsaves Hdb].
    unfold try_except. rewrite Hrun.
    assert (trace w3 = trace w ++ [compute] ++ devs) as Htrace'.
    { rewrite Htrace. simpl. by rewrite <- app_assoc. }
    assert (effects ([compute] ++ devs)
            = FxCompute request_id (work_payload_of payload)
              :: deliver_effects env st request_id (awp_callback_url payload)
                   (computed_result env request_id payload)) as Hfx'.
    { simpl. by rewrite Hfx. }
    destruct (deliver_outcome env st request_id (awp_callback_url payload))
      as [[] | e].
    + by exists w3, ([compute] ++ devs).
    + unfold except_Exception. destruct (is_Exception e) eqn:Hexc.
      * unfold record_failure, ret. by exists w3, ([compute] ++ devs).
      * by exists w3, ([compute] ++ devs).
Qed.

(** C10. Processing a job whose request has no record changes nothing in
    the table and writes nothing; no exception leaves it but a cancellation
    delivered from outside; it calls the executor and performs the same
    POSTs and sleeps, with the same outcome, as for a request that has a
    record. *)
Theorem process_request_missing_record (env : Env) (st : Settings)
    (request_id : string) (payload : AsyncWorkPayload) (w : World) :
  db w !! request_id = None →
  ∃ out w',
    _process_request env st request_id payload w = (out, w')
    ∧ db w' = db w
    ∧ saves (events_since w w') = []
    ∧ (∀ e, out = Raise e → e = CancelledError)
    ∧ head (effects (events_since w w'))
      = Some (FxCompute request_id (work_payload_of payload))
    ∧ ∀ w2 record,
        db w2 !! request_id = Some record → id record = request_id →
        ∃ w2',
          _process_request env st request_id payload w2 = (out, w2')
          ∧ effects (events_since w2 w2') = effects (events_since w w').
Proof.
  intros Hget.
  destruct (process_request_without_record env st request_id payload w Hget)
    as (w' & evs & Hrun & Htrace & _ & Hfx & Hsaves & Hdb).
  exists (process_outcome env st request_id payload), w'.
  rewrite (events_since_app w w' evs Htrace).
  split; [exact Hrun |]. split; [exact Hdb |]. split; [exact Hsaves |].
  split; [| split].
  - intros e. unfold process_outcome.
    destruct (run_in_executor env request_id (work_payload_of payload))
      as [e1 |].
    + destruct e1; simpl; congruence.
    + destruct (deliver_outcome env st request_id (awp_callback_url payload))
        as [[] | e1]; [discriminate |].
      destruct e1; simpl; congruence.
  - by rewrite Hfx.
  - intros w2 record Hget2 Hid.
    destruct (process_request_with_record env st request_id payload w2
                record Hget2 Hid)
      as (w2' & evs2 & Hrun2 & Htrace2 & _ & Hfx2 & _).
    exists w2'. split; [exact Hrun2 |].
    rewrite (events_since_app w2 w2' evs2 Htrace2). by rewrite Hfx, Hfx2.
Qed.

Lemma process_request_missing_record_witness :
  let env := sample_env (always 500) None 0 in
  let job := sample_job good_url in
  let run := _process_request env settings "req-1" job empty_world in
  let run2 := _process_request env settings "req-1" job
                (world_with good_url) in
  db (snd run) = ∅
  ∧ saves (events_since empty_world (snd run)) = []
  ∧ fst run2 = fst run
  ∧ effects (events_since (world_with good_url) (snd run2))
    = effects (events_since empty_world (snd run)).
Proof.
  intros env job run run2.
  destruct (process_request_missing_record env settings "req-1" job
              empty_world ltac:(reflexivity))
    as (out & w' & Hrun & Hdb & Hsaves & _ & _ & Hsame).
  destruct (Hsame (world_with good_url) (sample_record "req-1" good_url)
              ltac:(vm_compute; reflexivity) ltac:(reflexivity))
    as (w2' & Hrun2 & Hfx).
  unfold run, run2. rewrite Hrun, Hrun2. simpl.
  split; [exact Hdb |]. split; [exact Hsaves |]. split; [reflexivity |].
  exact Hfx.
Defined.

(** ** The worker *)

Lemma failing_prefix_eq (env : Env) (request_id callback_url : string)
    (remaining : nat) :
  ∀ attempt k,
    (k < remaining)%nat →
    (∀ j, (j < k)%nat →
       attempt_fails (http_post env callback_url request_id (attempt + j))) →
    attempt_failsb (http_post env callback_url request_id (attempt + k))
    = false →
    failing_prefix env request_id callback_url remaining attempt = k.
Proof.
  induction remaining as [| r IH]; intros attempt k Hk Hfail Hstop;
    [lia |]. simpl.
  destruct k as [| k].
  - rewrite Nat.add_0_r in Hstop. by rewrite Hstop.
  - pose proof (Hfail 0%nat ltac:(lia)) as H0.
    rewrite Nat.add_0_r in H0. apply attempt_failsb_spec in H0.
    rewrite H0. f_equal. apply IH; [lia | |].
    + intros j Hj. specialize (Hfail (S j) ltac:(lia)).
      by replace (S attempt + j)%nat with (attempt + S j)%nat by lia.
    + by replace (S attempt + k)%nat with (attempt + S k)%nat by lia.
Qed.

Lemma delivery_raises_outcome (env : Env) (st : Settings)
    (request_id : string) (payload : AsyncWorkPayload) (e : exn) :
  delivery_raises env st request_id payload e →
  run_in_executor env request_id (work_payload_of payload) = None
  ∧ deliver_outcome env st request_id (awp_callback_url payload) = Raise e.
Proof.
  intros (Hexec & Hsafe & k & Hk & Hfail & Hpost & Hkind).
  split; [exact Hexec |]. unfold deliver_outcome. rewrite Hsafe. simpl.
  rewrite (failing_prefix_eq env request_id (awp_callback_url payload)
             (Z.to_nat (callback_max_retries st + 1)) 0 k);
    [| lia | exact Hfail | simpl; rewrite Hpost; by destruct e].
  replace (Z.to_nat (callback_max_retries st + 1) - k)%nat
    with (S (Z.to_nat (callback_max_retries st) - k)) by lia.
  by rewrite Hpost.
Qed.

(** C8. When the processing of the job a worker takes from the queue
    raises an [Exception], in the executor or in the delivery, and the
    request has a record, the pass through the worker loop ends normally
    and the loop goes on: the record is left with status [CALLBACK_FAILED]
    and the text of the exception in [callback_last_error], that write is
    the last effect of the pass, the worker is counted idle again, the job
    is marked done, and a running worker continues with the rest of the
    queue. *)
Theorem worker_iteration_isolates_failure (env : Env) (st : Settings)
    (request_id : string) (payload : AsyncWorkPayload) (w : World)
    (record : RequestRecord) (e : exn)
    (rest : Queue (string * AsyncWorkPayload)) :
  get_nowait (queue (pool w)) = Some ((request_id, payload), rest) →
  db w !! request_id = Some record → id record = request_id →
  is_Exception e = true →
  executor_raises env request_id payload e
  ∨ delivery_raises env st request_id payload e →
  ∃ w' record',
    _worker_iteration env st w = (Ok Continue, w')
    ∧ db w' !! request_id = Some record'
    ∧ status record' = CALLBACK_FAILED
    ∧ callback_last_error record' = Some (str e)
    ∧ last (events_since w w') = Some (EvSave record')
    ∧ queue (pool w') = task_done rest
    ∧ running (pool w') = running (pool w)
    ∧ _active_workers (pool w') = _active_workers (pool w)
    ∧ (running (pool w) = true →
       ∀ fuel, _worker (S fuel) env st w = _worker fuel env st w').
Proof.
  intros Hqueue Hget Hid Hexc Hraises.
  set (wa := {| db := db w;
                pool := {| queue := rest; running := running (pool w);
                           _active_workers := _active_workers (pool w) + 1 |};
                trace := trace w; clock_reads := clock_reads w |}).
  destruct (process_request_with_record env st request_id payload wa record
              Hget Hid)
    as (wp & evs & Hrun & Htrace & Hpool & _ & Hcases).
  assert (process_outcome env st request_id payload = Ok ()
          ∧ ∃ record',
              db wp !! request_id = Some record'
              ∧ status record' = CALLBACK_FAILED
              ∧ callback_last_error record' = Some (str e)
              ∧ last evs = Some (EvSave record'))
    as (Hout & record' & Hget' & Hstatus & Herror & Hlast).
  { unfold process_outcome.
    destruct Hraises as [Hexec | Hdeliver].
    - unfold executor_raises in Hexec. rewrite Hexec in *. rewrite Hexc in *.
      destruct Hcases as [-> Hdb]. split; [reflexivity |].
      eexists. split; [exact Hdb |]. done.
    - destruct (delivery_raises_outcome _ _ _ _ _ Hdeliver) as [Hexec Hd].
      rewrite Hexec in *. rewrite Hd in *. rewrite Hexc.
      destruct Hcases as (more & _ & Hend).
      destruct (Hend Hexc) as [Hlast Hdb]. split; [reflexivity |].
      eexists. split; [exact Hdb |]. done. }
  rewrite Hout in Hrun.
  assert (_worker_iteration env st w
          = (Ok Continue,
             {| db := db wp;
                pool := {| queue := task_done rest;
                           running := running (pool w);
                           _active_workers :=
                             _active_workers (pool w) + 1 + -1 |};
                trace := trace wp; clock_reads := clock_reads wp |}))
    as Hiter.
  { unfold _worker_iteration, try_except, bind at 1, queue_get, bind at 1,
      get_pool at 1.
    rewrite Hqueue. unfold bind at 1, set_pool at 1, ret at 1.
    unfold bind at 1, add_active_workers at 1, bind at 1, get_pool at 1,
      set_pool at 1.
    unfold bind at 1, try_finally.
    match goal with
    | |- context [_process_request env st request_id payload ?x] =>
        change x with wa
    end.
    rewrite Hrun.
    unfold bind, add_active_workers, queue_task_done, get_pool, set_pool, ret.
    simpl. by rewrite Hpool. }
  eexists _, record'. split; [exact Hiter |]. simpl.
  split; [exact Hget' |]. split; [exact Hstatus |]. split; [exact Herror |].
  split; [| split; [done | split; [done | split; [lia |]]]].
  - unfold events_since. simpl. rewrite Htrace. simpl.
    by rewrite drop_app_length.
  - intros Hrunning fuel. simpl. unfold bind at 1, get_pool at 1.
    rewrite Hrunning. unfold bind at 1. by rewrite Hiter, Hrunning.
Qed.

Lemma worker_iteration_isolates_failure_witness :
  (∃ w' record',
     _worker_iteration
       (sample_env (always 200) (Some (PyException "executor shut down")) 0)
       settings (queued_world good_url) = (Ok Continue, w')
     ∧ db w' !! "req-1" = Some record'
     ∧ status record' = CALLBACK_FAILED
     ∧ callback_last_error record' = Some "executor shut down")
  ∧ (∃ w' record',
       _worker_iteration (sample_env crashing None 0) settings
         (queued_world good_url) = (Ok Continue, w')
       ∧ db w' !! "req-1" = Some record'
       ∧ status record' = CALLBACK_FAILED
       ∧ callback_last_error record' = Some "client closed").
Proof.
  split.
  - destruct (worker_iteration_isolates_failure
                (sample_env (always 200)
                   (Some (PyException "executor shut down")) 0)
                settings "req-1" (sample_job good_url)
                (queued_world good_url) (sample_record "req-1" good_url)
                (PyException "executor shut down")
                {| maxsize := 10000; _queue := []; _unfinished_tasks := 1 |}
                ltac:(vm_compute; reflexivity) ltac:(vm_compute; reflexivity)
                ltac:(reflexivity) ltac:(reflexivity)
                ltac:(left; reflexivity))
      as (w' & record' & Hrun & Hget & Hstatus & Herror & _).
    exists w', record'.
    exact (conj Hrun (conj Hget (conj Hstatus Herror))).
  - destruct (worker_iteration_isolates_failure
                (sample_env crashing None 0)
                settings "req-1" (sample_job good_url)
                (queued_world good_url) (sample_record "req-1" good_url)
                (PyException "client closed")
                {| maxsize := 10000; _queue := []; _unfinished_tasks := 1 |}
                ltac:(vm_compute; reflexivity) ltac:(vm_compute; reflexivity)
                ltac:(reflexivity) ltac:(reflexivity)
                ltac:(right; split; [reflexivity |];
                      split; [vm_compute; reflexivity |];
                      exists 1%nat; split; [vm_compute; discriminate |];
                      split; [| split; [reflexivity | exact I]];
                      intros j Hj; replace j with 0%nat by lia;
                      simpl; lia))
      as (w' & record' & Hrun & Hget & Hstatus & Herror & _).
    exists w', record'.
    exact (conj Hrun (conj Hget (conj Hstatus Herror))).
Defined.

(** ** The status life cycle *)

Lemma async_endpoint_run (env : Env) (request_id : string)
    (payload : AsyncWorkPayload) (w : World) :
  let record := new_record env request_id payload
                  (utcnow env (clock_reads w)) in
  async_endpoint env request_id payload w
  = if full (queue (pool w)) then
      (Raise (HTTPException 503 "Server overloaded, please retry later"),
       {| db := <[request_id := rejected_record record]>
                  (<[request_id := record]> (db w));
          pool := pool w;
          trace := trace w ++ [EvSave record; EvSave (rejected_record record)];
          clock_reads := S (clock_reads w) |})
    else
      (Ok request_id,
       {| db := <[request_id := record]> (db w);
          pool := {| queue := {| maxsize := maxsize (queue (pool w));
                                 _queue := _queue (queue (pool w))
                                           ++ [(request_id, payload)];
                                 _unfinished_tasks :=
                                   _unfinished_tasks (queue (pool w)) + 1 |};
                     running := running (pool w);
                     _active_workers := _active_workers (pool w) |};
          trace := trace w ++ [EvSave record];
          clock_reads := S (clock_reads w) |}).
Proof.
  intros record. unfold async_endpoint, enqueue, enqueue_pool, put_nowait.
  run. fold (new_record env request_id payload (utcnow env (clock_reads w))).
  fold record.
  destruct (full (queue (pool w))); simpl; [| reflexivity].
  by rewrite <- app_assoc.
Qed.

Lemma status_writes_app (request_id : string) (t1 t2 : list Event) :
  status_writes request_id (t1 ++ t2)
  = status_writes request_id t1 ++ status_writes request_id t2.
Proof. unfold status_writes. by rewrite saves_app, filter_app, fmap_app. Qed.

Lemma status_writes_save (request_id : string) (r : RequestRecord)
    (t : list Event) :
  id r = request_id →
  status_writes request_id (EvSave r :: t)
  = status r :: status_writes request_id t.
Proof.
  intros Hid. unfold status_writes. simpl. by rewrite filter_cons_True.
Qed.

Lemma only_after_pending_absent (s : RequestStatus)
    (l : list RequestStatus) :
  s ∉ l → only_after_pending s l.
Proof.
  intros Hnot i Hi. exfalso. apply Hnot. by eapply list_elem_of_lookup_2.
Qed.

Lemma only_after_pending_prefix (s : RequestStatus)
    (pre rest : list RequestStatus) :
  s ≠ CALLBACK_PENDING → s ∉ pre →
  only_after_pending s (pre ++ CALLBACK_PENDING :: rest).
Proof.
  intros Hne Hnot i Hi.
  destruct (decide (i < length pre)%nat) as [Hlt | Hge].
  - rewrite lookup_app_l in Hi by exact Hlt.
    exfalso. apply Hnot. by eapply list_elem_of_lookup_2.
  - exists (length pre).
    split; [| by rewrite list_lookup_middle].
    destruct (decide (i = length pre)) as [-> | Hneq]; [| lia].
    rewrite list_lookup_middle in Hi by reflexivity. congruence.
Qed.

(** C5, as the code has it. Over the writes of one request, from the
    endpoint to the end of its processing: [CALLBACK_SUCCESS] is written
    only after [CALLBACK_PENDING]; so is [CALLBACK_FAILED] when the queue
    accepted the job and the executor returned a result. (A refused job and
    a failed computation are written as [CALLBACK_FAILED] directly.) *)
Theorem callback_pending_before_terminal (env : Env) (st : Settings)
    (request_id : string) (payload : AsyncWorkPayload) (w : World) :
  let writes :=
    status_writes request_id
      (events_since w (job_lifecycle env st request_id payload w)) in
  only_after_pending CALLBACK_SUCCESS writes
  ∧ (full (queue (pool w)) = false →
     run_in_executor env request_id (work_payload_of payload) = None →
     passes_through_pending writes).
Proof.
  intros writes. unfold writes, job_lifecycle.
  rewrite async_endpoint_run.
  set (record := new_record env request_id payload _).
  destruct (full (queue (pool w))) eqn:Hfull.
  - split; [| discriminate].
    erewrite events_since_app by reflexivity.
    apply only_after_pending_absent.
    rewrite !status_writes_save by reflexivity. simpl.
    intros Hin. repeat (apply elem_of_cons in Hin as [Hin | Hin];
                        [discriminate |]).
    by apply elem_of_nil in Hin.
  - set (w1 := {| db := <[request_id := record]> (db w) |}).
    destruct (process_request_with_record env st request_id payload w1
                record (lookup_insert_eq _ _ _) eq_refl)
      as (w2 & evs & Hrun & Htrace & _ & _ & Hcases).
    rewrite Hrun. simpl snd.
    rewrite (events_since_app w w2 ([EvSave record] ++ evs))
      by (rewrite Htrace; simpl; by rewrite <- app_assoc).
    simpl app. rewrite status_writes_save by reflexivity.
    destruct (run_in_executor env request_id (work_payload_of payload))
      as [e |].
    + split; [| discriminate].
      apply only_after_pending_absent.
      destruct (is_Exception e).
      * destruct Hcases as [-> _].
        rewrite status_writes_save by reflexivity.
        unfold status_writes at 1. simpl.
        rewrite filter_cons_True by reflexivity. simpl.
        intros Hin. repeat (apply elem_of_cons in Hin as [Hin | Hin];
                            [discriminate |]).
        by apply elem_of_nil in Hin.
      * rewrite Hcases. rewrite status_writes_save by reflexivity.
        unfold status_writes at 1. simpl.
        intros Hin. repeat (apply elem_of_cons in Hin as [Hin | Hin];
                            [discriminate |]).
        by apply elem_of_nil in Hin.
    + destruct Hcases as (rest & -> & _).
      simpl app. rewrite status_writes_save by reflexivity.
      change (EvCompute request_id (work_payload_of payload)
              :: EvSave _ :: rest)
        with ([EvCompute request_id (work_payload_of payload)]
              ++ EvSave (pending_record (computed_result env request_id
                                           payload)
                           (utcnow env (clock_reads w1))
                           (set_status PROCESSING record)) :: rest).
      rewrite status_writes_app.
      change (status_writes request_id
                [EvCompute request_id (work_payload_of payload)])
        with (@nil RequestStatus).
      simpl app. rewrite status_writes_save by reflexivity.
      assert (∀ s, s ≠ CALLBACK_PENDING → s ≠ PENDING → s ≠ PROCESSING →
                   only_after_pending s
                     (status record :: status (set_status PROCESSING record)
                      :: CALLBACK_PENDING :: status_writes request_id rest))
        as Hshape.
      { intros s H1 H2 H3.
        apply (only_after_pending_prefix s [PENDING; PROCESSING]);
          [exact H1 |].
        intros Hin. repeat (apply elem_of_cons in Hin as [Hin | Hin];
                            [congruence |]).
        by apply elem_of_nil in Hin. }
      split; [by apply Hshape |]. intros _ _. split; by apply Hshape.
Qed.

Lemma callback_pending_before_terminal_witness :
  passes_through_pending
    (status_writes "req-2"
       (events_since (world_with good_url)
          (job_lifecycle (sample_env flaky None 0) settings "req-2"
             (sample_job good_url) (world_with good_url)))).
Proof.
  apply (callback_pending_before_terminal (sample_env flaky None 0) settings
           "req-2" (sample_job good_url) (world_with good_url));
    reflexivity.
Defined.

(** C5, as the spec words it, fails: a job offered to a full queue has its
    record, which carries a callback URL, written as [PENDING] and then as
    [CALLBACK_FAILED], with no [CALLBACK_PENDING] in between. *)
Lemma passes_through_pending_counterexample :
  ¬ passes_through_pending
      (status_writes "req-2"
         (events_since full_world
            (job_lifecycle (sample_env (always 200) None 0) settings "req-2"
               (sample_job good_url) full_world))).
Proof.
  intros [_ Hfailed].
  destruct (Hfailed 1%nat ltac:(vm_compute; reflexivity)) as (j & Hj & Hlookup).
  replace j with 0%nat in Hlookup by lia.
  vm_compute in Hlookup. discriminate.
Qed.

(** * Further properties of the code *)

(** ** The validator, exactly *)

Lemma is_private_ip_false_resolves (rs : Resolver) (host : string) :
  is_private_ip rs host = Ok false →
  ∃ ip_str ip, gethostbyname rs host = Ok ip_str
               ∧ ip_address rs ip_str = Some ip ∧ public_address ip.
Proof.
  unfold is_private_ip, public_address.
  destruct (gethostbyname rs host) as [ip_str | []]; try discriminate.
  destruct (ip_address rs ip_str) as [ip |] eqn:Hip; [| discriminate].
  intros [= Hflags]. exists ip_str, ip. split; [done |]. split; [done |].
  revert Hflags.
  destruct (is_private ip), (is_loopback ip), (is_link_local ip),
    (is_reserved ip), (is_multicast ip); simpl; done.
Qed.

(** X1. [is_private_ip] answers false exactly for a host that resolves to an
    address with none of the five flags set; when the resolver raises
    [gaierror] or [ValueError], or its answer is not an address, the answer
    is true. *)
Theorem is_private_ip_false_iff (rs : Resolver) (host : string) :
  (is_private_ip rs host = Ok false
   ↔ ∃ ip_str ip, gethostbyname rs host = Ok ip_str
                  ∧ ip_address rs ip_str = Some ip ∧ public_address ip)
  ∧ (gethostbyname rs host = Raise gaierror
     ∨ gethostbyname rs host = Raise ValueError
     ∨ (∃ ip_str, gethostbyname rs host = Ok ip_str
                  ∧ ip_address rs ip_str = None) →
     is_private_ip rs host = Ok true).
Proof.
  split.
  - split; [apply is_private_ip_false_resolves |].
    intros (ip_str & ip & Hres & Hip & Hpublic).
    by apply (is_private_ip_public rs host ip_str ip).
  - unfold is_private_ip.
    intros [-> | [-> | (ip_str & -> & ->)]]; reflexivity.
Qed.

Lemma is_private_ip_false_iff_witness :
  is_private_ip sample_resolver "example.com" = Ok false
  ∧ is_private_ip sample_resolver "no-such-host.invalid" = Ok true.
Proof.
  split.
  - apply (proj1 (is_private_ip_false_iff sample_resolver "example.com")).
    exists "93.184.216.34", public_ip.
    split; [reflexivity |]. split; [reflexivity |].
    unfold public_address. simpl. auto.
  - apply (proj2 (is_private_ip_false_iff sample_resolver
                    "no-such-host.invalid")).
    left. reflexivity.
Defined.

(** X2. [_is_safe_callback_url] answers true exactly when the URL parses, its
    scheme is in the allow-list and, if private-IP blocking is enabled, its
    host is none of the localhost names and resolves to a public address.
    With blocking disabled the resolver is not consulted. *)
Theorem is_safe_callback_url_iff (st : Settings) (net : Net) (url : string) :
  _is_safe_callback_url st net url = true
  ↔ ∃ parsed,
      urlparse net url = Some parsed
      ∧ scheme parsed ∈ callback_allowed_schemes st
      ∧ (callback_block_private_ips st = true →
         ¬ names_localhost (default "" (hostname parsed))
         ∧ ∃ ip, resolves_to net (default "" (hostname parsed)) ip
                 ∧ public_address ip).
Proof.
  unfold _is_safe_callback_url. split.
  - destruct (urlparse net url) as [parsed |]; [| discriminate].
    destruct (bool_decide (scheme parsed ∈ callback_allowed_schemes st))
      eqn:Hscheme; simpl; [| discriminate].
    apply bool_decide_eq_true_1 in Hscheme.
    intros Hsafe. exists parsed. split; [done |]. split; [done |].
    intros Hblock. rewrite Hblock in Hsafe.
    destruct (bool_decide (lower (default "" (hostname parsed))
                           ∈ LOCALHOST_VARIANTS)) eqn:Hname;
      [discriminate |].
    apply bool_decide_eq_false_1 in Hname.
    split; [by rewrite names_localhost_lower |].
    destruct (is_private_ip (resolver net) (default "" (hostname parsed)))
      as [[] |] eqn:Hprivate; try discriminate.
    apply is_private_ip_false_resolves in Hprivate
      as (ip_str & ip & H1 & H2 & H3).
    exists ip. split; [by exists ip_str | done].
  - intros (parsed & -> & Hscheme & Hblock).
    rewrite bool_decide_eq_true_2 by exact Hscheme. simpl.
    destruct (callback_block_private_ips st); [| reflexivity].
    destruct (Hblock eq_refl) as (Hname & ip & (ip_str & H1 & H2) & Hpublic).
    rewrite bool_decide_eq_false_2 by (by rewrite <- names_localhost_lower).
    by rewrite (is_private_ip_public _ _ _ _ H1 H2 Hpublic).
Qed.

Lemma is_safe_callback_url_iff_witness :
  ∃ parsed,
    urlparse sample_net good_url = Some parsed
    ∧ scheme parsed ∈ callback_allowed_schemes settings
    ∧ ¬ names_localhost (default "" (hostname parsed)).
Proof.
  destruct (proj1 (is_safe_callback_url_iff settings sample_net good_url)
              ltac:(vm_compute; reflexivity))
    as (parsed & Hparse & Hscheme & Hblock).
  exists parsed. split; [exact Hparse |]. split; [exact Hscheme |].
  exact (proj1 (Hblock eq_refl)).
Defined.

(** ** The table after a delivery and after a job *)

Lemma incremented_failures_record (env : Env)
    (request_id callback_url : string) (k attempt : nat)
    (record : RequestRecord) :
  failures_record env request_id callback_url (S k) (S attempt)
    (incremented_record
       (failure_text (http_post env callback_url request_id attempt)) record)
  = failures_record env request_id callback_url (S (S k)) attempt record.
Proof.
  unfold failures_record, incremented_record.
  replace (S attempt + k)%nat with (attempt + S k)%nat by lia.
  destruct record. unfold set_callback_last_error, set_callback_attempts.
  simpl. f_equal. lia.
Qed.

Lemma after_failures_table (env : Env) (st : Settings)
    (request_id callback_url : string) (callback_payload : CallbackPayload)
    (k : nat) :
  ∀ (attempt : nat) (w : World) (record : RequestRecord),
    db w !! request_id = Some record → id record = request_id →
    db (after_failures env st request_id callback_url callback_payload
          k attempt w)
    = match k with
      | O => db w
      | S _ =>
          <[request_id :=
              failures_record env request_id callback_url k attempt record]>
            (db w)
      end.
Proof.
  induction k as [| k IH]; intros attempt w record Hget Hid; [reflexivity |].
  simpl after_failures.
  set (r1 := incremented_record
               (failure_text (http_post env callback_url request_id attempt))
               record).
  set (w1 := after_failed_attempt env st request_id callback_url
               callback_payload attempt w).
  assert (db w1 = <[request_id := r1]> (db w)) as Hdb1.
  { unfold w1, after_failed_attempt. simpl. rewrite Hget.
    destruct (Z.of_nat attempt <? callback_max_retries st); simpl;
      change (id (incremented_record _ record)) with (id record);
      by rewrite Hid. }
  assert (db w1 !! request_id = Some r1) as Hget1
    by (rewrite Hdb1; apply lookup_insert_eq).
  rewrite (IH (S attempt) w1 r1 Hget1 Hid). rewrite Hdb1.
  destruct k as [| k].
  - unfold r1, failures_record, incremented_record.
    by rewrite Nat.add_0_r.
  - rewrite insert_insert_eq. f_equal. apply incremented_failures_record.
Qed.

Lemma failures_record_id (env : Env) (request_id callback_url : string)
    (k attempt : nat) (record : RequestRecord) :
  id (failures_record env request_id callback_url k attempt record)
  = id record.
Proof. by destruct k. Qed.

Lemma after_failures_lookup (env : Env) (st : Settings)
    (request_id callback_url : string) (callback_payload : CallbackPayload)
    (k attempt : nat) (w : World) (record : RequestRecord) :
  db w !! request_id = Some record → id record = request_id →
  db (after_failures env st request_id callback_url callback_payload
        k attempt w) !! request_id
  = Some (failures_record env request_id callback_url k attempt record).
Proof.
  intros Hget Hid.
  rewrite (after_failures_table _ _ _ _ _ k attempt w record Hget Hid).
  destruct k; [exact Hget | apply lookup_insert_eq].
Qed.

Lemma update_callback_status_table (request_id : string) (success : bool)
    (error : option string) (w : World) (record : RequestRecord) :
  db w !! request_id = Some record → id record = request_id →
  db (snd (_update_callback_status request_id success error w))
  = <[request_id := updated_record success error record]> (db w).
Proof.
  intros Hget Hid. rewrite (update_callback_status_some _ _ _ _ _ Hget).
  simpl. replace (id (updated_record success error record)) with request_id;
    [reflexivity |].
  unfold updated_record. by destruct (truthy error).
Qed.

(** The table after a delivery: the record of the request is replaced by
    [delivered_record], nothing else changes. *)
Lemma deliver_callback_table (env : Env) (st : Settings)
    (request_id callback_url : string) (result : WorkResult) (w : World)
    (record : RequestRecord) :
  db w !! request_id = Some record → id record = request_id →
  db (snd (_deliver_callback env st request_id callback_url result w))
  = <[request_id :=
        delivered_record env st request_id callback_url record]> (db w).
Proof.
  intros Hget Hid. unfold delivered_record.
  destruct (_is_safe_callback_url st (net env) callback_url) eqn:Hsafe; simpl.
  - rewrite (deliver_callback_safe _ _ _ _ _ _ Hsafe).
    set (cp := {| cp_request_id := request_id |}).
    set (w0 := {| db := db w |}).
    set (remaining := Z.to_nat (callback_max_retries st + 1)).
    rewrite retry_loop_shape.
    set (k := failing_prefix env request_id callback_url remaining 0).
    set (wk := after_failures env st request_id callback_url cp k 0 w0).
    set (rk := failures_record env request_id callback_url k 0 record).
    assert (db wk !! request_id = Some rk) as Hgetk
      by (apply after_failures_lookup; done).
    assert (id rk = request_id) as Hidk
      by (unfold rk; by rewrite failures_record_id).
    assert (∀ r, <[request_id := r]> (db wk) = <[request_id := r]> (db w))
      as Hover.
    { intros r. unfold wk.
      rewrite (after_failures_table _ _ _ _ _ k 0 w0 record Hget Hid).
      destruct k; [reflexivity | apply insert_insert_eq]. }
    unfold loop_end. change (0 + k)%nat with k.
    destruct (remaining - k)%nat.
    + rewrite (update_callback_status_table _ _ _ _ _ Hgetk Hidk).
      apply Hover.
    + destruct (http_post env callback_url request_id k) as [code | e].
      * simpl snd.
        rewrite (update_callback_status_table request_id true None
                   (logged _ wk) rk Hgetk Hidk).
        apply Hover.
      * simpl. rewrite <- (Hover rk). symmetry. by apply insert_id.
  - unfold _deliver_callback. rewrite Hsafe. simpl negb. cbv iota.
    by apply update_callback_status_table.
Qed.

(** The table after the processing of a job whose request has a record:
    that record is replaced by [processed_record], nothing else changes. *)
Lemma process_request_table (env : Env) (st : Settings)
    (request_id : string) (payload : AsyncWorkPayload) (w : World)
    (record : RequestRecord) :
  db w !! request_id = Some record → id record = request_id →
  db (snd (_process_request env st request_id payload w))
  = <[request_id :=
        processed_record env st request_id payload
          (utcnow env (clock_reads w)) record]> (db w).
Proof.
  intros Hget Hid. unfold _process_request, processed_record.
  unfold bind at 1. unfold get_request at 1. rewrite Hget.
  unfold bind at 1. unfold bind at 1. unfold save_request at 1.
  unfold ret at 1. set (r1 := set_status PROCESSING record).
  fold (saved r1 w).
  unfold bind at 1. unfold try_except at 1. unfold bind at 1.
  change {| data := data (awp_work payload);
            iterations := iterations (awp_work payload) |}
    with (work_payload_of payload).
  rewrite compute_work_async_run.
  set (compute := EvCompute request_id (work_payload_of payload)).
  set (w1 := logged compute (saved r1 w)).
  assert (db w1 = <[request_id := r1]> (db w)) as Hdb1
    by (simpl; change (id r1) with (id record); by rewrite Hid).
  destruct (run_in_executor env request_id (work_payload_of payload))
    as [e |] eqn:Hexec.
  - unfold except_Exception. destruct (is_Exception e) eqn:Hexc.
    + unfold bind at 1. unfold record_failure, save_request, ret.
      cbn [snd fst db]. fold (failed_record e r1).
      change (id (failed_record e r1)) with (id record).
      rewrite Hid, Hdb1. apply insert_insert_eq.
    + exact Hdb1.
  - unfold ret at 1. unfold bind at 1. unfold bind at 1.
    unfold datetime_utcnow at 1. unfold bind at 1.
    unfold save_request at 1. unfold ret at 1. simpl clock_reads.
    set (r2 := pending_record (computed_result env request_id payload)
                 (utcnow env (clock_reads w)) r1).
    change (set_completed_at _ (set_result _ (set_status _ r1))) with r2.
    match goal with |- context [try_except _ _ ?x] => set (w2 := x) end.
    assert (db w2 = <[request_id := r2]> (db w)) as Hdb2.
    { unfold w2. cbn [db]. change (id r2) with (id record).
      rewrite Hid, Hdb1. apply insert_insert_eq. }
    assert (db w2 !! request_id = Some r2) as Hget2
      by (rewrite Hdb2; apply lookup_insert_eq).
    pose proof (deliver_callback_table env st request_id
                  (awp_callback_url payload)
                  (computed_result env request_id payload) w2 r2 Hget2 Hid)
      as Htable.
    destruct (deliver_callback_run env st request_id
                (awp_callback_url payload)
                (computed_result env request_id payload) w2)
      as (w3 & devs & Hrun & _).
    rewrite Hrun in Htable. cbn [snd] in Htable.
    rewrite Hdb2, insert_insert_eq in Htable.
    unfold try_except. rewrite Hrun.
    destruct (deliver_outcome env st request_id (awp_callback_url payload))
      as [[] | e]; [exact Htable |].
    unfold except_Exception. destruct (is_Exception e); [| exact Htable].
    unfold record_failure, save_request. cbn [snd db].
    fold (failed_record e r2). change (id (failed_record e r2)) with (id record).
    rewrite Hid, Htable. apply insert_insert_eq.
Qed.

Lemma updated_record_fields (success : bool) (error : option string)
    (record : RequestRecord) :
  id (updated_record success error record) = id record
  ∧ status (updated_record success error record)
    = (if success then CALLBACK_SUCCESS else CALLBACK_FAILED)
  ∧ callback_attempts (updated_record success error record)
    = callback_attempts record
  ∧ callback_last_error (updated_record success error record)
    = (if truthy error then error else callback_last_error record).
Proof. unfold updated_record. by destruct (truthy error). Qed.

Lemma delivered_record_id (env : Env) (st : Settings)
    (request_id callback_url : string) (record : RequestRecord) :
  id (delivered_record env st request_id callback_url record) = id record.
Proof.
  unfold delivered_record.
  destruct (negb _); [apply updated_record_fields |].
  destruct (_ - _)%nat.
  - rewrite (proj1 (updated_record_fields _ _ _)).
    apply failures_record_id.
  - destruct (http_post _ _ _ _);
      rewrite ?(proj1 (updated_record_fields _ _ _));
      apply failures_record_id.
Qed.

Lemma processed_record_id (env : Env) (st : Settings) (request_id : string)
    (payload : AsyncWorkPayload) (now : Z) (record : RequestRecord) :
  id (processed_record env st request_id payload now record) = id record.
Proof.
  unfold processed_record.
  destruct (run_in_executor _ _ _) as [e |].
  - by destruct (is_Exception e).
  - destruct (deliver_outcome _ _ _ _) as [[] | e];
      [by rewrite delivered_record_id |].
    destruct (is_Exception e); [reflexivity | by rewrite delivered_record_id].
Qed.

(** The frame of [_process_request]: one key of the table at most. *)
Lemma process_request_frame (env : Env) (st : Settings)
    (request_id : string) (payload : AsyncWorkPayload) (w : World) :
  well_keyed (db w) →
  let w' := snd (_process_request env st request_id payload w) in
  well_keyed (db w')
  ∧ (∀ other, other ≠ request_id → db w' !! other = db w !! other)
  ∧ (db w' !! request_id = None ↔ db w !! request_id = None).
Proof.
  intros Hkeys w'. unfold w'.
  destruct (db w !! request_id) as [record |] eqn:Hget.
  - pose proof (Hkeys _ _ Hget) as Hid.
    rewrite (process_request_table env st request_id payload w record
               Hget Hid).
    split; [| split].
    + intros k r. destruct (decide (k = request_id)) as [-> | Hne].
      * rewrite lookup_insert_eq. intros [= <-].
        by rewrite processed_record_id.
      * rewrite lookup_insert_ne by done. apply Hkeys.
    + intros other Hne. by rewrite lookup_insert_ne.
    + rewrite lookup_insert_eq. split; discriminate.
  - destruct (process_request_without_record env st request_id payload w
                Hget) as (w1 & evs & Hrun & _ & _ & _ & _ & Hdb).
    rewrite Hrun. simpl. rewrite Hdb. by rewrite Hget.
Qed.

(** X3. Processing a job touches one record at most: on a table that holds each
    record under its own id, the records of all other ids stay as they are,
    a missing record is not created, a present one is not removed, and the
    table still holds each record under its own id. *)
Theorem process_request_touches_one_record (env : Env) (st : Settings)
    (request_id : string) (payload : AsyncWorkPayload) (w : World) :
  well_keyed (db w) →
  let w' := snd (_process_request env st request_id payload w) in
  well_keyed (db w')
  ∧ (∀ other, other ≠ request_id → db w' !! other = db w !! other)
  ∧ (db w' !! request_id = None ↔ db w !! request_id = None).
Proof. apply process_request_frame. Qed.

Lemma process_request_touches_one_record_witness :
  let w := {| db := {[ "req-1" := sample_record "req-1" good_url;
                       "req-9" := sample_record "req-9" loopback_url ]};
              pool := pool_of 10; trace := []; clock_reads := 0 |} in
  db (snd (_process_request (sample_env (always 500) None 0) settings
             "req-1" (sample_job good_url) w)) !! "req-9"
  = Some (sample_record "req-9" loopback_url).
Proof.
  intros w.
  destruct (process_request_touches_one_record
              (sample_env (always 500) None 0) settings "req-1"
              (sample_job good_url) w) as (_ & Hother & _).
  - intros k r Hlookup. unfold w in Hlookup. simpl in Hlookup.
    apply lookup_insert_Some in Hlookup as [[<- <-] | [_ Hlookup]];
      [reflexivity |].
    by apply lookup_singleton_Some in Hlookup as [<- <-].
  - rewrite (Hother "req-9" ltac:(discriminate)). vm_compute. reflexivity.
Defined.

(** ** Counting the POSTs of a delivery *)

Lemma post_effects_app (fx1 fx2 : list Effect) :
  post_effects (fx1 ++ fx2) = post_effects fx1 ++ post_effects fx2.
Proof.
  induction fx1 as [| e fx1 IH]; simpl; [reflexivity |].
  destruct e; simpl; by rewrite IH.
Qed.

Lemma post_effects_sleeps (ds : list Q) : post_effects (FxSleep <$> ds) = [].
Proof. induction ds as [| d ds IH]; simpl; done. Qed.

Lemma http_attempts_effects (t : list Event) :
  http_attempts t = length (post_effects (effects t)).
Proof.
  unfold http_attempts. induction t as [| ev t IH]; [reflexivity |].
  destruct ev; cbn [effects post_effects].
  - rewrite filter_cons_False by (simpl; discriminate). exact IH.
  - rewrite filter_cons_False by (simpl; discriminate). exact IH.
  - rewrite filter_cons_True by reflexivity. cbn [length]. by rewrite IH.
  - rewrite filter_cons_False by (simpl; discriminate). exact IH.
Qed.

Lemma post_effects_failure_effects (env : Env) (st : Settings)
    (request_id callback_url : string) (result : option WorkResult)
    (k : nat) :
  ∀ attempt,
    post_effects
      (failure_effects env st request_id callback_url result k attempt)
    = post_effect request_id callback_url result <$> seq attempt k.
Proof.
  induction k as [| k IH]; intros attempt; [reflexivity |].
  simpl failure_effects. simpl app. unfold post_effect at 1. simpl.
  rewrite post_effects_app, post_effects_sleeps, IH. reflexivity.
Qed.

(** The POSTs of a delivery, read off its pure description: they are
    numbered from 0 without a gap, and their number is the number of failed
    attempts or one more. *)
Lemma post_effects_deliver_effects (env : Env) (st : Settings)
    (request_id callback_url : string) (result : WorkResult) :
  let remaining := Z.to_nat (callback_max_retries st + 1) in
  let k := if _is_safe_callback_url st (net env) callback_url
           then failing_prefix env request_id callback_url remaining 0
           else 0%nat in
  ∃ n, post_effects (deliver_effects env st request_id callback_url result)
       = post_effect request_id callback_url (Some result) <$> seq 0 n
       ∧ (k ≤ n ≤ S k)%nat ∧ (n ≤ remaining)%nat
       ∧ (_is_safe_callback_url st (net env) callback_url = false →
          n = 0%nat).
Proof.
  intros remaining k. unfold deliver_effects. subst k.
  destruct (_is_safe_callback_url st (net env) callback_url); simpl negb;
    cbv iota; [| exists 0%nat; repeat split; lia].
  fold remaining.
  set (k := failing_prefix env request_id callback_url remaining 0).
  pose proof (failing_prefix_le env request_id callback_url remaining 0)
    as Hk. fold k in Hk.
  rewrite post_effects_app, post_effects_failure_effects.
  destruct (remaining - k)%nat eqn:Hrem.
  - exists k. rewrite app_nil_r. repeat split; (lia || discriminate).
  - exists (S k). rewrite seq_S, fmap_app. simpl.
    repeat split; (lia || discriminate).
Qed.

(** X4. The POSTs of one delivery are numbered without a gap: the [i]-th one,
    counted from 0, goes to the callback URL with the request id in
    [X-Request-ID] and [i + 1] in [X-Attempt], and carries the result. *)
Theorem deliver_posts_numbered (env : Env) (st : Settings)
    (request_id callback_url : string) (result : WorkResult) (w : World) :
  let evs :=
    events_since w
      (snd (_deliver_callback env st request_id callback_url result w)) in
  post_effects (effects evs)
  = post_effect request_id callback_url (Some result)
      <$> seq 0 (http_attempts evs).
Proof.
  intros evs.
  destruct (deliver_callback_run env st request_id callback_url result w)
    as (w' & new & Hrun & Htrace & _ & Hfx & _).
  unfold evs. rewrite Hrun. simpl snd.
  rewrite (events_since_app w w' new Htrace).
  rewrite http_attempts_effects, Hfx.
  destruct (post_effects_deliver_effects env st request_id callback_url
              result) as (n & -> & _).
  by rewrite length_fmap, length_seq.
Qed.

(** X5. No delivery issues more than [callback_max_retries + 1] HTTP requests,
    whatever the receiver answers, and a delivery to a URL the validator
    rejects issues none. *)
Theorem deliver_posts_bounded (env : Env) (st : Settings)
    (request_id callback_url : string) (result : WorkResult) (w : World) :
  let evs :=
    events_since w
      (snd (_deliver_callback env st request_id callback_url result w)) in
  Z.of_nat (http_attempts evs) ≤ Z.max 0 (callback_max_retries st + 1)
  ∧ (_is_safe_callback_url st (net env) callback_url = false →
     http_attempts evs = 0%nat).
Proof.
  intros evs.
  destruct (deliver_callback_run env st request_id callback_url result w)
    as (w' & new & Hrun & Htrace & _ & Hfx & _).
  unfold evs. rewrite Hrun. simpl snd.
  rewrite (events_since_app w w' new Htrace).
  rewrite http_attempts_effects, Hfx.
  destruct (post_effects_deliver_effects env st request_id callback_url
              result) as (n & -> & _ & Hn & Hunsafe).
  rewrite length_fmap, length_seq. split; [lia | exact Hunsafe].
Qed.

Lemma deliver_posts_bounded_witness :
  http_attempts
    (events_since (world_with loopback_url)
       (snd (_deliver_callback (sample_env (always 200) None 0) settings
               "req-1" loopback_url sample_result (world_with loopback_url))))
  = 0%nat.
Proof.
  apply (deliver_posts_bounded (sample_env (always 200) None 0) settings
           "req-1" loopback_url sample_result (world_with loopback_url)).
  vm_compute. reflexivity.
Defined.

(** ** The attempt counter *)

Lemma failures_record_fields (env : Env) (request_id callback_url : string)
    (k attempt : nat) (record : RequestRecord) :
  status (failures_record env request_id callback_url k attempt record)
  = status record
  ∧ callback_attempts
      (failures_record env request_id callback_url k attempt record)
    = callback_attempts record + Z.of_nat k
  ∧ result (failures_record env request_id callback_url k attempt record)
    = result record.
Proof. destruct k; simpl; repeat split; lia. Qed.

Lemma delivered_record_attempts (env : Env) (st : Settings)
    (request_id callback_url : string) (record : RequestRecord) :
  callback_attempts (delivered_record env st request_id callback_url record)
  = callback_attempts record
    + Z.of_nat
        (if _is_safe_callback_url st (net env) callback_url
         then failing_prefix env request_id callback_url
                (Z.to_nat (callback_max_retries st + 1)) 0
         else 0%nat).
Proof.
  unfold delivered_record.
  destruct (_is_safe_callback_url st (net env) callback_url); simpl negb;
    cbv iota.
  - set (k := failing_prefix _ _ _ _ _).
    destruct (_ - _)%nat;
      [| destruct (http_post _ _ _ _)];
      rewrite ?(proj1 (proj2 (proj2 (updated_record_fields _ _ _))));
      apply failures_record_fields.
  - rewrite (proj1 (proj2 (proj2 (updated_record_fields _ _ _)))). simpl.
    lia.
Qed.

(** X6. In every delivery for a request that has a record, [callback_attempts]
    grows by the number of failed attempts: it never decreases, and the
    number of HTTP requests issued is the growth or the growth plus one (the
    one request that was answered with success or raised). *)
Theorem deliver_counts_failed_attempts (env : Env) (st : Settings)
    (request_id callback_url : string) (result : WorkResult) (w : World)
    (record : RequestRecord) :
  db w !! request_id = Some record → id record = request_id →
  let w' := snd (_deliver_callback env st request_id callback_url result w) in
  ∃ record',
    db w' !! request_id = Some record'
    ∧ 0 ≤ callback_attempts record' - callback_attempts record
    ∧ callback_attempts record' - callback_attempts record
      ≤ Z.of_nat (http_attempts (events_since w w'))
    ∧ Z.of_nat (http_attempts (events_since w w'))
      ≤ callback_attempts record' - callback_attempts record + 1.
Proof.
  intros Hget Hid w'. unfold w'.
  rewrite (deliver_callback_table env st request_id callback_url result w
             record Hget Hid).
  eexists. split; [apply lookup_insert_eq |].
  rewrite delivered_record_attempts.
  destruct (deliver_callback_run env st request_id callback_url result w)
    as (w1 & new & Hrun & Htrace & _ & Hfx & _).
  rewrite Hrun. simpl snd. rewrite (events_since_app w w1 new Htrace).
  rewrite http_attempts_effects, Hfx.
  destruct (post_effects_deliver_effects env st request_id callback_url
              result) as (n & -> & Hn & _).
  rewrite length_fmap, length_seq. lia.
Qed.

Lemma deliver_counts_failed_attempts_witness :
  ∃ record',
    db (snd (_deliver_callback (sample_env flaky None 0) settings "req-1"
               good_url sample_result (world_with good_url))) !! "req-1"
    = Some record'
    ∧ 0 ≤ callback_attempts record'.
Proof.
  destruct (deliver_counts_failed_attempts (sample_env flaky None 0) settings
              "req-1" good_url sample_result (world_with good_url)
              (sample_record "req-1" good_url)
              ltac:(vm_compute; reflexivity) ltac:(reflexivity))
    as (record' & Hget & Hgrowth & _).
  exists record'. split; [exact Hget |].
  change (callback_attempts (sample_record "req-1" good_url)) with 0
    in Hgrowth. lia.
Defined.

(** X7. With a negative retry count the loop body never runs: a delivery to an
    accepted URL issues no HTTP request and leaves the record with status
    [CALLBACK_FAILED] and the error "Max retries exceeded: None". *)
Theorem deliver_with_negative_retries (env : Env) (st : Settings)
    (request_id callback_url : string) (result : WorkResult) (w : World)
    (record : RequestRecord) :
  _is_safe_callback_url st (net env) callback_url = true →
  callback_max_retries st < 0 →
  db w !! request_id = Some record → id record = request_id →
  ∃ w' record',
    _deliver_callback env st request_id callback_url result w = (Ok (), w')
    ∧ http_attempts (events_since w w') = 0%nat
    ∧ db w' !! request_id = Some record'
    ∧ status record' = CALLBACK_FAILED
    ∧ callback_attempts record' = callback_attempts record
    ∧ callback_last_error record' = Some "Max retries exceeded: None".
Proof.
  intros Hsafe Hneg Hget Hid.
  rewrite (deliver_callback_safe _ _ _ _ _ _ Hsafe).
  replace (Z.to_nat (callback_max_retries st + 1)) with 0%nat by lia.
  simpl retry_loop.
  set (w0 := {| db := db w |}).
  rewrite (update_callback_status_some request_id false _ w0 record Hget).
  set (record' := updated_record false _ record).
  exists (saved record' w0), record'. split; [reflexivity |].
  rewrite (events_since_app w (saved record' w0) [EvSave record'] eq_refl).
  split; [reflexivity |]. split; [| done].
  simpl. change (id record') with (id record). rewrite Hid.
  apply lookup_insert_eq.
Qed.

Lemma deliver_with_negative_retries_witness :
  let st := {| async_worker_count := 10; async_queue_max_size := 10000;
               callback_timeout_seconds := 10; callback_max_retries := -1;
               callback_retry_base_delay := 1; callback_retry_max_delay := 30;
               callback_block_private_ips := true;
               callback_allowed_schemes := {[ "http"; "https" ]};
               max_stored_requests := 100000;
               request_retention_hours := 24 |} in
  ∃ w' record',
    _deliver_callback (sample_env (always 200) None 0) st "req-1" good_url
      sample_result (world_with good_url) = (Ok (), w')
    ∧ db w' !! "req-1" = Some record'
    ∧ status record' = CALLBACK_FAILED.
Proof.
  intros st.
  destruct (deliver_with_negative_retries (sample_env (always 200) None 0)
              st "req-1" good_url sample_result (world_with good_url)
              (sample_record "req-1" good_url)
              ltac:(vm_compute; reflexivity) ltac:(reflexivity)
              ltac:(vm_compute; reflexivity) ltac:(reflexivity))
    as (w' & record' & Hrun & _ & Hget & Hstatus & _).
  exists w', record'. exact (conj Hrun (conj Hget Hstatus)).
Defined.

(** X8. A success does not clear the error text: when the attempts up to index
    [k] fail and attempt [k + 1] is answered with a status code in
    [200, 300), the record ends with status [CALLBACK_SUCCESS] and still
    shows, in [callback_last_error], the text of the failure of attempt
    [k]. *)
Theorem success_keeps_last_error (env : Env) (st : Settings)
    (request_id callback_url : string) (result : WorkResult) (w : World)
    (record : RequestRecord) (k : nat) (status_code : Z) :
  _is_safe_callback_url st (net env) callback_url = true →
  db w !! request_id = Some record → id record = request_id →
  Z.of_nat (S k) ≤ callback_max_retries st →
  (∀ j : nat, (j ≤ k)%nat →
     attempt_fails (http_post env callback_url request_id j)) →
  http_post env callback_url request_id (S k) = Ok status_code →
  200 ≤ status_code < 300 →
  ∃ record',
    db (snd (_deliver_callback env st request_id callback_url result w))
      !! request_id = Some record'
    ∧ status record' = CALLBACK_SUCCESS
    ∧ callback_last_error record'
      = Some (failure_text (http_post env callback_url request_id k)).
Proof.
  intros Hsafe Hget Hid Hk Hfail Hpost Hcode.
  rewrite (deliver_callback_table env st request_id callback_url result w
             record Hget Hid).
  eexists. split; [apply lookup_insert_eq |].
  unfold delivered_record. rewrite Hsafe. simpl negb. cbv iota.
  rewrite (failing_prefix_eq env request_id callback_url
             (Z.to_nat (callback_max_retries st + 1)) 0 (S k));
    [| lia | intros j Hj; apply Hfail; lia
     | simpl; rewrite Hpost; simpl;
       apply negb_false_iff, andb_true_iff;
       split; [apply Z.leb_le | apply Z.ltb_lt]; lia].
  replace (Z.to_nat (callback_max_retries st + 1) - S k)%nat
    with (S (Z.to_nat (callback_max_retries st) - S k)) by lia.
  rewrite Hpost. split; reflexivity.
Qed.

Lemma success_keeps_last_error_witness :
  ∃ record',
    db (snd (_deliver_callback (sample_env flaky None 0) settings "req-1"
               good_url sample_result (world_with good_url))) !! "req-1"
    = Some record'
    ∧ status record' = CALLBACK_SUCCESS
    ∧ callback_last_error record' = Some "HTTP 500".
Proof.
  exact (success_keeps_last_error (sample_env flaky None 0) settings "req-1"
           good_url sample_result (world_with good_url)
           (sample_record "req-1" good_url) 2 200
           ltac:(vm_compute; reflexivity) ltac:(vm_compute; reflexivity)
           ltac:(reflexivity) ltac:(vm_compute; discriminate)
           ltac:(intros j Hj; unfold flaky; simpl;
                 destruct (Nat.ltb_spec j 3); [simpl; lia | lia])
           ltac:(reflexivity) ltac:(lia)).
Defined.

(** ** What the handler of [_process_request] writes *)

(** X9. When the delivery raises an [Exception] after any number of failed
    attempts, the handler writes the worker's own copy of the record, taken
    before the delivery: the record ends with status [CALLBACK_FAILED], the
    text of the exception, the result attached, and [callback_attempts] at
    the value it had before the delivery; the increments written during the
    delivery are overwritten. *)
Theorem failed_delivery_overwrites_attempts (env : Env) (st : Settings)
    (request_id : string) (payload : AsyncWorkPayload) (w : World)
    (record : RequestRecord) (e : exn) :
  db w !! request_id = Some record → id record = request_id →
  is_Exception e = true →
  delivery_raises env st request_id payload e →
  ∃ record',
    db (snd (_process_request env st request_id payload w)) !! request_id
    = Some record'
    ∧ status record' = CALLBACK_FAILED
    ∧ callback_last_error record' = Some (str e)
    ∧ callback_attempts record' = callback_attempts record
    ∧ result record' = Some (computed_result env request_id payload).
Proof.
  intros Hget Hid Hexc Hraises.
  destruct (delivery_raises_outcome _ _ _ _ _ Hraises) as [Hexec Hout].
  rewrite (process_request_table env st request_id payload w record Hget Hid).
  eexists. split; [apply lookup_insert_eq |].
  unfold processed_record. rewrite Hexec, Hout, Hexc. done.
Qed.

Lemma failed_delivery_overwrites_attempts_witness :
  ∃ record',
    db (snd (_process_request (sample_env crashing None 0) settings "req-1"
               (sample_job good_url) (world_with good_url))) !! "req-1"
    = Some record'
    ∧ status record' = CALLBACK_FAILED
    ∧ callback_attempts record' = 0.
Proof.
  destruct (failed_delivery_overwrites_attempts (sample_env crashing None 0)
              settings "req-1" (sample_job good_url) (world_with good_url)
              (sample_record "req-1" good_url) (PyException "client closed")
              ltac:(vm_compute; reflexivity) ltac:(reflexivity)
              ltac:(reflexivity)
              ltac:(split; [reflexivity |];
                    split; [vm_compute; reflexivity |];
                    exists 1%nat; split; [vm_compute; discriminate |];
                    split; [| split; [reflexivity | exact I]];
                    intros j Hj; replace j with 0%nat by lia;
                    simpl; lia))
    as (record' & Hget & Hstatus & _ & Hattempts & _).
  exists record'. exact (conj Hget (conj Hstatus Hattempts)).
Defined.

(** ** Every job ends *)

Lemma deliver_outcome_raises (env : Env) (st : Settings)
    (request_id callback_url : string) (e : exn) :
  deliver_outcome env st request_id callback_url = Raise e →
  ∃ k, http_post env callback_url request_id k = Raise e.
Proof.
  unfold deliver_outcome.
  destruct (negb _); [discriminate |].
  destruct (_ - _)%nat; [discriminate |].
  set (k := failing_prefix _ _ _ _ _).
  destruct (http_post env callback_url request_id k) eqn:Hpost;
    [discriminate |].
  intros [= <-]. by exists k.
Qed.

Lemma process_outcome_ok (env : Env) (st : Settings) (request_id : string)
    (payload : AsyncWorkPayload) :
  never_cancelled env →
  process_outcome env st request_id payload = Ok ().
Proof.
  intros [Hexec Hpost]. unfold process_outcome.
  destruct (run_in_executor env request_id (work_payload_of payload))
    as [e |] eqn:Hrun.
  - destruct e; try reflexivity. by apply Hexec in Hrun.
  - destruct (deliver_outcome env st request_id (awp_callback_url payload))
      as [[] | e] eqn:Hout; [reflexivity |].
    destruct e; try reflexivity.
    apply deliver_outcome_raises in Hout as [k Hk]. by apply Hpost in Hk.
Qed.

(** X10. The processing of a job whose request has a record, when no cancellation
    arrives, returns normally and leaves the record in a terminal status,
    [CALLBACK_SUCCESS] or [CALLBACK_FAILED], whatever the executor and the
    receiver do. *)
Theorem process_request_reaches_terminal (env : Env) (st : Settings)
    (request_id : string) (payload : AsyncWorkPayload) (w : World)
    (record : RequestRecord) :
  db w !! request_id = Some record → id record = request_id →
  never_cancelled env →
  ∃ w' record',
    _process_request env st request_id payload w = (Ok (), w')
    ∧ db w' !! request_id = Some record'
    ∧ terminal (status record').
Proof.
  intros Hget Hid Hnever.
  pose proof (process_request_table env st request_id payload w record
                Hget Hid) as Htable.
  destruct (process_request_with_record env st request_id payload w record
              Hget Hid) as (w' & evs & Hrun & _).
  rewrite Hrun in Htable. simpl in Htable.
  rewrite (process_outcome_ok env st request_id payload Hnever) in Hrun.
  exists w'. eexists. split; [exact Hrun |].
  split; [rewrite Htable; apply lookup_insert_eq |].
  unfold processed_record, terminal.
  destruct Hnever as [Hexec Hpost].
  destruct (run_in_executor env request_id (work_payload_of payload))
    as [e |] eqn:Hexecuted.
  - destruct e; try (by right). by apply Hexec in Hexecuted.
  - destruct (deliver_outcome env st request_id (awp_callback_url payload))
      as [[] | e] eqn:Hout.
    + revert Hout. unfold deliver_outcome, delivered_record.
      destruct (negb _); [intros _; right; apply updated_record_fields |].
      destruct (_ - _)%nat;
        [intros _; right; apply updated_record_fields |].
      destruct (http_post _ _ _ _); [| discriminate].
      intros _. left. apply updated_record_fields.
    + destruct e; try (by right).
      apply deliver_outcome_raises in Hout as [k Hk]. by apply Hpost in Hk.
Qed.

Lemma process_request_reaches_terminal_witness :
  ∃ w' record',
    _process_request (sample_env flaky None 0) settings "req-1"
      (sample_job good_url) (world_with good_url) = (Ok (), w')
    ∧ db w' !! "req-1" = Some record'
    ∧ terminal (status record').
Proof.
  exact (process_request_reaches_terminal (sample_env flaky None 0) settings
           "req-1" (sample_job good_url) (world_with good_url)
           (sample_record "req-1" good_url)
           ltac:(vm_compute; reflexivity) ltac:(reflexivity)
           ltac:(split; [discriminate |];
                 intros url rid k; unfold flaky; simpl;
                 destruct (k <? 3)%nat; discriminate)).
Defined.

(** ** The worker loop *)

Lemma process_request_pool (env : Env) (st : Settings) (request_id : string)
    (payload : AsyncWorkPayload) (w : World) :
  well_keyed (db w) →
  ∃ w', _process_request env st request_id payload w
        = (process_outcome env st request_id payload, w')
        ∧ pool w' = pool w.
Proof.
  intros Hkeys. destruct (db w !! request_id) as [record |] eqn:Hget.
  - destruct (process_request_with_record env st request_id payload w record
                Hget (Hkeys _ _ Hget)) as (w' & evs & Hrun & _ & Hpool & _).
    by exists w'.
  - destruct (process_request_without_record env st request_id payload w
                Hget) as (w' & evs & Hrun & _ & Hpool & _).
    by exists w'.
Qed.

(** One pass through the worker loop, in full: on an empty queue nothing
    happens; otherwise the oldest job is processed, the job is marked done,
    and the pass asks to leave the loop exactly when the processing was
    cancelled. *)
Lemma worker_iteration_run (env : Env) (st : Settings) (w : World) :
  well_keyed (db w) →
  match get_nowait (queue (pool w)) with
  | None => _worker_iteration env st w = (Ok Continue, w)
  | Some ((request_id, payload), rest) =>
      ∃ w',
        _worker_iteration env st w
        = (Ok (match process_outcome env st request_id payload with
               | Raise CancelledError => Break
               | _ => Continue
               end), w')
        ∧ queue (pool w') = task_done rest
        ∧ running (pool w') = running (pool w)
        ∧ _active_workers (pool w') = _active_workers (pool w)
        ∧ db w'
          = db (snd (_process_request env st request_id payload
                       {| db := db w;
                          pool := {| queue := rest;
                                     running := running (pool w);
                                     _active_workers :=
                                       _active_workers (pool w) + 1 |};
                          trace := trace w;
                          clock_reads := clock_reads w |}))
  end.
Proof.
  intros Hkeys.
  destruct (get_nowait (queue (pool w))) as [[[request_id payload] rest] |]
    eqn:Hqueue.
  - set (wa := {| db := db w |}).
    destruct (process_request_pool env st request_id payload wa Hkeys)
      as (wp & Hrun & Hpool).
    exists {| db := db wp;
              pool := {| queue := task_done rest;
                         running := running (pool w);
                         _active_workers :=
                           _active_workers (pool w) + 1 + -1 |};
              trace := trace wp; clock_reads := clock_reads wp |}.
    split; [| simpl; rewrite Hrun; repeat split; lia].
    unfold _worker_iteration, try_except, bind at 1, queue_get, bind at 1,
      get_pool at 1.
    rewrite Hqueue. unfold bind at 1, set_pool at 1, ret at 1.
    unfold bind at 1, add_active_workers at 1, bind at 1, get_pool at 1,
      set_pool at 1.
    unfold bind at 1, try_finally.
    match goal with
    | |- context [_process_request env st request_id payload ?x] =>
        change x with wa
    end.
    rewrite Hrun.
    unfold bind, add_active_workers, queue_task_done, get_pool, set_pool, ret.
    simpl. rewrite Hpool. simpl.
    destruct (process_outcome env st request_id payload) as [[] | e];
      [reflexivity |].
    by destruct e.
  - unfold _worker_iteration, try_except, bind at 1, queue_get, bind at 1,
      get_pool at 1.
    by rewrite Hqueue.
Qed.

(** The outcome of a pass, for every world with a well keyed table. *)
Lemma worker_iteration_total (env : Env) (st : Settings)
    (w : World) :
  well_keyed (db w) →
  ∃ ctl w',
    _worker_iteration env st w = (Ok ctl, w')
    ∧ running (pool w') = running (pool w)
    ∧ _active_workers (pool w') = _active_workers (pool w)
    ∧ well_keyed (db w')
    ∧ (ctl = Break → ¬ never_cancelled env)
    ∧ (get_nowait (queue (pool w)) = None → w' = w ∧ ctl = Continue)
    ∧ (∀ job rest, get_nowait (queue (pool w)) = Some (job, rest) →
         queue (pool w') = task_done rest).
Proof.
  intros Hkeys. pose proof (worker_iteration_run env st w Hkeys) as Hrun.
  destruct (get_nowait (queue (pool w))) as [[[request_id payload] rest] |].
  - destruct Hrun as (w' & Hrun & Hqueue & Hrunning & Hactive & Hdb).
    eexists _, w'. split; [exact Hrun |].
    split; [exact Hrunning |]. split; [exact Hactive |].
    split; [| split; [| split; [discriminate |]]].
    + rewrite Hdb.
      by apply (process_request_frame env st request_id payload
                  {| db := db w |}).
    + intros Hbreak Hnever.
      rewrite (process_outcome_ok env st request_id payload Hnever)
        in Hbreak. discriminate.
    + by intros job rest' [= _ <-].
  - eexists _, w. split; [exact Hrun |]. repeat split; try done.
Qed.

(** X11. No exception leaves a pass through the worker loop, whatever the job,
    the executor and the receiver do. The pass leaves [running] and the
    count of active workers as they were (the count is restored by the
    [finally] clause even when the job is cancelled), keeps the table
    well keyed, and asks to leave the loop only when a cancellation
    arrived; on an empty queue it changes nothing. *)
Theorem worker_iteration_never_raises (env : Env) (st : Settings)
    (w : World) :
  well_keyed (db w) →
  ∃ ctl w',
    _worker_iteration env st w = (Ok ctl, w')
    ∧ running (pool w') = running (pool w)
    ∧ _active_workers (pool w') = _active_workers (pool w)
    ∧ well_keyed (db w')
    ∧ (ctl = Break → ¬ never_cancelled env)
    ∧ (get_nowait (queue (pool w)) = None → w' = w ∧ ctl = Continue)
    ∧ (∀ job rest, get_nowait (queue (pool w)) = Some (job, rest) →
         queue (pool w') = task_done rest).
Proof. apply worker_iteration_total. Qed.

Lemma worker_iteration_never_raises_witness :
  ∃ ctl w',
    _worker_iteration (sample_env (always 200) (Some CancelledError) 0)
      settings (queued_world good_url) = (Ok ctl, w')
    ∧ _active_workers (pool w') = 0.
Proof.
  destruct (worker_iteration_never_raises
              (sample_env (always 200) (Some CancelledError) 0) settings
              (queued_world good_url))
    as (ctl & w' & Hrun & _ & Hactive & _).
  - intros k r Hlookup. simpl in Hlookup.
    by apply lookup_singleton_Some in Hlookup as [<- <-].
  - exists ctl, w'. exact (conj Hrun Hactive).
Defined.

(** X12. A worker whose pool is not running leaves its loop at once and touches
    nothing. A worker whose pool is running, and to which no cancellation is
    delivered, does not leave its loop: any number of passes is used up,
    and after [fuel] passes the queue has handed out its [fuel] oldest
    jobs, in order. *)
Theorem worker_runs_until_cancelled (env : Env) (st : Settings) :
  (∀ fuel w, running (pool w) = false →
     _worker (S fuel) env st w = (Ok (Some tt), w))
  ∧ (never_cancelled env →
     ∀ fuel w, well_keyed (db w) → running (pool w) = true →
       ∃ w', _worker fuel env st w = (Ok None, w')
             ∧ _queue (queue (pool w'))
               = drop fuel (_queue (queue (pool w)))).
Proof.
  split.
  - intros fuel w Hstopped. simpl. unfold bind, get_pool.
    by rewrite Hstopped.
  - intros Hnever fuel. induction fuel as [| fuel IH];
      intros w Hkeys Hrunning.
    + exists w. split; [reflexivity | by rewrite drop_0].
    + destruct (worker_iteration_total env st w Hkeys)
        as (ctl & w1 & Hrun & Hrunning1 & _ & Hkeys1 & Hbreak & Hidle & Hjob).
      assert (ctl = Continue) as ->
        by (destruct ctl; [reflexivity | by destruct (Hbreak eq_refl)]).
      destruct (IH w1 Hkeys1 ltac:(by rewrite Hrunning1))
        as (w' & Hloop & Hqueue).
      exists w'. split.
      * simpl. unfold bind at 1, get_pool at 1. rewrite Hrunning.
        unfold bind at 1. by rewrite Hrun.
      * rewrite Hqueue.
        unfold get_nowait in Hidle, Hjob.
        destruct (_queue (queue (pool w))) as [| job jobs] eqn:Hitems.
        -- destruct (Hidle eq_refl) as [-> _]. rewrite Hitems.
           by rewrite !drop_nil.
        -- rewrite (Hjob job _ eq_refl). reflexivity.
Qed.

Lemma worker_runs_until_cancelled_witness :
  ∃ w', _worker 3 (sample_env flaky None 0) settings (queued_world good_url)
        = (Ok None, w')
        ∧ _queue (queue (pool w')) = [].
Proof.
  destruct (proj2 (worker_runs_until_cancelled (sample_env flaky None 0)
                     settings)
              ltac:(split; [discriminate |];
                    intros url rid k; unfold flaky; simpl;
                    destruct (k <? 3)%nat; discriminate)
              3%nat (queued_world good_url)
              ltac:(intros k r Hlookup; simpl in Hlookup;
                    by apply lookup_singleton_Some in Hlookup as [<- <-])
              ltac:(reflexivity))
    as (w' & Hrun & Hqueue).
  exists w'. exact (conj Hrun Hqueue).
Defined.

(** ** Offering jobs to the queue *)

Lemma enqueue_pool_room (p : Pool) (request_id : string)
    (payload : AsyncWorkPayload) :
  0 < maxsize (queue p) → qsize (queue p) < maxsize (queue p) →
  ∃ p', enqueue_pool p request_id payload = (true, p')
        ∧ maxsize (queue p') = maxsize (queue p)
        ∧ _queue (queue p') = _queue (queue p) ++ [(request_id, payload)].
Proof.
  intros Hpos Hroom. unfold enqueue_pool, put_nowait.
  replace (full (queue p)) with false; [by eexists |].
  symmetry. destruct (full (queue p)) eqn:Hfull; [| reflexivity].
  apply (full_iff _ Hpos) in Hfull. lia.
Qed.

Lemma enqueue_pool_full (p : Pool) (request_id : string)
    (payload : AsyncWorkPayload) :
  0 < maxsize (queue p) → maxsize (queue p) ≤ qsize (queue p) →
  enqueue_pool p request_id payload = (false, p).
Proof.
  intros Hpos Hfull. unfold enqueue_pool, put_nowait.
  by rewrite (proj2 (full_iff _ Hpos) Hfull).
Qed.

Lemma enqueue_all_bounded (jobs : list (string * AsyncWorkPayload)) :
  ∀ p,
    0 < maxsize (queue p) → qsize (queue p) ≤ maxsize (queue p) →
    let room := Z.to_nat (maxsize (queue p) - qsize (queue p)) in
    fst (enqueue_all p jobs)
    = replicate (min room (length jobs)) true
      ++ replicate (length jobs - room) false
    ∧ _queue (queue (snd (enqueue_all p jobs)))
      = _queue (queue p) ++ take room jobs
    ∧ maxsize (queue (snd (enqueue_all p jobs))) = maxsize (queue p).
Proof.
  induction jobs as [| [request_id payload] jobs IH]; intros p Hpos Hle room.
  - simpl. rewrite Nat.min_0_r, take_nil, !app_nil_r. done.
  - simpl enqueue_all.
    destruct (decide (qsize (queue p) < maxsize (queue p))) as [Hroom | Hfull].
    + destruct (enqueue_pool_room p request_id payload Hpos Hroom)
        as (p' & -> & Hmax & Hitems).
      assert (qsize (queue p') = qsize (queue p) + 1) as Hsize.
      { unfold qsize. rewrite Hitems, length_app. simpl. lia. }
      destruct (IH p' ltac:(lia) ltac:(lia)) as (Hoks & Hqueue & Hmax').
      destruct (enqueue_all p' jobs) as [oks p'']. simpl in *.
      rewrite Hoks, Hqueue, Hmax', Hitems, Hmax, Hsize.
      replace room with (S (Z.to_nat (maxsize (queue p)
                                      - (qsize (queue p) + 1))))
        by (unfold room; lia).
      simpl. rewrite <- app_assoc. done.
    + rewrite (enqueue_pool_full p request_id payload Hpos ltac:(lia)).
      destruct (IH p Hpos Hle) as (Hoks & Hqueue & Hmax').
      destruct (enqueue_all p jobs) as [oks p'']. simpl in *.
      rewrite Hoks, Hqueue, Hmax'.
      replace room with 0%nat by (unfold room; lia).
      replace (Z.to_nat (maxsize (queue p) - qsize (queue p))) with 0%nat
        by lia.
      simpl. rewrite !Nat.sub_0_r. done.
Qed.

Lemma enqueue_all_unbounded (jobs : list (string * AsyncWorkPayload)) :
  ∀ p, maxsize (queue p) ≤ 0 →
    fst (enqueue_all p jobs) = replicate (length jobs) true
    ∧ _queue (queue (snd (enqueue_all p jobs))) = _queue (queue p) ++ jobs.
Proof.
  induction jobs as [| [request_id payload] jobs IH]; intros p Hmax.
  - simpl. by rewrite app_nil_r.
  - simpl enqueue_all. unfold enqueue_pool, put_nowait, full.
    destruct (Z.leb_spec (maxsize (queue p)) 0) as [_ | ?]; [| lia].
    set (p' := {| queue := _ |}).
    destruct (IH p' Hmax) as (Hoks & Hqueue).
    destruct (enqueue_all p' jobs) as [oks p'']. simpl in *.
    rewrite Hoks, Hqueue. by rewrite <- app_assoc.
Qed.

(** X13. Jobs offered one after the other with no worker taking any: a queue of
    capacity at least one accepts the jobs it has room for and refuses all
    later ones, holds the accepted jobs behind the former ones in the order
    offered, and never holds more than its capacity; a queue built with a
    capacity of zero or less accepts every job. *)
Theorem enqueue_all_backpressure (p : Pool)
    (jobs : list (string * AsyncWorkPayload)) :
  (0 < maxsize (queue p) → qsize (queue p) ≤ maxsize (queue p) →
   let room := Z.to_nat (maxsize (queue p) - qsize (queue p)) in
   fst (enqueue_all p jobs)
   = replicate (min room (length jobs)) true
     ++ replicate (length jobs - room) false
   ∧ _queue (queue (snd (enqueue_all p jobs)))
     = _queue (queue p) ++ take room jobs
   ∧ qsize (queue (snd (enqueue_all p jobs))) ≤ maxsize (queue p))
  ∧ (maxsize (queue p) ≤ 0 →
     fst (enqueue_all p jobs) = replicate (length jobs) true
     ∧ _queue (queue (snd (enqueue_all p jobs))) = _queue (queue p) ++ jobs).
Proof.
  split.
  - intros Hpos Hle room.
    destruct (enqueue_all_bounded jobs p Hpos Hle) as (Hoks & Hqueue & _).
    split; [exact Hoks |]. split; [exact Hqueue |].
    unfold qsize in *. rewrite Hqueue, length_app, length_take. lia.
  - apply enqueue_all_unbounded.
Qed.

(** The scenario of a queue of capacity one and five jobs offered in a row:
    the first is accepted, the other four are refused. *)
Lemma enqueue_all_backpressure_witness :
  fst (enqueue_all (pool_of 1)
         [("a", sample_job good_url); ("b", sample_job good_url);
          ("c", sample_job good_url); ("d", sample_job good_url);
          ("e", sample_job good_url)])
  = [true; false; false; false; false]
  ∧ fst (enqueue_all (pool_of 0)
           [("a", sample_job good_url); ("b", sample_job good_url)])
    = [true; true].
Proof.
  split.
  - apply (proj1 (enqueue_all_backpressure (pool_of 1)
                    [("a", sample_job good_url); ("b", sample_job good_url);
                     ("c", sample_job good_url); ("d", sample_job good_url);
                     ("e", sample_job good_url)])); vm_compute; done.
  - apply (proj2 (enqueue_all_backpressure (pool_of 0)
                    [("a", sample_job good_url); ("b", sample_job good_url)])).
    vm_compute. discriminate.
Defined.

(** ** The [/async] endpoint *)

(** X14. [POST /async]: when the queue has room the request is acknowledged with
    its id, its record is stored as [PENDING] with the callback URL and no
    attempts, and the job is put behind the jobs already queued; when the
    queue is full the endpoint raises HTTP 503, the record is stored as
    [CALLBACK_FAILED] with the error "Server overloaded - queue full" and
    the pool is as before. The records of other ids are not touched. *)
Theorem async_endpoint_contract (env : Env) (request_id : string)
    (payload : AsyncWorkPayload) (w : World) :
  let record := new_record env request_id payload
                  (utcnow env (clock_reads w)) in
  ∃ out w',
    async_endpoint env request_id payload w = (out, w')
    ∧ (full (queue (pool w)) = false →
       out = Ok request_id
       ∧ db w' !! request_id = Some record
       ∧ _queue (queue (pool w'))
         = _queue (queue (pool w)) ++ [(request_id, payload)]
       ∧ status_writes request_id (events_since w w') = [PENDING])
    ∧ (full (queue (pool w)) = true →
       out = Raise (HTTPException 503 "Server overloaded, please retry later")
       ∧ db w' !! request_id = Some (rejected_record record)
       ∧ pool w' = pool w
       ∧ status_writes request_id (events_since w w')
         = [PENDING; CALLBACK_FAILED])
    ∧ (∀ other, other ≠ request_id → db w' !! other = db w !! other).
Proof.
  intros record. rewrite async_endpoint_run. fold record.
  destruct (full (queue (pool w))); eexists _, _;
    (split; [reflexivity |]); simpl.
  - split; [discriminate |]. split.
    + intros _. split; [reflexivity |].
      split; [apply lookup_insert_eq |]. split; [reflexivity |].
      erewrite events_since_app by reflexivity.
      by rewrite !status_writes_save.
    + intros other Hne. by rewrite !lookup_insert_ne.
  - split.
    + intros _. split; [reflexivity |].
      split; [apply lookup_insert_eq |]. split; [reflexivity |].
      erewrite events_since_app by reflexivity.
      by rewrite !status_writes_save.
    + split; [discriminate |].
      intros other Hne. by rewrite !lookup_insert_ne.
Qed.

Lemma async_endpoint_contract_witness :
  (∃ w', async_endpoint (sample_env (always 200) None 0) "req-2"
           (sample_job good_url) full_world
         = (Raise (HTTPException 503 "Server overloaded, please retry later"),
            w')
         ∧ pool w' = pool full_world)
  ∧ (∃ w', async_endpoint (sample_env (always 200) None 0) "req-2"
             (sample_job good_url) (world_with good_url) = (Ok "req-2", w')
           ∧ _queue (queue (pool w')) = [("req-2", sample_job good_url)]).
Proof.
  split.
  - destruct (async_endpoint_contract (sample_env (always 200) None 0)
                "req-2" (sample_job good_url) full_world)
      as (out & w' & Hrun & _ & Hfull & _).
    destruct (Hfull ltac:(vm_compute; reflexivity)) as (-> & _ & Hpool & _).
    exists w'. exact (conj Hrun Hpool).
  - destruct (async_endpoint_contract (sample_env (always 200) None 0)
                "req-2" (sample_job good_url) (world_with good_url))
      as (out & w' & Hrun & Hroom & _).
    destruct (Hroom ltac:(vm_compute; reflexivity)) as (-> & _ & Hqueue & _).
    exists w'. exact (conj Hrun Hqueue).
Defined.

(** ** From acceptance to the terminal status *)

Lemma processed_record_terminal (env : Env) (st : Settings)
    (request_id : string) (payload : AsyncWorkPayload) (now : Z)
    (record : RequestRecord) :
  never_cancelled env →
  terminal (status (processed_record env st request_id payload now record)).
Proof.
  intros [Hexec Hpost]. unfold processed_record, terminal.
  destruct (run_in_executor env request_id (work_payload_of payload))
    as [e |] eqn:Hexecuted.
  - destruct e; try (by right). by apply Hexec in Hexecuted.
  - destruct (deliver_outcome env st request_id (awp_callback_url payload))
      as [[] | e] eqn:Hout.
    + revert Hout. unfold deliver_outcome, delivered_record.
      destruct (negb _); [intros _; right; apply updated_record_fields |].
      destruct (_ - _)%nat;
        [intros _; right; apply updated_record_fields |].
      destruct (http_post _ _ _ _); [| discriminate].
      intros _. left. apply updated_record_fields.
    + destruct e; try (by right).
      apply deliver_outcome_raises in Hout as [k Hk]. by apply Hpost in Hk.
Qed.

(** X15. A job accepted into an empty queue and taken by a worker to which no
    cancellation is delivered: the endpoint acknowledges, the worker's pass
    ends normally, the record is in a terminal status, the queue is empty
    again, and the counts of unfinished tasks and of active workers are
    back to what they were. *)
Theorem accepted_job_is_processed (env : Env) (st : Settings)
    (request_id : string) (payload : AsyncWorkPayload) (w : World) :
  well_keyed (db w) → never_cancelled env →
  _queue (queue (pool w)) = [] → full (queue (pool w)) = false →
  ∃ w1 w2 record',
    async_endpoint env request_id payload w = (Ok request_id, w1)
    ∧ _worker_iteration env st w1 = (Ok Continue, w2)
    ∧ db w2 !! request_id = Some record'
    ∧ terminal (status record')
    ∧ _queue (queue (pool w2)) = []
    ∧ _unfinished_tasks (queue (pool w2)) = _unfinished_tasks (queue (pool w))
    ∧ _active_workers (pool w2) = _active_workers (pool w).
Proof.
  intros Hkeys Hnever Hempty Hroom.
  rewrite async_endpoint_run, Hroom, Hempty.
  set (record := new_record env request_id payload _).
  set (w1 := {| db := <[request_id := record]> (db w) |}).
  assert (well_keyed (db w1)) as Hkeys1.
  { intros k r. unfold w1. simpl.
    destruct (decide (k = request_id)) as [-> | Hne].
    - rewrite lookup_insert_eq. by intros [= <-].
    - rewrite lookup_insert_ne by done. apply Hkeys. }
  pose proof (worker_iteration_run env st w1 Hkeys1) as Hpass.
  unfold get_nowait in Hpass. simpl in Hpass.
  destruct Hpass as (w2 & Hrun & Hqueue & _ & Hactive & Hdb).
  rewrite (process_outcome_ok env st request_id payload Hnever) in Hrun.
  rewrite (process_request_table env st request_id payload _ record
             (lookup_insert_eq _ _ _) eq_refl) in Hdb.
  exists w1, w2. eexists. split; [reflexivity |]. split; [exact Hrun |].
  split; [rewrite Hdb; apply lookup_insert_eq |].
  split; [by apply processed_record_terminal |].
  rewrite Hqueue. simpl. repeat split; [lia | exact Hactive].
Qed.

Lemma accepted_job_is_processed_witness :
  ∃ w1 w2 record',
    async_endpoint (sample_env flaky None 0) "req-2" (sample_job good_url)
      (world_with good_url) = (Ok "req-2", w1)
    ∧ _worker_iteration (sample_env flaky None 0) settings w1
      = (Ok Continue, w2)
    ∧ db w2 !! "req-2" = Some record'
    ∧ terminal (status record').
Proof.
  destruct (accepted_job_is_processed (sample_env flaky None 0) settings
              "req-2" (sample_job good_url) (world_with good_url)
              ltac:(intros k r Hlookup; simpl in Hlookup;
                    by apply lookup_singleton_Some in Hlookup as [<- <-])
              ltac:(split; [discriminate |];
                    intros url rid k; unfold flaky; simpl;
                    destruct (k <? 3)%nat; discriminate)
              ltac:(reflexivity) ltac:(reflexivity))
    as (w1 & w2 & record' & Haccept & Hpass & Hget & Hterminal & _).
  exists w1, w2, record'.
  exact (conj Haccept (conj Hpass (conj Hget Hterminal))).
Defined.

(** ** What processing never changes, and the two hashes *)

Lemma failures_record_static (env : Env) (request_id url : string)
    (k attempt : nat) (r : RequestRecord) :
  let r' := failures_record env request_id url k attempt r in
  mode r' = mode r ∧ payload_hash r' = payload_hash r
  ∧ created_at r' = created_at r ∧ callback_url r' = callback_url r
  ∧ completed_at r' = completed_at r ∧ result r' = result r.
Proof. by destruct k. Qed.

Lemma updated_record_static (success : bool) (error : option string)
    (r : RequestRecord) :
  let r' := updated_record success error r in
  mode r' = mode r ∧ payload_hash r' = payload_hash r
  ∧ created_at r' = created_at r ∧ callback_url r' = callback_url r
  ∧ completed_at r' = completed_at r ∧ result r' = result r.
Proof. unfold updated_record. by destruct (truthy error). Qed.

Lemma delivered_record_static (env : Env) (st : Settings)
    (request_id url : string) (r : RequestRecord) :
  let r' := delivered_record env st request_id url r in
  mode r' = mode r ∧ payload_hash r' = payload_hash r
  ∧ created_at r' = created_at r ∧ callback_url r' = callback_url r
  ∧ completed_at r' = completed_at r ∧ result r' = result r.
Proof.
  unfold delivered_record.
  destruct (negb _); [apply updated_record_static |].
  set (rk := failures_record _ _ _ _ _ r).
  pose proof (failures_record_static env request_id url
                (failing_prefix env request_id url
                   (Z.to_nat (callback_max_retries st + 1)) 0) 0 r) as Hk.
  fold rk in Hk. simpl in Hk. destruct Hk as (H1 & H2 & H3 & H4 & H5 & H6).
  destruct (_ - _)%nat; [| destruct (http_post _ _ _ _)];
    try (pose proof (updated_record_static false
                       (Some ("Max retries exceeded: "
                              ++ format_optional
                                   (last_error_after env request_id url
                                      (failing_prefix env request_id url
                                         (Z.to_nat
                                            (callback_max_retries st + 1)) 0)
                                      0 None))%string) rk) as Hu);
    try (pose proof (updated_record_static true None rk) as Hu);
    simpl in *; intuition congruence.
Qed.

(** X16. Processing never changes what identifies a request: the record it
    leaves has the id, mode, payload hash, creation time and callback URL
    of the record it found; and when it carries a result, that result is
    the one computed for this request id and payload. *)
Theorem process_request_keeps_identity (env : Env) (st : Settings)
    (request_id : string) (payload : AsyncWorkPayload) (w : World)
    (record : RequestRecord) :
  db w !! request_id = Some record → id record = request_id →
  result record = None →
  ∃ record',
    db (snd (_process_request env st request_id payload w)) !! request_id
    = Some record'
    ∧ id record' = id record ∧ mode record' = mode record
    ∧ payload_hash record' = payload_hash record
    ∧ created_at record' = created_at record
    ∧ callback_url record' = callback_url record
    ∧ (∀ res, result record' = Some res →
         res = computed_result env request_id payload
         ∧ wr_request_id res = request_id
         ∧ wr_iterations res = iterations (awp_work payload)
         ∧ completed_at record' = Some (utcnow env (clock_reads w))).
Proof.
  intros Hget Hid Hresult.
  rewrite (process_request_table env st request_id payload w record Hget Hid).
  eexists. split; [apply lookup_insert_eq |].
  split; [apply processed_record_id |].
  unfold processed_record.
  set (r2 := pending_record _ _ _).
  pose proof (delivered_record_static env st request_id
                (awp_callback_url payload) r2) as Hd.
  simpl in Hd. destruct Hd as (H1 & H2 & H3 & H4 & H5 & H6).
  destruct (run_in_executor env request_id (work_payload_of payload))
    as [e |].
  - destruct (is_Exception e); simpl; repeat split; congruence.
  - destruct (deliver_outcome env st request_id (awp_callback_url payload))
      as [[] | e]; [| destruct (is_Exception e)];
      rewrite ?H1, ?H2, ?H3, ?H4, ?H5, ?H6; simpl;
      (split; [reflexivity |]); (split; [reflexivity |]);
      (split; [reflexivity |]); (split; [reflexivity |]);
      intros res [= <-]; done.
Qed.

Lemma process_request_keeps_identity_witness :
  ∃ record',
    db (snd (_process_request (sample_env flaky None 0) settings "req-1"
               (sample_job good_url) (world_with good_url))) !! "req-1"
    = Some record'
    ∧ payload_hash record' = "2d711642b726b044"
    ∧ callback_url record' = Some good_url.
Proof.
  destruct (process_request_keeps_identity (sample_env flaky None 0) settings
              "req-1" (sample_job good_url) (world_with good_url)
              (sample_record "req-1" good_url)
              ltac:(vm_compute; reflexivity) ltac:(reflexivity)
              ltac:(reflexivity))
    as (record' & Hget & _ & _ & Hhash & _ & Hurl & _).
  exists record'. exact (conj Hget (conj Hhash Hurl)).
Defined.

(** X17. The payload hash stored at acceptance is the head of the input hash
    computed later: in the record of an accepted job that carries a result
    after processing, [payload_hash] is the first 16 characters of the
    result's [input_hash]. *)
Theorem stored_hash_matches_result (env : Env) (st : Settings)
    (request_id : string) (payload : AsyncWorkPayload) (w : World) :
  full (queue (pool w)) = false →
  ∀ record' res,
    db (job_lifecycle env st request_id payload w) !! request_id
    = Some record' →
    result record' = Some res →
    payload_hash record' = String.substring 0 16 (input_hash res).
Proof.
  intros Hroom record' res. unfold job_lifecycle.
  rewrite async_endpoint_run, Hroom.
  set (record := new_record env request_id payload _).
  set (w1 := {| db := <[request_id := record]> (db w) |}).
  rewrite (process_request_table env st request_id payload w1 record
             (lookup_insert_eq _ _ _) eq_refl).
  rewrite lookup_insert_eq. intros [= <-].
  unfold processed_record.
  set (r2 := pending_record _ _ _).
  pose proof (delivered_record_static env st request_id
                (awp_callback_url payload) r2) as Hd.
  simpl in Hd. destruct Hd as (_ & H2 & _ & _ & _ & H6).
  destruct (run_in_executor env request_id (work_payload_of payload))
    as [e |].
  - destruct (is_Exception e); simpl; discriminate.
  - destruct (deliver_outcome env st request_id (awp_callback_url payload))
      as [[] | e]; [| destruct (is_Exception e)];
      rewrite ?H2, ?H6; simpl; by intros [= <-].
Qed.

Lemma stored_hash_matches_result_witness :
  ∃ record' res,
    db (job_lifecycle (sample_env flaky None 0) settings "req-2"
          (sample_job good_url) (world_with good_url)) !! "req-2"
    = Some record'
    ∧ result record' = Some res
    ∧ payload_hash record' = String.substring 0 16 (input_hash res).
Proof.
  eexists _, _.
  split; [vm_compute; reflexivity |].
  split; [vm_compute; reflexivity |].
  apply (stored_hash_matches_result (sample_env flaky None 0) settings
           "req-2" (sample_job good_url) (world_with good_url) eq_refl);
    vm_compute; reflexivity.
Defined.

Lemma iterate_hash_snoc (sha256 : string → string) (n : nat) :
  ∀ (i : Z) (h : string),
    iterate_hash sha256 (S n) i h
    = sha256 (iterate_hash sha256 n i h ++ ":" ++ pretty (i + Z.of_nat n))%string.
Proof.
  induction n as [| n IH]; intros i h.
  - simpl. by rewrite Z.add_0_r.
  - change (iterate_hash sha256 (S (S n)) i h)
      with (iterate_hash sha256 (S n) (i + 1)
              (sha256 (h ++ ":" ++ pretty i)%string)).
    rewrite IH. simpl iterate_hash.
    by replace (i + 1 + Z.of_nat n) with (i + Z.of_nat (S n)) by lia.
Qed.

(** X18. The output hash is a chain: with one more iteration the output is the
    hash of the former output, a colon and the decimal index of the added
    round; with no iteration (a count of zero or less) the output hash is
    the input hash, the hash of the data. *)
Theorem compute_work_chain (sha256 : string → string) (t0 t1 : Q)
    (request_id data : string) (n : Z) :
  (0 ≤ n →
   output_hash (compute_work_sync sha256 t0 t1 request_id
                  {| data := data; iterations := n + 1 |})
   = sha256 (output_hash (compute_work_sync sha256 t0 t1 request_id
                            {| data := data; iterations := n |})
             ++ ":" ++ pretty n)%string)
  ∧ (n ≤ 0 →
     output_hash (compute_work_sync sha256 t0 t1 request_id
                    {| data := data; iterations := n |})
     = sha256 data).
Proof.
  split.
  - intros Hn. unfold compute_work_sync. simpl.
    replace (Z.to_nat (n + 1)) with (S (Z.to_nat n)) by lia.
    rewrite iterate_hash_snoc. by rewrite Z.add_0_l, Z2Nat.id.
  - intros Hn. unfold compute_work_sync. simpl.
    by replace (Z.to_nat n) with 0%nat by lia.
Qed.

Lemma compute_work_chain_witness :
  output_hash (compute_work_sync (λ s, "sha256(" ++ s ++ ")")%string 0 1
                 "req-1" {| data := "x"; iterations := 2 + 1 |})
  = ("sha256("
     ++ (output_hash (compute_work_sync (λ s, "sha256(" ++ s ++ ")")%string
                        0 1 "req-1" {| data := "x"; iterations := 2 |})
         ++ ":" ++ "2") ++ ")")%string.
Proof.
  apply (proj1 (compute_work_chain (λ s, "sha256(" ++ s ++ ")")%string 0 1
                  "req-1" "x" 2)). lia.
Defined.

(** ** How long a delivery sleeps *)

Lemma sleeps_effects (t : list Event) : sleeps t = sleep_effects (effects t).
Proof.
  induction t as [| ev t IH]; [reflexivity |].
  destruct ev; simpl; by rewrite IH.
Qed.

Lemma sleep_effects_app (fx1 fx2 : list Effect) :
  sleep_effects (fx1 ++ fx2) = sleep_effects fx1 ++ sleep_effects fx2.
Proof.
  induction fx1 as [| e fx1 IH]; simpl; [reflexivity |].
  destruct e; simpl; by rewrite IH.
Qed.

Lemma sleep_effects_sleeps (ds : list Q) : sleep_effects (FxSleep <$> ds) = ds.
Proof.
  induction ds as [| d ds IH]; [reflexivity |].
  rewrite fmap_cons. cbn [sleep_effects]. by rewrite IH.
Qed.

Lemma sleep_effects_failure_effects (env : Env) (st : Settings)
    (request_id callback_url : string) (result : option WorkResult)
    (k : nat) :
  ∀ attempt,
    sleep_effects
      (failure_effects env st request_id callback_url result k attempt)
    = concat (sleep_slot env st request_id <$> seq attempt k).
Proof.
  induction k as [| k IH]; intros attempt; [reflexivity |].
  cbn [failure_effects]. rewrite sleep_effects_app.
  unfold post_effect at 1. cbn [sleep_effects].
  rewrite sleep_effects_sleeps, IH.
  simpl seq. by rewrite fmap_cons.
Qed.

Lemma sleep_slots_count (env : Env) (st : Settings) (request_id : string)
    (k : nat) :
  Z.of_nat (length (concat (sleep_slot env st request_id <$> seq 0 k)))
  ≤ Z.max 0 (Z.min (Z.of_nat k) (callback_max_retries st)).
Proof.
  induction k as [| k IH]; [simpl; lia |].
  rewrite seq_S, fmap_app, concat_app, length_app. simpl.
  rewrite app_nil_r. unfold sleep_slot at 2.
  destruct (Z.ltb_spec (Z.of_nat k) (callback_max_retries st)); simpl; lia.
Qed.

Lemma sleep_slots_short (env : Env) (st : Settings) (request_id : string)
    (k : nat) :
  rounds_to_nearest (round64 env) →
  (0 < callback_retry_base_delay st)%Q →
  (0 < callback_retry_max_delay st)%Q →
  (∀ j, (0 <= random env request_id j)%Q ∧ (random env request_id j < 1)%Q) →
  ∀ attempt,
    Forall (λ d, (0 <= d)%Q
                 ∧ (d <= round64 env
                           ((3 # 2) * callback_retry_max_delay st))%Q)
      (concat (sleep_slot env st request_id <$> seq attempt k)).
Proof.
  intros Hfl Hbase Hmax Hdraw.
  induction k as [| k IH]; intros attempt; [constructor |].
  simpl. apply Forall_app. split; [| apply IH].
  unfold sleep_slot.
  destruct (Z.of_nat attempt <? callback_max_retries st); [| constructor].
  repeat constructor.
  - destruct (backoff_delay_in_band (round64 env) st attempt
                (random env request_id attempt) Hfl Hbase Hmax
                (proj1 (Hdraw attempt)) (proj2 (Hdraw attempt)))
      as [Hlower _].
    pose proof (backoff_ceiling_pos st attempt Hbase Hmax) as Hpos.
    destruct Hfl as (Hmono & Hzero & _).
    pose proof (Hmono 0 ((1 # 2) * backoff_ceiling st attempt)
                  ltac:(lra))%Q.
    lra.
  - destruct (backoff_delay_in_band (round64 env) st attempt
                (random env request_id attempt) Hfl Hbase Hmax
                (proj1 (Hdraw attempt)) (proj2 (Hdraw attempt)))
      as [_ Hupper].
    eapply Qle_trans; [exact Hupper |].
    destruct Hfl as (Hmono & _). apply Hmono.
    pose proof (Q.le_min_r
                  (callback_retry_base_delay st
                   * inject_Z (2 ^ Z.of_nat attempt))
                  (callback_retry_max_delay st)) as Hcap.
    fold (backoff_ceiling st attempt) in Hcap. lra.
Qed.

Lemma total_delay_bound (bound : Q) (ds : list Q) :
  (0 <= bound)%Q → Forall (λ d, (d <= bound)%Q) ds →
  (total_delay ds <= bound * inject_Z (Z.of_nat (length ds)))%Q.
Proof.
  intros Hbound Hall. induction Hall as [| d ds Hd Hall IH].
  - simpl. rewrite Qmult_0_r. apply Qle_refl.
  - change (total_delay (d :: ds)) with (d + total_delay ds)%Q.
    replace (Z.of_nat (length (d :: ds)))
      with (1 + Z.of_nat (length ds)) by (simpl length; lia).
    rewrite inject_Z_plus. change (inject_Z 1) with 1%Q. nra.
Qed.

(** X19. A delivery sleeps at most [callback_max_retries] times. For a retry
    count up to 1024, a base delay and a maximum delay above zero, draws in
    [0, 1) and float arithmetic that rounds to nearest, no sleep is
    negative and none is longer than the float nearest to
    [1.5 * max_delay]; so the time a delivery spends sleeping is at most
    that float times [max_retries]. *)
Theorem total_backoff_bounded (env : Env) (st : Settings)
    (request_id callback_url : string) (result : WorkResult) (w : World) :
  callback_max_retries st ≤ 1024 →
  rounds_to_nearest (round64 env) →
  (0 < callback_retry_base_delay st)%Q →
  (0 < callback_retry_max_delay st)%Q →
  (∀ j, (0 <= random env request_id j)%Q ∧ (random env request_id j < 1)%Q) →
  let ds :=
    sleeps (events_since w
              (snd (_deliver_callback env st request_id callback_url
                      result w))) in
  let longest := round64 env ((3 # 2) * callback_retry_max_delay st) in
  Z.of_nat (length ds) ≤ Z.max 0 (callback_max_retries st)
  ∧ Forall (λ d, (0 <= d)%Q ∧ (d <= longest)%Q) ds
  ∧ (total_delay ds
     <= longest * inject_Z (Z.max 0 (callback_max_retries st)))%Q.
Proof.
  intros _ Hfl Hbase Hmax Hdraw ds longest.
  destruct (deliver_callback_run env st request_id callback_url result w)
    as (w' & new & Hrun & Htrace & _ & Hfx & _).
  assert (∃ k, ds = concat (sleep_slot env st request_id <$> seq 0 k))
    as [k Hds].
  { unfold ds. rewrite Hrun. simpl snd.
    rewrite (events_since_app w w' new Htrace), sleeps_effects, Hfx.
    unfold deliver_effects.
    destruct (negb _); [by exists 0%nat |].
    eexists. rewrite sleep_effects_app, sleep_effects_failure_effects.
    destruct (_ - _)%nat; simpl; by rewrite app_nil_r. }
  assert (Z.of_nat (length ds) ≤ Z.max 0 (callback_max_retries st)) as Hcount.
  { rewrite Hds. pose proof (sleep_slots_count env st request_id k). lia. }
  assert (Forall (λ d, (0 <= d)%Q ∧ (d <= longest)%Q) ds)
    as Hshort by (rewrite Hds; by apply sleep_slots_short).
  split; [exact Hcount |]. split; [exact Hshort |].
  assert (0 <= longest)%Q as Hpos.
  { destruct Hfl as (Hmono & Hzero & _).
    pose proof (Hmono 0 ((3 # 2) * callback_retry_max_delay st)
                  ltac:(lra))%Q.
    unfold longest. lra. }
  eapply Qle_trans.
  - apply total_delay_bound; [exact Hpos |].
    eapply Forall_impl; [exact Hshort |]. by intros d [_ Hd].
  - assert (inject_Z (Z.of_nat (length ds))
            <= inject_Z (Z.max 0 (callback_max_retries st)))%Q as Hlen
      by (by rewrite <- Zle_Qle).
    nra.
Qed.

Lemma total_backoff_bounded_witness :
  (total_delay
     (sleeps (events_since (world_with good_url)
                (snd (_deliver_callback (sample_env (always 500) None (1 # 4))
                        settings "req-1" good_url sample_result
                        (world_with good_url)))))
   <= (3 # 2) * 30 * 3)%Q.
Proof.
  apply (total_backoff_bounded (sample_env (always 500) None (1 # 4))
           settings "req-1" good_url sample_result (world_with good_url)
           ltac:(vm_compute; discriminate)
           (rounds_to_nearest_sample (always 500) None (1 # 4))
           ltac:(reflexivity) ltac:(reflexivity)
           ltac:(intros j; split; [discriminate | reflexivity])).
Defined.

(** X20. The backoff doubles up to the cap: for a base delay and a maximum
    delay that are not negative and an index [k + 1] at which the source
    computes a delay (up to 1023), [min(base * 2^(k+1), max_delay)] is the
    smaller of twice [min(base * 2^k, max_delay)] and [max_delay]; so it
    never decreases from one index to the next, and once it has reached
    [max_delay] it stays there. *)
Theorem backoff_ceiling_doubles (st : Settings) (k : nat) :
  (k < 1023)%nat →
  (0 <= callback_retry_base_delay st)%Q →
  (0 <= callback_retry_max_delay st)%Q →
  (backoff_ceiling st (S k)
   == Qmin (2 * backoff_ceiling st k) (callback_retry_max_delay st))%Q
  ∧ (backoff_ceiling st k <= backoff_ceiling st (S k))%Q
  ∧ ((backoff_ceiling st k == callback_retry_max_delay st)%Q →
     (backoff_ceiling st (S k) == callback_retry_max_delay st)%Q).
Proof.
  intros _ Hbase Hmax. unfold backoff_ceiling.
  set (m := callback_retry_max_delay st) in *.
  set (a := (callback_retry_base_delay st * inject_Z (2 ^ Z.of_nat k))%Q).
  set (a' := (callback_retry_base_delay st * inject_Z (2 ^ Z.of_nat (S k)))%Q).
  assert (a' == 2 * a)%Q as Hdouble.
  { unfold a', a. rewrite Nat2Z.inj_succ, Z.pow_succ_r by lia.
    rewrite inject_Z_mult. change (inject_Z 2) with 2%Q. ring. }
  assert (0 <= a)%Q as Ha.
  { unfold a. apply Qmult_le_0_compat; [exact Hbase |].
    change 0%Q with (inject_Z 0). rewrite <- Zle_Qle.
    apply Z.pow_nonneg. lia. }
  clearbody a a'.
  destruct (Q.min_spec a' m) as [[? E1] | [? E1]];
    destruct (Q.min_spec a m) as [[? E2] | [? E2]];
    destruct (Q.min_spec (2 * Qmin a m) m) as [[? E3] | [? E3]];
    (split; [| split; [| intros ?]]); lra.
Qed.

Lemma backoff_ceiling_doubles_witness :
  (backoff_ceiling settings 5
   == Qmin (2 * backoff_ceiling settings 4) 30)%Q
  ∧ (backoff_ceiling settings 4 <= backoff_ceiling settings 5)%Q.
Proof.
  destruct (backoff_ceiling_doubles settings 4 ltac:(lia)
              ltac:(discriminate) ltac:(discriminate))
    as (Hdouble & Hgrows & _).
  exact (conj Hdouble Hgrows).
Defined.

(** ** The [/sync] endpoint and the lookup of a request *)

Lemma sync_endpoint_cases (env : Env) (request_id : string)
    (payload : WorkPayload) (w : World) :
  let record := sync_record env request_id payload
                  (utcnow env (clock_reads w)) in
  ∃ out w' stored,
    sync_endpoint env request_id payload w = (out, w')
    ∧ pool w' = pool w
    ∧ (∀ other, other ≠ request_id → db w' !! other = db w !! other)
    ∧ db w' !! request_id = Some stored
    ∧ effects (events_since w w') = [FxCompute request_id payload]
    ∧ match run_in_executor env request_id payload with
      | None =>
          let '(t0, t1) := perf_counter env request_id in
          let res := compute_work_sync (sha256 env) t0 t1 request_id payload in
          out = Ok res
          ∧ stored
            = set_result (Some res)
                (set_completed_at (Some (utcnow env (S (clock_reads w))))
                   (set_status COMPLETED record))
          ∧ status_writes request_id (events_since w w')
            = [PROCESSING; COMPLETED]
      | Some e =>
          if is_Exception e then
            out = Raise (HTTPException 500 (str e))
            ∧ stored
              = set_callback_last_error (Some (str e))
                  (set_status CALLBACK_FAILED record)
            ∧ status_writes request_id (events_since w w')
              = [PROCESSING; CALLBACK_FAILED]
          else
            out = Raise e
            ∧ stored = record
            ∧ status_writes request_id (events_since w w') = [PROCESSING]
      end.
Proof.
  intros record. unfold sync_endpoint, compute_work_async.
  fold (sync_record env request_id payload (utcnow env (clock_reads w))).
  fold record. run.
  destruct (run_in_executor env request_id payload) as [e |];
    [unfold except_Exception; simpl; destruct (is_Exception e); simpl
    | destruct (perf_counter env request_id) as [t0 t1]; simpl ];
    (eexists _, _, _; split; [reflexivity |]; simpl;
     split; [reflexivity |];
     split; [intros other Hne; by rewrite !lookup_insert_ne |];
     split; [apply lookup_insert_eq |];
     erewrite events_since_app by (simpl; by rewrite <- !app_assoc);
     split; [reflexivity |]; split; [reflexivity |];
     split; [reflexivity |];
     rewrite ?status_writes_app;
     repeat (rewrite status_writes_save by reflexivity);
     reflexivity).
Qed.

(** X21. [POST /sync]: the computation is requested once and the queue is not
    used. When the executor returns, the response is its result and the
    record is stored as [COMPLETED] with that result; when it raises an
    [Exception], the endpoint raises HTTP 500 with the text of the exception
    and the record is stored as [CALLBACK_FAILED] with that text and no
    result; a cancellation leaves the endpoint as it is, with the record
    still [PROCESSING]. The records of other ids are not touched. *)
Theorem sync_endpoint_contract (env : Env) (request_id : string)
    (payload : WorkPayload) (w : World) :
  ∃ out w' stored,
    sync_endpoint env request_id payload w = (out, w')
    ∧ db w' !! request_id = Some stored
    ∧ id stored = request_id ∧ mode stored = SYNC
    ∧ callback_url stored = None ∧ callback_attempts stored = 0
    ∧ pool w' = pool w
    ∧ (∀ other, other ≠ request_id → db w' !! other = db w !! other)
    ∧ effects (events_since w w') = [FxCompute request_id payload]
    ∧ (run_in_executor env request_id payload = None →
       ∃ res, out = Ok res
         ∧ wr_request_id res = request_id
         ∧ status stored = COMPLETED ∧ result stored = Some res
         ∧ callback_last_error stored = None
         ∧ completed_at stored = Some (utcnow env (S (clock_reads w)))
         ∧ status_writes request_id (events_since w w')
           = [PROCESSING; COMPLETED])
    ∧ (∀ e, run_in_executor env request_id payload = Some e →
       is_Exception e = true →
       out = Raise (HTTPException 500 (str e))
       ∧ status stored = CALLBACK_FAILED ∧ result stored = None
       ∧ callback_last_error stored = Some (str e)
       ∧ status_writes request_id (events_since w w')
         = [PROCESSING; CALLBACK_FAILED])
    ∧ (∀ e, run_in_executor env request_id payload = Some e →
       is_Exception e = false →
       out = Raise e
       ∧ status stored = PROCESSING ∧ result stored = None
       ∧ status_writes request_id (events_since w w') = [PROCESSING]).
Proof.
  destruct (sync_endpoint_cases env request_id payload w)
    as (out & w' & stored & Hrun & Hpool & Hframe & Hget & Hfx & Hcases).
  exists out, w', stored.
  split; [exact Hrun |]. split; [exact Hget |].
  destruct (run_in_executor env request_id payload) as [e |].
  - destruct (is_Exception e) eqn:Hexc;
      destruct Hcases as (-> & -> & Hwrites);
      repeat match goal with |- _ ∧ _ => split end;
      try done;
      intros e' [= <-] Hexc'; rewrite Hexc in Hexc'; try discriminate;
      repeat match goal with |- _ ∧ _ => split end; done.
  - destruct (perf_counter env request_id) as [t0 t1].
    destruct Hcases as (-> & -> & Hwrites).
    repeat match goal with |- _ ∧ _ => split end; try done.
    intros _. eexists.
    repeat match goal with |- _ ∧ _ => split end; done.
Qed.

Lemma sync_endpoint_contract_witness :
  ∃ out w' stored,
    sync_endpoint (sample_env (always 200) None 0) "req-9"
      {| data := "x"; iterations := 3 |} empty_world = (out, w')
    ∧ db w' !! "req-9" = Some stored
    ∧ status stored = COMPLETED.
Proof.
  destruct (sync_endpoint_contract (sample_env (always 200) None 0) "req-9"
              {| data := "x"; iterations := 3 |} empty_world)
    as (out & w' & stored & Hrun & Hget & _ & _ & _ & _ & _ & _ & _
        & Hdone & _).
  destruct (Hdone eq_refl) as (res & _ & _ & Hstatus & _).
  exists out, w', stored. exact (conj Hrun (conj Hget Hstatus)).
Defined.

Lemma get_request_by_id_run (request_id : string) (w : World) :
  get_request_by_id request_id w
  = (match db w !! request_id with
     | Some record => Ok record
     | None => Raise (HTTPException 404 "Request not found")
     end, w).
Proof.
  unfold get_request_by_id. run. by destruct (db w !! request_id).
Qed.

(** X22. A request sent to [POST /sync] can be looked up afterwards, however the
    endpoint ended: [GET /requests/{id}] returns its record and changes
    nothing. After a response with a result, the record is [COMPLETED],
    carries that result, and its [payload_hash] is the first 16 characters
    of the result's [input_hash]. *)
Theorem sync_request_is_queryable (env : Env) (request_id : string)
    (payload : WorkPayload) (w : World) :
  ∀ out w',
    sync_endpoint env request_id payload w = (out, w') →
    ∃ stored,
      get_request_by_id request_id w' = (Ok stored, w')
      ∧ id stored = request_id
      ∧ (∀ res, out = Ok res →
           status stored = COMPLETED ∧ result stored = Some res
           ∧ payload_hash stored = String.substring 0 16 (input_hash res)).
Proof.
  intros out w' Hrun.
  destruct (sync_endpoint_cases env request_id payload w)
    as (out' & w'' & stored & Hrun' & _ & _ & Hget & _ & Hcases).
  rewrite Hrun in Hrun'. injection Hrun' as <- <-.
  exists stored. rewrite get_request_by_id_run, Hget.
  split; [reflexivity |].
  destruct (run_in_executor env request_id payload) as [e |].
  - destruct (is_Exception e); destruct Hcases as (-> & -> & _);
      (split; [reflexivity |]); intros res; discriminate.
  - destruct (perf_counter env request_id) as [t0 t1].
    destruct Hcases as (-> & -> & _). split; [reflexivity |].
    by intros res [= <-].
Qed.

Lemma sync_request_is_queryable_witness :
  ∃ stored,
    get_request_by_id "req-9"
      (snd (sync_endpoint (sample_env (always 200) None 0) "req-9"
              {| data := "x"; iterations := 3 |} empty_world))
    = (Ok stored,
       snd (sync_endpoint (sample_env (always 200) None 0) "req-9"
              {| data := "x"; iterations := 3 |} empty_world))
    ∧ id stored = "req-9".
Proof.
  destruct (sync_request_is_queryable (sample_env (always 200) None 0)
              "req-9" {| data := "x"; iterations := 3 |} empty_world
              _ _ ltac:(vm_compute; reflexivity))
    as (stored & Hget & Hid & _).
  exists stored. exact (conj Hget Hid).
Defined.

(** X23. A request sent to [POST /async] can be looked up at once, accepted or
    not: [GET /requests/{id}] returns its record, [PENDING] when the job was
    queued and [CALLBACK_FAILED] when the queue was full; an id that had no
    record before and is not the new one still gives HTTP 404. *)
Theorem async_request_is_queryable (env : Env) (request_id : string)
    (payload : AsyncWorkPayload) (w : World) :
  ∀ out w',
    async_endpoint env request_id payload w = (out, w') →
    (∃ stored,
       get_request_by_id request_id w' = (Ok stored, w')
       ∧ id stored = request_id ∧ mode stored = ASYNC
       ∧ callback_url stored = Some (awp_callback_url payload)
       ∧ result stored = None
       ∧ status stored
         = if full (queue (pool w)) then CALLBACK_FAILED else PENDING)
    ∧ (∀ other, other ≠ request_id → db w !! other = None →
         get_request_by_id other w'
         = (Raise (HTTPException 404 "Request not found"), w')).
Proof.
  intros out w'. rewrite async_endpoint_run.
  destruct (full (queue (pool w))); intros [= <- <-]; split.
  - eexists. rewrite get_request_by_id_run. simpl.
    rewrite lookup_insert_eq. by repeat (split; [reflexivity |]).
  - intros other Hne Hnone. rewrite get_request_by_id_run. simpl.
    by rewrite !lookup_insert_ne, Hnone.
  - eexists. rewrite get_request_by_id_run. simpl.
    rewrite lookup_insert_eq. by repeat (split; [reflexivity |]).
  - intros other Hne Hnone. rewrite get_request_by_id_run. simpl.
    by rewrite !lookup_insert_ne, Hnone.
Qed.

Lemma async_request_is_queryable_witness :
  ∃ stored,
    get_request_by_id "req-2"
      (snd (async_endpoint (sample_env (always 200) None 0) "req-2"
              (sample_job good_url) full_world))
    = (Ok stored,
       snd (async_endpoint (sample_env (always 200) None 0) "req-2"
              (sample_job good_url) full_world))
    ∧ status stored = CALLBACK_FAILED.
Proof.
  destruct (async_request_is_queryable (sample_env (always 200) None 0)
              "req-2" (sample_job good_url) full_world
              _ _ ltac:(vm_compute; reflexivity))
    as [(stored & Hget & _ & _ & _ & _ & Hstatus) _].
  exists stored. exact (conj Hget Hstatus).
Defined.

Lemma processed_record_result (env : Env) (st : Settings)
    (request_id : string) (payload : AsyncWorkPayload) (now : Z)
    (record : RequestRecord) :
  result record = None →
  ∀ res,
    result (processed_record env st request_id payload now record) = Some res →
    res = computed_result env request_id payload.
Proof.
  intros Hnone res. unfold processed_record.
  set (r2 := pending_record _ _ _).
  pose proof (delivered_record_static env st request_id
                (awp_callback_url payload) r2) as Hd.
  simpl in Hd. destruct Hd as (_ & _ & _ & _ & _ & H6).
  destruct (run_in_executor env request_id (work_payload_of payload))
    as [e |].
  - destruct (is_Exception e); simpl; rewrite Hnone; discriminate.
  - destruct (deliver_outcome env st request_id (awp_callback_url payload))
      as [[] | e]; [| destruct (is_Exception e)];
      rewrite ?H6; simpl; by intros [= <-].
Qed.

(** X24. The two modes do the same work: for the same data and iterations, the
    result [POST /sync] returns and the result an accepted [POST /async]
    job leaves in its record have the same input hash, output hash and
    iteration count, whatever the request ids, the clock and the state of
    the service. *)
Theorem sync_and_async_agree (env : Env) (st : Settings)
    (sync_id async_id : string) (payload : AsyncWorkPayload)
    (w1 w2 : World) :
  full (queue (pool w2)) = false →
  ∀ res record' res',
    fst (sync_endpoint env sync_id (work_payload_of payload) w1) = Ok res →
    db (job_lifecycle env st async_id payload w2) !! async_id = Some record' →
    result record' = Some res' →
    input_hash res' = input_hash res
    ∧ output_hash res' = output_hash res
    ∧ wr_iterations res' = wr_iterations res.
Proof.
  intros Hroom res record' res' Hsync Hget Hres.
  assert (res' = computed_result env async_id payload) as ->.
  { revert Hget. unfold job_lifecycle. rewrite async_endpoint_run, Hroom.
    set (record := new_record env async_id payload _).
    set (w3 := {| db := <[async_id := record]> (db w2) |}).
    rewrite (process_request_table env st async_id payload w3 record
               (lookup_insert_eq _ _ _) eq_refl).
    rewrite lookup_insert_eq. intros [= <-].
    eapply processed_record_result; [| exact Hres]. reflexivity. }
  destruct (sync_endpoint_cases env sync_id (work_payload_of payload) w1)
    as (out & w' & stored & Hrun & _ & _ & _ & _ & Hcases).
  rewrite Hrun in Hsync. simpl in Hsync. subst out.
  destruct (run_in_executor env sync_id (work_payload_of payload)) as [e |].
  - destruct (is_Exception e); by destruct Hcases as (? & _).
  - destruct (perf_counter env sync_id) as [t0 t1].
    destruct Hcases as ([= ->] & _). done.
Qed.

Lemma sync_and_async_agree_witness :
  ∃ res record' res',
    fst (sync_endpoint (sample_env (always 200) None 0) "req-9"
           (work_payload_of (sample_job good_url)) empty_world) = Ok res
    ∧ db (job_lifecycle (sample_env (always 200) None 0) settings "req-1"
            (sample_job good_url) empty_world) !! "req-1" = Some record'
    ∧ result record' = Some res'
    ∧ output_hash res' = output_hash res.
Proof.
  eexists _, _, _.
  split; [vm_compute; reflexivity |].
  split; [vm_compute; reflexivity |].
  split; [vm_compute; reflexivity |].
  eapply (sync_and_async_agree (sample_env (always 200) None 0) settings
            "req-9" "req-1" (sample_job good_url) empty_world empty_world
            eq_refl);
    vm_compute; reflexivity.
Defined.
